(** * In-place initializable arrays (inplace.hpp): model and verification

    A shallow embedding of [StdVectorWrapper], [VerifiableBase],
    [InPlaceArraySec3] (blocks of two cells) and [InPlaceArraySec4]
    (blocks of four cells, metadata stashed in the last block), and of the
    correctness checker and the sequential-write scenario of the benchmark
    driver (main.cpp).

    Conventions.
    - A cell is a C++ [long long], modelled as [Z]; the code never does
      arithmetic on cell contents, so no wrap-around is involved.
    - A [std::size_t] used as an index or a block number is a [nat]: every
      such value computed by the code is at most [N + 3], and [N] is the
      size of an allocated vector.
    - The counters are [std::size_t] and the verifier's epoch is a
      [std::uint32_t]; both are [Z] with their wrap-around written out.
    - [std::vector::operator[]] outside the vector is undefined behaviour;
      private members return [None] there, public members [Undefined]. *)

From Stdlib Require Import ZArith Lia.
From stdpp Require Import base tactics option numbers list strings.

Local Open Scope Z_scope.

(** ** Machine integers *)

Definition wrap64 (x : Z) : Z := x mod 2 ^ 64.
Definition wrap32 (x : Z) : Z := x mod 2 ^ 32.

(** ** Counters *)

Record Counters := mkCounters {
  reads : Z;
  writes : Z;
  inits : Z;
  relocations : Z;
  conversions : Z
}.

Definition Counters0 : Counters := mkCounters 0 0 0 0 0.

Definition inc_reads (c : Counters) : Counters :=
  mkCounters (wrap64 (reads c + 1)) (writes c) (inits c) (relocations c) (conversions c).
Definition inc_writes (c : Counters) : Counters :=
  mkCounters (reads c) (wrap64 (writes c + 1)) (inits c) (relocations c) (conversions c).
Definition inc_inits (c : Counters) : Counters :=
  mkCounters (reads c) (writes c) (wrap64 (inits c + 1)) (relocations c) (conversions c).
Definition inc_relocations (c : Counters) : Counters :=
  mkCounters (reads c) (writes c) (inits c) (wrap64 (relocations c + 1)) (conversions c).
Definition inc_conversions (c : Counters) : Counters :=
  mkCounters (reads c) (writes c) (inits c) (relocations c) (wrap64 (conversions c + 1)).

(** ** Exceptions and outcomes of the public members *)

(** [std::invalid_argument] is [InvalidSize], [std::out_of_range] is
    [IndexOutOfRange]. *)
Inductive error := InvalidSize | IndexOutOfRange.

(** A public member returns normally, throws (the object keeps the state
    it had at the [throw]), or runs into undefined behaviour. *)
Inductive outcome (S X : Type) :=
| Normal (x : X) (s : S)
| Throws (e : error) (s : S)
| Undefined.
Arguments Normal {S X} x s.
Arguments Throws {S X} e s.
Arguments Undefined {S X}.

(** ** Private mutating members: state and undefined behaviour *)

Definition M (S X : Type) : Type := S -> option (X * S).

Definition ret {S X} (x : X) : M S X := fun s => Some (x, s).
Definition bind {S X Y} (m : M S X) (f : X -> M S Y) : M S Y :=
  fun s => match m s with Some (x, s') => f x s' | None => None end.
Definition gets {S X} (f : S -> X) : M S X := fun s => Some (f s, s).
Definition modify {S} (f : S -> S) : M S unit := fun s => Some (tt, f s).
(** Call of a [const] member. *)
Definition call {S X} (f : S -> option X) : M S X :=
  fun s => match f s with Some x => Some (x, s) | None => None end.

Declare Scope cpp_scope.
Delimit Scope cpp_scope with cpp.
Notation "'let*' x := m 'in' k" := (bind m (fun x => k))
  (at level 10, x name, m at level 100, k at level 200) : cpp_scope.
Notation "m ;; k" := (bind m (fun _ => k))
  (at level 100, k at level 200, right associativity) : cpp_scope.

(** ** StdVectorWrapper *)

Module StdVectorWrapper.

Record t := mk {
  N : nat;
  data : list Z;
  ctr : Counters;
  verifying : bool;
  initv_shadow : Z;
  epoch : Z
}.

(** The constructor has no check on [n]. *)
Definition new (n : nat) : error + t :=
  inr (mk n (replicate n 0) Counters0 false 0 0).

Definition bounds (s : t) (i : nat) : bool := negb (N s <=? i)%nat.

Definition init (v : Z) (s : t) : outcome t unit :=
  Normal tt (mk (N s) ((fun _ => v) <$> data s) (inc_inits (ctr s))
                (verifying s) v (wrap64 (epoch s + 1))).

Definition read (i : nat) (s : t) : outcome t Z :=
  let s := mk (N s) (data s) (inc_reads (ctr s)) (verifying s) (initv_shadow s) (epoch s) in
  if negb (bounds s i) then Throws IndexOutOfRange s else
  match data s !! i with
  | Some x => Normal x s
  | None => Undefined
  end.

Definition write (i : nat) (v : Z) (s : t) : outcome t unit :=
  let s := mk (N s) (data s) (inc_writes (ctr s)) (verifying s) (initv_shadow s) (epoch s) in
  if negb (bounds s i) then Throws IndexOutOfRange s else
  if decide (i < length (data s))%nat
  then Normal tt (mk (N s) (<[i:=v]> (data s)) (ctr s) (verifying s) (initv_shadow s) (epoch s))
  else Undefined.

Definition reset_counters (s : t) : t :=
  mk (N s) (data s) Counters0 (verifying s) (initv_shadow s) (epoch s).
Definition get_counters (s : t) : Counters := ctr s.
Definition enable_verification (s : t) : t :=
  mk (N s) (data s) (ctr s) true (initv_shadow s) (epoch s).
Definition verify_correctness (s : t) : bool := true.

End StdVectorWrapper.

(** ** VerifiableBase: the shadow verifier *)

Module VerifiableBase.

Record t := mk {
  N : nat;
  verifying : bool;
  shadow : list Z;
  stamp : list Z;
  shadow_initv : Z;
  shadow_epoch : Z
}.

Definition new (n : nat) : t := mk n false [] [] 0 0.

Definition enable_verification (s : t) : t :=
  mk (N s) true (replicate (N s) 0) (replicate (N s) 0) 0 1.

Definition shadow_on_init (v : Z) (s : t) : t :=
  if negb (verifying s) then s else
  let e := wrap32 (shadow_epoch s + 1) in
  if e =? 0
  then mk (N s) (verifying s) (shadow s) ((fun _ => 0) <$> stamp s) v 1
  else mk (N s) (verifying s) (shadow s) (stamp s) v e.

Definition shadow_on_write (i : nat) (v : Z) (s : t) : option t :=
  if negb (verifying s) then Some s else
  if decide (i < length (shadow s))%nat then
    if decide (i < length (stamp s))%nat then
      Some (mk (N s) (verifying s) (<[i:=v]> (shadow s))
               (<[i:=shadow_epoch s]> (stamp s)) (shadow_initv s) (shadow_epoch s))
    else None
  else None.

(** The local [expect] of the loop body of [shadow_check_against]. *)
Definition expect (s : t) (i : nat) : option Z :=
  match stamp s !! i with
  | Some e => if e =? shadow_epoch s then shadow s !! i else Some (shadow_initv s)
  | None => None
  end.

(** The loop [for (i = i0; i < i0 + n; ++i)]; [false] at the first mismatch. *)
Fixpoint check_from (s : t) (read_actual : nat -> option Z) (i n : nat) : option bool :=
  match n with
  | O => Some true
  | S n' =>
    match expect s i, read_actual i with
    | Some e, Some got =>
      if negb (e =? got) then Some false else check_from s read_actual (S i) n'
    | _, _ => None
    end
  end.

Definition shadow_check_against (read_actual : nat -> option Z) (s : t) : option bool :=
  if negb (verifying s) then Some true else check_from s read_actual 0 (N s).

(** Once verification is enabled, both shadow vectors have [N] entries. *)
Definition wf (s : t) : Prop :=
  verifying s = true -> length (shadow s) = N s /\ length (stamp s) = N s.

End VerifiableBase.

(** ** InPlaceArraySec3: blocks of two cells *)

Module InPlaceArraySec3.

Record t := mk {
  base : VerifiableBase.t;
  N_blocks : nat;
  A : list Z;
  b : nat;
  initv : Z;
  ctr : Counters
}.

Definition N (s : t) : nat := VerifiableBase.N (base s).
Definition verifying (s : t) : bool := VerifiableBase.verifying (base s).

Definition set_base (x : VerifiableBase.t) (s : t) : t :=
  mk x (N_blocks s) (A s) (b s) (initv s) (ctr s).
Definition set_A (x : list Z) (s : t) : t :=
  mk (base s) (N_blocks s) x (b s) (initv s) (ctr s).
Definition set_b (x : nat) (s : t) : t :=
  mk (base s) (N_blocks s) (A s) x (initv s) (ctr s).
Definition set_initv (x : Z) (s : t) : t :=
  mk (base s) (N_blocks s) (A s) (b s) x (ctr s).
Definition set_ctr (x : Counters) (s : t) : t :=
  mk (base s) (N_blocks s) (A s) (b s) (initv s) x.

(** The constructor: the members are initialised, then the checks run. *)
Definition new (n : nat) : error + t :=
  if (n =? 0)%nat then inl InvalidSize else
  if negb (n mod 2 =? 0)%nat then inl InvalidSize else
  inr (mk (VerifiableBase.new n) (n / 2) (replicate n 0) 0%nat 0 Counters0).

Definition block_of (i : nat) : nat := Nat.shiftr i 1.
Definition first_of (blk : nat) : nat := Nat.shiftl blk 1.

(** [A[i]] as an rvalue and [A[i] = v]. *)
Definition ld (i : nat) : M t Z := call (fun s => A s !! i).
Definition st (i : nat) (v : Z) : M t unit :=
  fun s => if decide (i < length (A s))%nat then Some (tt, set_A (<[i:=v]> (A s)) s) else None.

Local Open Scope cpp_scope.

Definition chainedTo_block (s : t) (bi : nat) : option Z :=
  match A s !! first_of bi with
  | None => None
  | Some k0 =>
    if negb (Z.land k0 1 =? 0) then Some (-1) else
    if (k0 <? 0) || (N s <=? Z.to_nat k0)%nat then Some (-1) else
    let k := Nat.shiftr (Z.to_nat k0) 1 in
    let cross := ((bi <? b s)%nat && (b s <=? k)%nat) || ((k <? b s)%nat && (b s <=? bi)%nat) in
    if negb cross then Some (-1) else
    match A s !! Z.to_nat k0 with
    | None => None
    | Some x =>
      if negb (x =? Z.of_nat (first_of bi)) then Some (-1) else Some (Z.of_nat k)
    end
  end.

Definition makeChain (bi bj : nat) : M t unit :=
  st (first_of bi) (Z.of_nat (first_of bj));;
  st (first_of bj) (Z.of_nat (first_of bi));;
  modify (fun s => set_ctr (inc_conversions (ctr s)) s).

Definition breakChain (bi : nat) : M t unit :=
  let* k := call (fun s => chainedTo_block s bi) in
  if 0 <=? k then
    let bj := Z.to_nat k in
    st (first_of bj) (Z.of_nat (first_of bj));;
    modify (fun s => set_ctr (inc_conversions (ctr s)) s)
  else ret tt.

Definition initBlock (bi : nat) : M t unit :=
  let* v := gets initv in
  st (first_of bi) v;;
  st (first_of bi + 1) v.

Definition extend : M t nat :=
  let* s := gets b in
  let* k := call (fun x => chainedTo_block x s) in
  modify (fun x => set_b (S (b x)) x);;
  if k <? 0 then
    initBlock s;;
    breakChain s;;
    ret s
  else
    let bk := Z.to_nat k in
    (let* x := ld (first_of bk + 1) in st (first_of s) x);;
    breakChain s;;
    initBlock bk;;
    breakChain bk;;
    modify (fun x => set_ctr (inc_relocations (ctr x)) x);;
    ret bk.

Definition read_impl (s : t) (i : nat) : option Z :=
  let bi := block_of i in
  match chainedTo_block s bi with
  | None => None
  | Some k =>
    if (i <? 2 * b s)%nat then
      if 0 <=? k then Some (initv s) else A s !! i
    else
      if 0 <=? k then
        let bk := Z.to_nat k in
        if (Nat.land i 1 =? 0)%nat then A s !! (first_of bk + 1)%nat else A s !! i
      else Some (initv s)
  end.

(** [std::swap(A[x], A[y])]. *)
Definition swap (x y : nat) : M t unit :=
  let* vx := ld x in
  let* vy := ld y in
  st x vy;;
  st y vx.

Definition write_impl (i : nat) (v : Z) : M t unit :=
  let bi := block_of i in
  let* k := call (fun s => chainedTo_block s bi) in
  let* b0 := gets b in
  if (bi <? b0)%nat then
    if k <? 0 then
      st i v;;
      breakChain bi
    else
      let* bj := extend in
      if (bj =? bi)%nat then st i v;; breakChain bi
      else
        swap (first_of bj) (first_of bi);;
        swap (first_of bj + 1) (first_of bi + 1);;
        modify (fun s => set_ctr (inc_relocations (ctr s)) s);;
        makeChain bj (Z.to_nat k);;
        initBlock bi;;
        st i v;;
        breakChain bi
  else
    if 0 <=? k then
      let bk := Z.to_nat k in
      if (Nat.land i 1 =? 0)%nat then st (first_of bk + 1) v else st i v
    else
      let* bk2 := extend in
      if (bk2 =? bi)%nat then st i v;; breakChain bi
      else
        initBlock bi;;
        makeChain bk2 bi;;
        if (Nat.land i 1 =? 0)%nat then st (first_of bk2 + 1) v else st i v.

(** Public members. *)

Definition init (v : Z) (s : t) : outcome t unit :=
  let s := set_ctr (inc_inits (ctr s)) s in
  let s := set_initv v s in
  let s := set_b 0%nat s in
  Normal tt (set_base (VerifiableBase.shadow_on_init v (base s)) s).

Definition read (i : nat) (s : t) : outcome t Z :=
  let s := set_ctr (inc_reads (ctr s)) s in
  if (N s <=? i)%nat then Throws IndexOutOfRange s else
  match read_impl s i with
  | Some x => Normal x s
  | None => Undefined
  end.

Definition write (i : nat) (v : Z) (s : t) : outcome t unit :=
  let s := set_ctr (inc_writes (ctr s)) s in
  if (N s <=? i)%nat then Throws IndexOutOfRange s else
  match write_impl i v s with
  | None => Undefined
  | Some (_, s) =>
    if verifying s then
      match VerifiableBase.shadow_on_write i v (base s) with
      | Some x => Normal tt (set_base x s)
      | None => Undefined
      end
    else Normal tt s
  end.

Definition reset_counters (s : t) : t := set_ctr Counters0 s.
Definition get_counters (s : t) : Counters := ctr s.
Definition enable_verification (s : t) : t :=
  set_base (VerifiableBase.enable_verification (base s)) s.

(** The loop over the blocks [i, i + n) of [verify_correctness]; [false]
    at the first chain whose partner does not point back. *)
Fixpoint chains_from (s : t) (i n : nat) : option bool :=
  match n with
  | O => Some true
  | S n' =>
    match chainedTo_block s i with
    | None => None
    | Some k =>
      if 0 <=? k then
        match A s !! first_of (Z.to_nat k) with
        | None => None
        | Some x =>
          if negb (x =? Z.of_nat (first_of i)) then Some false
          else chains_from s (S i) n'
        end
      else chains_from s (S i) n'
    end
  end.

Definition verify_correctness (s : t) : option bool :=
  match VerifiableBase.shadow_check_against (read_impl s) (base s) with
  | None => None
  | Some false => Some false
  | Some true => chains_from s 0 (N_blocks s)
  end.

(** The object after a private member changed [A], [b] and the counters. *)
Definition with_state (s : t) (A' : list Z) (b' : nat) (c' : Counters) : t :=
  mk (base s) (N_blocks s) A' b' (initv s) c'.

(** The class invariant. *)
Record wf (s : t) : Prop := {
  wf_N : N s = (2 * N_blocks s)%nat;
  wf_A : length (A s) = N s;
  wf_b : (b s <= N_blocks s)%nat;
  wf_base : VerifiableBase.wf (base s)
}.

End InPlaceArraySec3.

(** ** InPlaceArraySec4: blocks of four cells, metadata in the last block *)

Module InPlaceArraySec4.

Record t := mk {
  base : VerifiableBase.t;
  N_blocks : nat;
  A : list Z;
  b : nat;
  initv : Z;
  flag : bool;
  ctr : Counters
}.

Definition N (s : t) : nat := VerifiableBase.N (base s).
Definition verifying (s : t) : bool := VerifiableBase.verifying (base s).

Definition set_base (x : VerifiableBase.t) (s : t) : t :=
  mk x (N_blocks s) (A s) (b s) (initv s) (flag s) (ctr s).
Definition set_A (x : list Z) (s : t) : t :=
  mk (base s) (N_blocks s) x (b s) (initv s) (flag s) (ctr s).
Definition set_b (x : nat) (s : t) : t :=
  mk (base s) (N_blocks s) (A s) x (initv s) (flag s) (ctr s).
Definition set_initv (x : Z) (s : t) : t :=
  mk (base s) (N_blocks s) (A s) (b s) x (flag s) (ctr s).
Definition set_flag (x : bool) (s : t) : t :=
  mk (base s) (N_blocks s) (A s) (b s) (initv s) x (ctr s).
Definition set_ctr (x : Counters) (s : t) : t :=
  mk (base s) (N_blocks s) (A s) (b s) (initv s) (flag s) x.

Definition new (n : nat) : error + t :=
  if (n =? 0)%nat then inl InvalidSize else
  if negb (n mod 4 =? 0)%nat then inl InvalidSize else
  inr (mk (VerifiableBase.new n) (n / 4) (replicate n 0) 0%nat 0 false Counters0).

Definition block_of (i : nat) : nat := Nat.shiftr i 2.
Definition first_of (blk : nat) : nat := Nat.shiftl blk 2.

Definition ld (i : nat) : M t Z := call (fun s => A s !! i).
Definition st (i : nat) (v : Z) : M t unit :=
  fun s => if decide (i < length (A s))%nat then Some (tt, set_A (<[i:=v]> (A s)) s) else None.

Local Open Scope cpp_scope.

Definition sync_flag : M t unit :=
  modify (fun s => set_flag (N_blocks s <=? b s)%nat s).

Definition sync_meta_to_A : M t unit :=
  sync_flag;;
  let* f := gets flag in
  if negb f then
    let* nb := gets N_blocks in
    let mb := (nb - 1)%nat in
    let* v := gets initv in
    st (first_of mb + 1) v;;
    let* b0 := gets b in
    st (first_of mb + 2) (Z.of_nat b0)
  else ret tt.

Definition chainedTo_block (s : t) (bi : nat) : option Z :=
  match A s !! first_of bi with
  | None => None
  | Some k0 =>
    if negb (Z.land k0 3 =? 0) then Some (-1) else
    if (k0 <? 0) || (N s <=? Z.to_nat k0)%nat then Some (-1) else
    let k := Nat.shiftr (Z.to_nat k0) 2 in
    let cross := ((bi <? b s)%nat && (b s <=? k)%nat) || ((k <? b s)%nat && (b s <=? bi)%nat) in
    if negb cross then Some (-1) else
    match A s !! Z.to_nat k0 with
    | None => None
    | Some x =>
      if negb (x =? Z.of_nat (first_of bi)) then Some (-1) else Some (Z.of_nat k)
    end
  end.

Definition makeChain (bi bj : nat) : M t unit :=
  st (first_of bi) (Z.of_nat (first_of bj));;
  st (first_of bj) (Z.of_nat (first_of bi));;
  modify (fun s => set_ctr (inc_conversions (ctr s)) s).

Definition breakChain (bi : nat) : M t unit :=
  let* k := call (fun s => chainedTo_block s bi) in
  if 0 <=? k then
    let bj := Z.to_nat k in
    st (first_of bj) (Z.of_nat (first_of bj));;
    modify (fun s => set_ctr (inc_conversions (ctr s)) s)
  else ret tt.

Definition initBlock (bi : nat) : M t unit :=
  let* v := gets initv in
  st (first_of bi) v;;
  st (first_of bi + 1) v;;
  st (first_of bi + 2) v;;
  st (first_of bi + 3) v.

Definition extend : M t nat :=
  let* s := gets b in
  let* k := call (fun x => chainedTo_block x s) in
  modify (fun x => set_b (S (b x)) x);;
  if k <? 0 then
    initBlock s;;
    breakChain s;;
    sync_meta_to_A;;
    ret s
  else
    let bk := Z.to_nat k in
    (let* x := ld (first_of bk + 1) in st (first_of s) x);;
    (let* x := ld (first_of bk + 2) in st (first_of s + 1) x);;
    (let* x := ld (first_of bk + 3) in st (first_of s + 2) x);;
    breakChain s;;
    initBlock bk;;
    breakChain bk;;
    modify (fun x => set_ctr (inc_relocations (ctr x)) x);;
    sync_meta_to_A;;
    ret bk.

(** The [switch (i & 3U)] of [read_impl]; the code after the [switch]
    ([return 0]) is the default of the last [match]. *)
Definition read_impl (s : t) (i : nat) : option Z :=
  if flag s then A s !! i else
  let bi := block_of i in
  match chainedTo_block s bi with
  | None => None
  | Some k =>
    if (i <? 4 * b s)%nat then
      if 0 <=? k then Some (initv s) else A s !! i
    else
      if 0 <=? k then
        let bk := Z.to_nat k in
        match Nat.land i 3 with
        | 0%nat => A s !! (first_of bk + 1)%nat
        | 1%nat => A s !! (first_of bk + 2)%nat
        | 2%nat => A s !! (first_of bk + 3)%nat
        | 3%nat => A s !! i
        | _ => Some 0
        end
      else Some (initv s)
  end.

Definition swap (x y : nat) : M t unit :=
  let* vx := ld x in
  let* vy := ld y in
  st x vy;;
  st y vx.

(** The two [switch (i & 3U)] of [write_impl]. *)
Definition write_through (bk i : nat) (v : Z) : M t unit :=
  match Nat.land i 3 with
  | 0%nat => st (first_of bk + 1) v
  | 1%nat => st (first_of bk + 2) v
  | 2%nat => st (first_of bk + 3) v
  | 3%nat => st i v
  | _ => ret tt
  end.

Definition write_impl (i : nat) (v : Z) : M t unit :=
  let* f := gets flag in
  if f then st i v else
  let bi := block_of i in
  let* k := call (fun s => chainedTo_block s bi) in
  let* b0 := gets b in
  if (bi <? b0)%nat then
    if k <? 0 then
      st i v;;
      breakChain bi
    else
      let* bj := extend in
      if (bj =? bi)%nat then st i v;; breakChain bi
      else
        swap (first_of bj) (first_of bi);;
        swap (first_of bj + 1) (first_of bi + 1);;
        swap (first_of bj + 2) (first_of bi + 2);;
        swap (first_of bj + 3) (first_of bi + 3);;
        modify (fun s => set_ctr (inc_relocations (ctr s)) s);;
        makeChain bj (Z.to_nat k);;
        initBlock bi;;
        st i v;;
        breakChain bi
  else
    if 0 <=? k then write_through (Z.to_nat k) i v
    else
      let* bk2 := extend in
      if (bk2 =? bi)%nat then st i v;; breakChain bi
      else
        initBlock bi;;
        makeChain bk2 bi;;
        write_through bk2 i v.

(** Public members. *)

Definition init (v : Z) (s : t) : outcome t unit :=
  let s := set_ctr (inc_inits (ctr s)) s in
  let s := set_initv v s in
  let s := set_b 0%nat s in
  let s := set_flag (N_blocks s =? 0)%nat s in
  match sync_meta_to_A s with
  | None => Undefined
  | Some (_, s) => Normal tt (set_base (VerifiableBase.shadow_on_init v (base s)) s)
  end.

Definition read (i : nat) (s : t) : outcome t Z :=
  let s := set_ctr (inc_reads (ctr s)) s in
  if (N s <=? i)%nat then Throws IndexOutOfRange s else
  match read_impl s i with
  | Some x => Normal x s
  | None => Undefined
  end.

Definition write (i : nat) (v : Z) (s : t) : outcome t unit :=
  let s := set_ctr (inc_writes (ctr s)) s in
  if (N s <=? i)%nat then Throws IndexOutOfRange s else
  match write_impl i v s with
  | None => Undefined
  | Some (_, s) =>
    if verifying s then
      match VerifiableBase.shadow_on_write i v (base s) with
      | Some x => Normal tt (set_base x s)
      | None => Undefined
      end
    else Normal tt s
  end.

Definition reset_counters (s : t) : t := set_ctr Counters0 s.
Definition get_counters (s : t) : Counters := ctr s.
Definition enable_verification (s : t) : t :=
  set_base (VerifiableBase.enable_verification (base s)) s.

(** The loop over the blocks [i, i + n) of [verify_correctness]; [false]
    at the first chain whose partner does not point back. *)
Fixpoint chains_from (s : t) (i n : nat) : option bool :=
  match n with
  | O => Some true
  | S n' =>
    match chainedTo_block s i with
    | None => None
    | Some k =>
      if 0 <=? k then
        match A s !! first_of (Z.to_nat k) with
        | None => None
        | Some x =>
          if negb (x =? Z.of_nat (first_of i)) then Some false
          else chains_from s (S i) n'
        end
      else chains_from s (S i) n'
    end
  end.

Definition verify_correctness (s : t) : option bool :=
  match VerifiableBase.shadow_check_against (read_impl s) (base s) with
  | None => None
  | Some false => Some false
  | Some true => chains_from s 0 (N_blocks s)
  end.

(** The object after a private member changed [A], [b], [flag] and the
    counters. *)
Definition with_state (s : t) (A' : list Z) (b' : nat) (f' : bool) (c' : Counters) : t :=
  mk (base s) (N_blocks s) A' b' (initv s) f' c'.

(** The class invariant: [flag] is the derived flag [b >= N_blocks]. *)
Record wf (s : t) : Prop := {
  wf_N : N s = (4 * N_blocks s)%nat;
  wf_A : length (A s) = N s;
  wf_b : (b s <= N_blocks s)%nat;
  wf_flag : flag s = (N_blocks s <=? b s)%nat;
  wf_base : VerifiableBase.wf (base s)
}.

End InPlaceArraySec4.

(** ** IInitializableArray: the three implementations behind one interface *)

Inductive array :=
| std_vector (s : StdVectorWrapper.t)
| sec3 (s : InPlaceArraySec3.t)
| sec4 (s : InPlaceArraySec4.t).

Inductive variant := Vstd_vector | Vsec3 | Vsec4.

Definition lift_outcome {S X} (inj : S -> array) (o : outcome S X) : outcome array X :=
  match o with
  | Normal x s => Normal x (inj s)
  | Throws e s => Throws e (inj s)
  | Undefined => Undefined
  end.

Definition name (a : array) : variant :=
  match a with std_vector _ => Vstd_vector | sec3 _ => Vsec3 | sec4 _ => Vsec4 end.

(** [std::make_unique<...>(N)] for the implementation called [v]. *)
Definition make (v : variant) (n : nat) : error + array :=
  match v with
  | Vstd_vector => sum_map id std_vector (StdVectorWrapper.new n)
  | Vsec3 => sum_map id sec3 (InPlaceArraySec3.new n)
  | Vsec4 => sum_map id sec4 (InPlaceArraySec4.new n)
  end.

Definition init (v : Z) (a : array) : outcome array unit :=
  match a with
  | std_vector s => lift_outcome std_vector (StdVectorWrapper.init v s)
  | sec3 s => lift_outcome sec3 (InPlaceArraySec3.init v s)
  | sec4 s => lift_outcome sec4 (InPlaceArraySec4.init v s)
  end.

Definition read (i : nat) (a : array) : outcome array Z :=
  match a with
  | std_vector s => lift_outcome std_vector (StdVectorWrapper.read i s)
  | sec3 s => lift_outcome sec3 (InPlaceArraySec3.read i s)
  | sec4 s => lift_outcome sec4 (InPlaceArraySec4.read i s)
  end.

Definition write (i : nat) (v : Z) (a : array) : outcome array unit :=
  match a with
  | std_vector s => lift_outcome std_vector (StdVectorWrapper.write i v s)
  | sec3 s => lift_outcome sec3 (InPlaceArraySec3.write i v s)
  | sec4 s => lift_outcome sec4 (InPlaceArraySec4.write i v s)
  end.

Definition reset_counters (a : array) : array :=
  match a with
  | std_vector s => std_vector (StdVectorWrapper.reset_counters s)
  | sec3 s => sec3 (InPlaceArraySec3.reset_counters s)
  | sec4 s => sec4 (InPlaceArraySec4.reset_counters s)
  end.

Definition get_counters (a : array) : Counters :=
  match a with
  | std_vector s => StdVectorWrapper.get_counters s
  | sec3 s => InPlaceArraySec3.get_counters s
  | sec4 s => InPlaceArraySec4.get_counters s
  end.

Definition enable_verification (a : array) : array :=
  match a with
  | std_vector s => std_vector (StdVectorWrapper.enable_verification s)
  | sec3 s => sec3 (InPlaceArraySec3.enable_verification s)
  | sec4 s => sec4 (InPlaceArraySec4.enable_verification s)
  end.

Definition array_N (a : array) : nat :=
  match a with
  | std_vector s => StdVectorWrapper.N s
  | sec3 s => InPlaceArraySec3.N s
  | sec4 s => InPlaceArraySec4.N s
  end.

Definition set_counters (c : Counters) (a : array) : array :=
  match a with
  | std_vector s =>
    std_vector (StdVectorWrapper.mk (StdVectorWrapper.N s) (StdVectorWrapper.data s) c
      (StdVectorWrapper.verifying s) (StdVectorWrapper.initv_shadow s)
      (StdVectorWrapper.epoch s))
  | sec3 s => sec3 (InPlaceArraySec3.set_ctr c s)
  | sec4 s => sec4 (InPlaceArraySec4.set_ctr c s)
  end.

(** [verify_correctness] prints its findings; only the result is kept. *)
Definition verify_correctness (a : array) : option bool :=
  match a with
  | std_vector s => Some (StdVectorWrapper.verify_correctness s)
  | sec3 s => InPlaceArraySec3.verify_correctness s
  | sec4 s => InPlaceArraySec4.verify_correctness s
  end.

(** A driver's calls on an object, and the states it can reach. *)
Inductive op :=
| OpInit (v : Z)
| OpRead (i : nat)
| OpWrite (i : nat) (v : Z)
| OpResetCounters
| OpEnableVerification.

(** The object after one call, whether it returned or threw; [None] after
    undefined behaviour. *)
Definition state_of {X} (o : outcome array X) : option array :=
  match o with
  | Normal _ s => Some s
  | Throws _ s => Some s
  | Undefined => None
  end.

Definition step (o : op) (a : array) : option array :=
  match o with
  | OpInit v => state_of (init v a)
  | OpRead i => state_of (read i a)
  | OpWrite i v => state_of (write i v a)
  | OpResetCounters => Some (reset_counters a)
  | OpEnableVerification => Some (enable_verification a)
  end.

Fixpoint run (ops : list op) (a : array) : option array :=
  match ops with
  | [] => Some a
  | o :: ops' =>
    match step o a with
    | Some a' => run ops' a'
    | None => None
    end
  end.

Definition reachable (a : array) : Prop :=
  exists v n a0 ops, make v n = inr a0 /\ run ops a0 = Some a.

(** ** The block algorithm, for any block size

    Both classes run the same algorithm on blocks of [K] cells ([K = 2]
    and [K = 4]); [InPlaceArraySec4] in addition stashes [initv] and [b]
    in the last block ([stashing]).  The algorithm is written once here over
    the bare vector, with total lookups; the lemmas below show that the
    members of the two classes compute exactly these functions. *)

Module BlockAlg.
Section Defs.
Variables (K NB : nat) (stashing : bool).

(** The vector has [K * NB] cells. *)
Definition sized (A : list Z) : Prop := length A = (K * NB)%nat.

Definition idx (c t : nat) : nat := (K * c + t)%nat.
Definition enc (c : nat) : Z := Z.of_nat (idx c 0).
Definition cell (A : list Z) (c t : nat) : Z := A !!! idx c t.
Definition upd (A : list Z) (c t : nat) (x : Z) : list Z := <[idx c t := x]> A.

(** The block a cell content designates, if it designates one. *)
Definition dec (z : Z) : option nat :=
  if (z mod Z.of_nat K =? 0) && (0 <=? z) && (z <? Z.of_nat (K * NB))
  then Some (Z.to_nat z / K)%nat else None.

Definition crossP (b c k : nat) : Prop :=
  (c < b <= k)%nat \/ (k < b <= c)%nat.

Definition cross (b c k : nat) : bool :=
  ((c <? b)%nat && (b <=? k)%nat) || ((k <? b)%nat && (b <=? c)%nat).

Definition partner (A : list Z) (b c : nat) : option nat :=
  let k0 := cell A c 0 in
  if (k0 mod Z.of_nat K =? 0) && (0 <=? k0) && (k0 <? Z.of_nat (K * NB)) then
    let k := (Z.to_nat k0 / K)%nat in
    if cross b c k && (cell A k 0 =? enc c) then Some k else None
  else None.

(** [chainedTo_block] returns the partner as a [long long], [-1] for none. *)
Definition code (p : option nat) : Z :=
  match p with Some k => Z.of_nat k | None => -1 end.

(** Where the cell at offset [o] of a chained block [c] at or above [b]
    lives, [k] being its partner. *)
Definition through (k c o : nat) : nat * nat :=
  if (o <? K - 1)%nat then (k, (o + 1)%nat) else (c, o).

Definition lread (A : list Z) (b : nat) (iv : Z) (c o : nat) : Z :=
  match partner A b c with
  | Some k =>
    if (c <? b)%nat then iv else cell A (through k c o).1 (through k c o).2
  | None =>
    if (c <? b)%nat then cell A c o else iv
  end.

Definition makeChain (A : list Z) (c d : nat) : list Z :=
  upd (upd A c 0 (enc d)) d 0 (enc c).

Definition breakChain (A : list Z) (b c : nat) : list Z :=
  match partner A b c with
  | Some k => upd A k 0 (enc k)
  | None => A
  end.

Definition fill (A : list Z) (c : nat) (x : Z) : list Z :=
  foldl (fun A' t => upd A' c t x) A (seq 0 K).

Definition restore (A : list Z) (s bk : nat) : list Z :=
  foldl (fun A' t => upd A' s t (cell A' bk (t + 1))) A (seq 0 (K - 1)).

Definition swapBlocks (A : list Z) (c d : nat) : list Z :=
  foldl (fun A' t => upd (upd A' c t (cell A' d t)) d t (cell A' c t)) A (seq 0 K).

Definition stash (A : list Z) (b : nat) (iv : Z) : list Z :=
  if stashing && (b <? NB)%nat
  then upd (upd A (NB - 1) 1 iv) (NB - 1) 2 (Z.of_nat b)
  else A.

(** [extend] moves the boundary from [b] to [S b]. *)
Definition extend (A : list Z) (b : nat) (iv : Z) : nat * list Z :=
  match partner A b b with
  | None =>
    (b, stash (breakChain (fill A b iv) (S b) b) (S b) iv)
  | Some bk =>
    let A1 := breakChain (restore A b bk) (S b) b in
    (bk, stash (breakChain (fill A1 bk iv) (S b) bk) (S b) iv)
  end.

Definition write_fresh (A : list Z) (b c o : nat) (v : Z) : list Z :=
  breakChain (upd A c o v) b c.

Definition write (A : list Z) (b : nat) (iv : Z) (c o : nat) (v : Z) : list Z * nat :=
  match partner A b c with
  | None =>
    if (c <? b)%nat then (write_fresh A b c o v, b)
    else
      let fA := extend A b iv in
      if (fA.1 =? c)%nat then (write_fresh fA.2 (S b) c o v, S b)
      else
        let A2 := makeChain (fill fA.2 c iv) fA.1 c in
        (upd A2 (through fA.1 c o).1 (through fA.1 c o).2 v, S b)
  | Some k =>
    if (c <? b)%nat then
      let fA := extend A b iv in
      if (fA.1 =? c)%nat then (write_fresh fA.2 (S b) c o v, S b)
      else
        let A2 := makeChain (swapBlocks fA.2 fA.1 c) fA.1 k in
        (write_fresh (fill A2 c iv) (S b) c o v, S b)
    else (upd A (through k c o).1 (through k c o).2 v, b)
  end.

End Defs.
End BlockAlg.

(** The logical contents of the two arrays: the cell [i] as the block
    algorithm reads it. *)
Definition sec3_value (s : InPlaceArraySec3.t) (i : nat) : Z :=
  BlockAlg.lread 2 (InPlaceArraySec3.N_blocks s) (InPlaceArraySec3.A s)
    (InPlaceArraySec3.b s) (InPlaceArraySec3.initv s) (i / 2) (i mod 2).

Definition sec4_value (s : InPlaceArraySec4.t) (i : nat) : Z :=
  BlockAlg.lread 4 (InPlaceArraySec4.N_blocks s) (InPlaceArraySec4.A s)
    (InPlaceArraySec4.b s) (InPlaceArraySec4.initv s) (i / 4) (i mod 4).

(** The block size of an implementation; the plain vector has none. *)
Definition block_size (v : variant) : nat :=
  match v with Vstd_vector => 1%nat | Vsec3 => 2%nat | Vsec4 => 4%nat end.

(** The storage of an array. *)
Definition cells (a : array) : list Z :=
  match a with
  | std_vector s => StdVectorWrapper.data s
  | sec3 s => InPlaceArraySec3.A s
  | sec4 s => InPlaceArraySec4.A s
  end.

(** A driver run from construction; [None] if the constructor throws. *)
Definition make_run (v : variant) (n : nat) (ops : list op) : option array :=
  match make v n with
  | inr a0 => run ops a0
  | inl _ => None
  end.

(** Two small objects: eight cells, [init(0); write(5, 99)]. *)
Definition demo3 : array :=
  Eval vm_compute in
    match make_run Vsec3 8 [OpInit 0; OpWrite 5 99] with
    | Some a => a
    | None => std_vector (StdVectorWrapper.mk 0 [] Counters0 false 0 0)
    end.

Definition demo4 : array :=
  Eval vm_compute in
    match make_run Vsec4 8 [OpInit 0; OpWrite 5 99] with
    | Some a => a
    | None => std_vector (StdVectorWrapper.mk 0 [] Counters0 false 0 0)
    end.

(** Four cells, [init(0); write(2, 5)]: the boundary block is chained. *)
Definition demo3_boundary : array :=
  Eval vm_compute in
    match make_run Vsec3 4 [OpInit 0; OpWrite 2 5] with
    | Some a => a
    | None => std_vector (StdVectorWrapper.mk 0 [] Counters0 false 0 0)
    end.

(** Twelve cells in three blocks, [init(0); write(5, 99)]: [b = 1]. *)
Definition demo4_wide : array :=
  Eval vm_compute in
    match make_run Vsec4 12 [OpInit 0; OpWrite 5 99] with
    | Some a => a
    | None => std_vector (StdVectorWrapper.mk 0 [] Counters0 false 0 0)
    end.

(** Four cells, [init(0); write(0, 1)]: every block is written. *)
Definition demo4_full : array :=
  Eval vm_compute in
    match make_run Vsec4 4 [OpInit 0; OpWrite 0 1] with
    | Some a => a
    | None => std_vector (StdVectorWrapper.mk 0 [] Counters0 false 0 0)
    end.

(** The metadata stash of [InPlaceArraySec4]: while [flag] is false, the
    last block holds [initv] at offset 1 and [b] at offset 2. *)
Definition stash_ok (s : InPlaceArraySec4.t) : Prop :=
  InPlaceArraySec4.flag s = false ->
  let mb := (InPlaceArraySec4.N_blocks s - 1)%nat in
  InPlaceArraySec4.A s !! (InPlaceArraySec4.first_of mb + 1)%nat
    = Some (InPlaceArraySec4.initv s) /\
  InPlaceArraySec4.A s !! (InPlaceArraySec4.first_of mb + 2)%nat
    = Some (Z.of_nat (InPlaceArraySec4.b s)).

(** A long run: verification enabled, then [k] calls of [init(0)], then
    [write(0, 5)].  With [k = 2^32 - 2] the epoch ends at [2^32 - 1]. *)
Definition long_run (k : nat) : list op :=
  OpEnableVerification :: replicate k (OpInit 0) ++ [OpWrite 0 5].

(** The invariant of each implementation. *)
Definition wf_array (a : array) : Prop :=
  match a with
  | std_vector s => length (StdVectorWrapper.data s) = StdVectorWrapper.N s
  | sec3 s => InPlaceArraySec3.wf s
  | sec4 s => InPlaceArraySec4.wf s
  end.

(** The logical contents of an array. *)
Definition value (a : array) (i : nat) : Z :=
  match a with
  | std_vector s => StdVectorWrapper.data s !!! i
  | sec3 s => sec3_value s i
  | sec4 s => sec4_value s i
  end.

(** ** The calls a verified array mirrors into its shadow *)

Inductive shadow_op :=
| ShInit (v : Z)
| ShWrite (i : nat) (v : Z).

Definition shadow_step (o : shadow_op) (s : VerifiableBase.t) : option VerifiableBase.t :=
  match o with
  | ShInit v => Some (VerifiableBase.shadow_on_init v s)
  | ShWrite i v => VerifiableBase.shadow_on_write i v s
  end.

Fixpoint shadow_run (ops : list shadow_op) (s : VerifiableBase.t) : option VerifiableBase.t :=
  match ops with
  | [] => Some s
  | o :: ops' =>
    match shadow_step o s with
    | Some s' => shadow_run ops' s'
    | None => None
    end
  end.

(** The array a naive implementation holds after the calls [ops], from
    the contents [m]: [init] fills, [write] stores. *)
Fixpoint reference (ops : list shadow_op) (m : nat -> Z) : nat -> Z :=
  match ops with
  | [] => m
  | ShInit v :: ops' => reference ops' (fun _ => v)
  | ShWrite i v :: ops' => reference ops' (fun j => if (j =? i)%nat then v else m j)
  end.

(** The public [write] only mirrors indices below [N]. *)
Definition mirrored (n : nat) (o : shadow_op) : Prop :=
  match o with
  | ShInit _ => True
  | ShWrite i _ => (i < n)%nat
  end.

(** The shadow holds the array [m]: every stamp is at most the epoch, an
    entry stamped with the epoch holds [m i], and for the others [m i] is
    the fill value. *)
Definition shadow_holds (s : VerifiableBase.t) (m : nat -> Z) : Prop :=
  VerifiableBase.verifying s = true /\
  length (VerifiableBase.shadow s) = VerifiableBase.N s /\
  length (VerifiableBase.stamp s) = VerifiableBase.N s /\
  1 <= VerifiableBase.shadow_epoch s < 2 ^ 32 /\
  forall i, (i < VerifiableBase.N s)%nat ->
    exists e,
      VerifiableBase.stamp s !! i = Some e /\
      0 <= e <= VerifiableBase.shadow_epoch s /\
      (e = VerifiableBase.shadow_epoch s -> VerifiableBase.shadow s !! i = Some (m i)) /\
      (e <> VerifiableBase.shadow_epoch s -> VerifiableBase.shadow_initv s = m i).

(** The shadow state of an array; the plain vector has none. *)
Definition shadow_of (a : array) : option VerifiableBase.t :=
  match a with
  | std_vector _ => None
  | sec3 s => Some (InPlaceArraySec3.base s)
  | sec4 s => Some (InPlaceArraySec4.base s)
  end.

(** The array [a] holds the contents [m], and so does its shadow. *)
Definition in_step (a : array) (m : nat -> Z) : Prop :=
  wf_array a /\
  (forall i, (i < array_N a)%nat -> value a i = m i) /\
  match shadow_of a with
  | Some vb => shadow_holds vb m
  | None => True
  end.

(** The calls that leave the shadow state alone or keep it in step. *)
Definition plain (o : op) : Prop := o <> OpEnableVerification.

(** What a caller sees of one call: the value [read] returned, that the
    call returned, or the exception it threw. *)
Inductive event :=
| Returned (x : Z)
| Finished
| Threw (e : error).

Definition seen {X} (f : X -> event) (o : outcome array X) : option (event * array) :=
  match o with
  | Normal x a => Some (f x, a)
  | Throws e a => Some (Threw e, a)
  | Undefined => None
  end.

Definition observe (o : op) (a : array) : option (event * array) :=
  match o with
  | OpInit v => seen (fun _ => Finished) (init v a)
  | OpRead i => seen Returned (read i a)
  | OpWrite i v => seen (fun _ => Finished) (write i v a)
  | OpResetCounters => Some (Finished, reset_counters a)
  | OpEnableVerification => Some (Finished, enable_verification a)
  end.

(** What a caller sees of the calls [ops], in order. *)
Fixpoint trace (ops : list op) (a : array) : option (list event) :=
  match ops with
  | [] => Some []
  | o :: ops' =>
    match observe o a with
    | Some (e, a') => option_map (cons e) (trace ops' a')
    | None => None
    end
  end.

(** ** The cost of a call, as the counters record it *)

Definition bump (x : Z) : Z := wrap64 (x + 1).

(** From [c] to [c']: at most [r] relocations and [k] conversions counted,
    the other counters as before. *)
Definition charged (r k : nat) (c c' : Counters) : Prop :=
  reads c' = reads c /\ writes c' = writes c /\ inits c' = inits c /\
  (exists j, (j <= r)%nat /\ relocations c' = Nat.iter j bump (relocations c)) /\
  (exists j, (j <= k)%nat /\ conversions c' = Nat.iter j bump (conversions c)).

Definition costs {S X} (ctr : S -> Counters) (r k : nat) (m : M S X) : Prop :=
  forall s x s', m s = Some (x, s') -> charged r k (ctr s) (ctr s').



(** ** The correctness checker of the benchmark driver

    [verify_correctness(impl_name, N, seed)] of main.cpp.  The random
    generator is not modelled: the checker is given what it draws, one
    [draw] per operation (the operation type [rng() % 3], and the draws of
    [value_dist] and [index_dist]).  Its output is reduced to the verdict
    it prints. *)

Inductive draw :=
| DrawInit (init_val : Z)
| DrawRead (idx : nat)
| DrawWrite (idx : nat) (val : Z).

(** [index_dist] draws from [0, N - 1]. *)
Definition drawn_below (n : nat) (d : draw) : Prop :=
  match d with
  | DrawInit _ => True
  | DrawRead idx => (idx < n)%nat
  | DrawWrite idx _ => (idx < n)%nat
  end.

Inductive verdict := PASSED | FAILED | NotRun.

(** A call inside the [try] block: an exception sets [passed] to false. *)
Definition try_call {X} (o : outcome array X) (k : X -> array -> option bool) : option bool :=
  match o with
  | Normal x a => k x a
  | Throws _ _ => Some false
  | Undefined => None
  end.

(** The loop over the operations and the final [verify_correctness] of the
    device under test; the result is [passed].  On a mismatch the checker
    dumps the state, which only prints, and leaves the loop. *)
Fixpoint operations (ds : list draw) (reference dut : array) : option bool :=
  match ds with
  | [] => verify_correctness dut
  | DrawInit init_val :: ds' =>
    try_call (init init_val reference) (fun _ reference' =>
    try_call (init init_val dut) (fun _ dut' =>
    operations ds' reference' dut'))
  | DrawRead idx :: ds' =>
    try_call (read idx reference) (fun ref_val reference' =>
    try_call (read idx dut) (fun dut_val dut' =>
    if negb (ref_val =? dut_val) then Some false
    else operations ds' reference' dut'))
  | DrawWrite idx val :: ds' =>
    try_call (write idx val reference) (fun _ reference' =>
    try_call (write idx val dut) (fun _ dut' =>
    operations ds' reference' dut'))
  end.

(** The device under test: only [sec3] and [sec4] are known here. *)
Definition dut_of (impl_name : string) : option variant :=
  if bool_decide (impl_name = "sec3") then Some Vsec3
  else if bool_decide (impl_name = "sec4") then Some Vsec4
  else None.

Definition verify_driver (impl_name : string) (n : nat) (ds : list draw) : option verdict :=
  match make Vstd_vector n with
  | inl _ => Some NotRun
  | inr r0 =>
    let reference := enable_verification r0 in
    match dut_of impl_name with
    | None => Some NotRun
    | Some v =>
      match make v n with
      | inl _ => Some NotRun
      | inr d0 =>
        match operations ds reference (enable_verification d0) with
        | Some true => Some PASSED
        | Some false => Some FAILED
        | None => None
        end
      end
    end
  end.

Local Open Scope Z_scope.

(** * The block algorithm is correct *)

Section BlockTheory.
Variables (K NB : nat).
Hypothesis K_ge_2 : (2 <= K)%nat.
Local Set Default Proof Using "All".

Local Open Scope nat_scope.

Local Abbreviation idx := (BlockAlg.idx K).
Local Abbreviation enc := (BlockAlg.enc K).
Local Abbreviation cell := (BlockAlg.cell K).
Local Abbreviation upd := (BlockAlg.upd K).
Local Abbreviation cross := BlockAlg.cross.
Local Abbreviation partner := (BlockAlg.partner K NB).
Local Abbreviation through := (BlockAlg.through K).
Local Abbreviation lread := (BlockAlg.lread K NB).
Local Abbreviation makeChain := (BlockAlg.makeChain K).
Local Abbreviation breakChain := (BlockAlg.breakChain K NB).
Local Abbreviation fill := (BlockAlg.fill K).
Local Abbreviation restore := (BlockAlg.restore K).
Local Abbreviation swapBlocks := (BlockAlg.swapBlocks K).
Local Abbreviation write_fresh := (BlockAlg.write_fresh K NB).
Local Abbreviation sized := (BlockAlg.sized K NB).
Local Abbreviation dec := (BlockAlg.dec K NB).
Local Abbreviation crossP := BlockAlg.crossP.

(** ** Index arithmetic *)

Lemma idx_inj c t c' t' :
  t < K -> t' < K -> idx c t = idx c' t' -> c = c' /\ t = t'.
Proof.
  unfold BlockAlg.idx. intros Ht Ht' H.
  assert (Hq : forall a r, r < K -> (K * a + r) / K = a).
  { intros a r Hr. rewrite (Nat.mul_comm K a), Nat.div_add_l by lia.
    rewrite Nat.div_small by done. lia. }
  assert (c = c') as <-. { rewrite <-(Hq c t), <-(Hq c' t'), H by done. done. }
  split; [done | lia].
Qed.

Lemma idx_lt c t : c < NB -> t < K -> idx c t < K * NB.
Proof. unfold BlockAlg.idx. intros Hc Ht. nia. Qed.

Lemma enc_inj c c' : enc c = enc c' -> c = c'.
Proof.
  unfold BlockAlg.enc. intros H. apply Nat2Z.inj in H.
  apply idx_inj in H; [tauto | lia | lia].
Qed.

Lemma enc_nonneg c : (0 <= enc c)%Z.
Proof. unfold BlockAlg.enc. lia. Qed.

Lemma enc_lt c : c < NB -> (enc c < Z.of_nat (K * NB))%Z.
Proof. intros Hc. unfold BlockAlg.enc. pose proof (idx_lt c 0 Hc). lia. Qed.

Lemma enc_mod c : (enc c mod Z.of_nat K = 0)%Z.
Proof.
  unfold BlockAlg.enc, BlockAlg.idx. rewrite Nat.add_0_r, Nat2Z.inj_mul.
  rewrite Z.mul_comm. apply Z_mod_mult.
Qed.

Lemma enc_to_nat c : Z.to_nat (enc c) = idx c 0.
Proof. unfold BlockAlg.enc. lia. Qed.

Lemma enc_div c : Z.to_nat (enc c) / K = c.
Proof.
  rewrite enc_to_nat. unfold BlockAlg.idx. rewrite Nat.add_0_r, Nat.mul_comm.
  apply Nat.div_mul. lia.
Qed.

(** A cell content that passes the alignment and range tests of
    [chainedTo_block] is the code of a block. *)
Lemma decode z :
  (z mod Z.of_nat K = 0)%Z -> (0 <= z)%Z -> (z < Z.of_nat (K * NB))%Z ->
  z = enc (Z.to_nat z / K) /\ Z.to_nat z / K < NB.
Proof.
  intros Hm H0 Hlt.
  assert (HK : (0 < Z.of_nat K)%Z) by lia.
  pose proof (Z.div_mod z (Z.of_nat K) ltac:(lia)) as Hd. rewrite Hm, Z.add_0_r in Hd.
  assert (Hq : Z.to_nat z / K = Z.to_nat (z / Z.of_nat K)).
  { apply Nat2Z.inj. rewrite Nat2Z.inj_div, !Z2Nat.id; [done | | lia].
    apply Z.div_pos; lia. }
  assert (0 <= z / Z.of_nat K)%Z by (apply Z.div_pos; lia).
  split.
  - unfold BlockAlg.enc, BlockAlg.idx. rewrite Hq. lia.
  - rewrite Hq. apply Nat2Z.inj_lt. rewrite Z2Nat.id by lia.
    apply Z.div_lt_upper_bound; lia.
Qed.

(** ** Cells and updates *)

Lemma upd_sized A c t x : sized A -> sized (upd A c t x).
Proof. unfold BlockAlg.sized, BlockAlg.upd. by rewrite length_insert. Qed.

Lemma cell_upd A c t x c' t' :
  sized A -> c < NB -> t < K -> t' < K ->
  cell (upd A c t x) c' t' = if decide (c' = c /\ t' = t) then x else cell A c' t'.
Proof.
  intros HA Hc Ht Ht'. unfold BlockAlg.cell, BlockAlg.upd.
  case_decide as E.
  - destruct E as [-> ->]. apply list_lookup_total_insert_eq.
    rewrite HA. by apply idx_lt.
  - apply list_lookup_total_insert_ne. intros Hi.
    destruct (idx_inj _ _ _ _ Ht Ht' Hi). naive_solver.
Qed.

Lemma lookup_cell A c t : sized A -> c < NB -> t < K -> A !! idx c t = Some (cell A c t).
Proof.
  intros HA Hc Ht. unfold BlockAlg.cell. apply list_lookup_lookup_total_lt.
  rewrite HA. by apply idx_lt.
Qed.

Lemma fill_loop A c x n :
  sized A -> c < NB -> n <= K ->
  let A' := foldl (fun A' t => upd A' c t x) A (seq 0 n) in
  sized A' /\
  forall c' t', t' < K ->
    cell A' c' t' = if decide (c' = c /\ t' < n) then x else cell A c' t'.
Proof.
  intros HA Hc. induction n as [|n IH]; intros Hn.
  - split; [done|]. intros c' t' Ht'. simpl. case_decide; [lia | done].
  - cbv zeta. rewrite seq_S, foldl_app. simpl. destruct IH as [IH1 IH2]; [lia|].
    split; [by apply upd_sized|]. intros c' t' Ht'.
    rewrite cell_upd, IH2 by (done || lia).
    repeat case_decide; try done; lia.
Qed.

Lemma fill_sized A c x : sized A -> c < NB -> sized (fill A c x).
Proof. intros HA Hc. by apply (fill_loop A c x K). Qed.

Lemma cell_fill A c x c' t' :
  sized A -> c < NB -> t' < K ->
  cell (fill A c x) c' t' = if decide (c' = c) then x else cell A c' t'.
Proof.
  intros HA Hc Ht'. destruct (fill_loop A c x K HA Hc) as [_ H]; [done|].
  unfold BlockAlg.fill. rewrite H by done. repeat case_decide; try done; naive_solver.
Qed.

Lemma restore_loop A s bk n :
  sized A -> s < NB -> bk < NB -> s <> bk -> n <= K - 1 ->
  let A' := foldl (fun A' t => upd A' s t (cell A' bk (t + 1))) A (seq 0 n) in
  sized A' /\
  forall c' t', t' < K ->
    cell A' c' t' = if decide (c' = s /\ t' < n) then cell A bk (t' + 1) else cell A c' t'.
Proof.
  intros HA Hs Hbk Hne. induction n as [|n IH]; intros Hn.
  - split; [done|]. intros c' t' Ht'. simpl. case_decide; [lia | done].
  - cbv zeta. rewrite seq_S, foldl_app. simpl. destruct IH as [IH1 IH2]; [lia|].
    split; [by apply upd_sized|]. intros c' t' Ht'.
    rewrite cell_upd, !IH2 by (done || lia).
    repeat case_decide; try done; try lia; naive_solver.
Qed.

Lemma restore_sized A s bk :
  sized A -> s < NB -> bk < NB -> s <> bk -> sized (restore A s bk).
Proof. intros HA Hs Hbk Hne. by apply (restore_loop A s bk (K - 1)). Qed.

Lemma cell_restore A s bk c' t' :
  sized A -> s < NB -> bk < NB -> s <> bk -> t' < K ->
  cell (restore A s bk) c' t' =
    if decide (c' = s /\ t' < K - 1) then cell A bk (t' + 1) else cell A c' t'.
Proof.
  intros HA Hs Hbk Hne Ht'.
  destruct (restore_loop A s bk (K - 1) HA Hs Hbk Hne) as [_ H]; [done|].
  unfold BlockAlg.restore. by rewrite H.
Qed.

Lemma swap_loop A c d n :
  sized A -> c < NB -> d < NB -> c <> d -> n <= K ->
  let A' := foldl (fun A' t => upd (upd A' c t (cell A' d t)) d t (cell A' c t)) A (seq 0 n) in
  sized A' /\
  forall c' t', t' < K ->
    cell A' c' t' =
      if decide (t' < n) then
        if decide (c' = c) then cell A d t'
        else if decide (c' = d) then cell A c t' else cell A c' t'
      else cell A c' t'.
Proof.
  intros HA Hc Hd Hne. induction n as [|n IH]; intros Hn.
  - split; [done|]. intros c' t' Ht'. simpl. destruct (decide (t' < 0)); [lia | done].
  - cbv zeta. rewrite seq_S, foldl_app. simpl. destruct IH as [IH1 IH2]; [lia|].
    split; [do 2 apply upd_sized; done|]. intros c' t' Ht'.
    rewrite !cell_upd, !IH2 by (done || lia || (apply upd_sized; done)).
    repeat case_decide; try done; try lia; naive_solver.
Qed.

Lemma swapBlocks_sized A c d :
  sized A -> c < NB -> d < NB -> c <> d -> sized (swapBlocks A c d).
Proof. intros HA Hc Hd Hne. by apply (swap_loop A c d K). Qed.

Lemma cell_swapBlocks A c d c' t' :
  sized A -> c < NB -> d < NB -> c <> d -> t' < K ->
  cell (swapBlocks A c d) c' t' =
    if decide (c' = c) then cell A d t'
    else if decide (c' = d) then cell A c t' else cell A c' t'.
Proof.
  intros HA Hc Hd Hne Ht'.
  destruct (swap_loop A c d K HA Hc Hd Hne) as [_ H]; [done|].
  unfold BlockAlg.swapBlocks. rewrite H by done. by case_decide.
Qed.

Lemma makeChain_sized A c d : sized A -> sized (makeChain A c d).
Proof. intros HA. unfold BlockAlg.makeChain. do 2 apply upd_sized. done. Qed.

Lemma cell_makeChain A c d c' t' :
  sized A -> c < NB -> d < NB -> t' < K ->
  cell (makeChain A c d) c' t' =
    if decide (c' = d /\ t' = 0) then enc c
    else if decide (c' = c /\ t' = 0) then enc d else cell A c' t'.
Proof.
  intros HA Hc Hd Ht'. unfold BlockAlg.makeChain.
  rewrite !cell_upd by (done || lia || (apply upd_sized; done)). done.
Qed.

(** ** Decoding cell contents *)

Lemma dec_enc c : c < NB -> dec (enc c) = Some c.
Proof.
  intros Hc. unfold BlockAlg.dec. rewrite enc_mod, Z.eqb_refl. simpl.
  pose proof (enc_nonneg c). pose proof (enc_lt c Hc).
  destruct (Z.leb_spec 0 (enc c)); [|lia].
  destruct (Z.ltb_spec (enc c) (Z.of_nat (K * NB))); [|lia].
  simpl. by rewrite enc_div.
Qed.

Lemma dec_Some z k : dec z = Some k -> z = enc k /\ k < NB.
Proof.
  unfold BlockAlg.dec. intros H.
  destruct (Z.eqb_spec (z mod Z.of_nat K) 0); [|done].
  destruct (Z.leb_spec 0 z); [|done].
  destruct (Z.ltb_spec z (Z.of_nat (K * NB))); [|done].
  simpl in H. injection H as <-. by apply decode.
Qed.

Lemma dec_eq_enc z c : c < NB -> z = enc c <-> dec z = Some c.
Proof.
  intros Hc. split.
  - intros ->. by apply dec_enc.
  - intros H. by apply dec_Some in H as [? _].
Qed.

Lemma cross_spec b c k : cross b c k = true <-> crossP b c k.
Proof.
  unfold BlockAlg.cross, BlockAlg.crossP.
  rewrite orb_true_iff, !andb_true_iff, !Nat.ltb_lt, !Nat.leb_le. lia.
Qed.

(** ** Chains *)

Lemma partner_unfold A b c :
  c < NB ->
  partner A b c =
    match dec (cell A c 0) with
    | Some k =>
      if decide (crossP b c k /\ dec (cell A k 0) = Some c) then Some k else None
    | None => None
    end.
Proof.
  intros Hc. unfold BlockAlg.partner. unfold BlockAlg.dec at 1.
  destruct (_ && _ && _); [|done]. cbv zeta.
  generalize (Z.to_nat (cell A c 0) / K). intros k.
  case_decide as D.
  - destruct D as [D1 D2]. apply cross_spec in D1. apply dec_eq_enc in D2; [|done].
    rewrite D1, D2, Z.eqb_refl. done.
  - destruct (cross b c k) eqn:E1; [|done].
    destruct (Z.eqb_spec (cell A k 0) (enc c)) as [E2|]; [|done].
    exfalso. apply D. split; [by apply cross_spec | by apply dec_eq_enc].
Qed.

Lemma partner_Some A b c k :
  c < NB ->
  partner A b c = Some k <->
  dec (cell A c 0) = Some k /\ dec (cell A k 0) = Some c /\ crossP b c k.
Proof.
  intros Hc. rewrite partner_unfold by done.
  destruct (dec (cell A c 0)) as [k'|]; [|naive_solver].
  case_decide; naive_solver.
Qed.

Lemma partner_lt A b c k : c < NB -> partner A b c = Some k -> k < NB.
Proof.
  intros Hc H. apply partner_Some in H as (H & _ & _); [|done].
  by apply dec_Some in H as [_ ?].
Qed.

Lemma partner_sym A b c k :
  c < NB -> partner A b c = Some k -> partner A b k = Some c.
Proof.
  intros Hc H. pose proof (partner_lt _ _ _ _ Hc H).
  apply partner_Some in H; [|done]. apply partner_Some; [done|].
  unfold BlockAlg.crossP in *. naive_solver.
Qed.

Lemma partner_cross A b c k : c < NB -> partner A b c = Some k -> crossP b c k.
Proof. intros Hc H. apply partner_Some in H; naive_solver. Qed.

Lemma partner_above A b c : c < NB -> NB <= b -> partner A b c = None.
Proof.
  intros Hc Hb. destruct (partner A b c) as [k|] eqn:E; [|done].
  pose proof (partner_lt _ _ _ _ Hc E). apply partner_cross in E; [|done].
  unfold BlockAlg.crossP in E. lia.
Qed.

Lemma partner_zero A c : c < NB -> partner A 0 c = None.
Proof.
  intros Hc. destruct (partner A 0 c) as [k|] eqn:E; [|done].
  apply partner_cross in E; [|done]. unfold BlockAlg.crossP in E. lia.
Qed.

Lemma breakChain_sized A b c : sized A -> sized (breakChain A b c).
Proof.
  intros HA. unfold BlockAlg.breakChain. destruct (partner A b c); [|done].
  by apply upd_sized.
Qed.

Create HintDb blk.
Hint Resolve upd_sized fill_sized restore_sized swapBlocks_sized makeChain_sized
  breakChain_sized : blk.

Ltac side := first [ done | lia | solve [ eauto 10 with blk ] ].

Ltac cells :=
  repeat first
    [ rewrite cell_upd by side
    | rewrite cell_fill by side
    | rewrite cell_makeChain by side
    | rewrite cell_swapBlocks by side
    | rewrite cell_restore by side
    | rewrite dec_enc by side ].

Ltac cells_in H :=
  repeat first
    [ rewrite cell_upd in H by side
    | rewrite cell_fill in H by side
    | rewrite cell_makeChain in H by side
    | rewrite cell_swapBlocks in H by side
    | rewrite cell_restore in H by side
    | rewrite dec_enc in H by side ].

(** Bounds of the blocks that decoded contents designate. *)
Ltac dec_bounds :=
  repeat match goal with
  | H : dec ?z = Some ?k |- _ =>
    lazymatch goal with
    | _ : k < NB |- _ => fail
    | _ => assert (k < NB) by (apply (dec_Some z k H))
    end
  end.

Ltac cells_hyps :=
  match goal with
  | H : context [cell (upd _ _ _ _) _ _] |- _ => progress cells_in H
  | H : context [cell (fill _ _ _) _ _] |- _ => progress cells_in H
  | H : context [cell (makeChain _ _ _) _ _] |- _ => progress cells_in H
  | H : context [cell (swapBlocks _ _ _) _ _] |- _ => progress cells_in H
  | H : context [cell (restore _ _ _) _ _] |- _ => progress cells_in H
  | H : context [dec (enc _)] |- _ => progress cells_in H
  end.

Ltac prune :=
  try (exfalso; unfold BlockAlg.crossP in *; first [ lia | congruence ]).

Ltac simp_hyps :=
  repeat match goal with
  | H : _ /\ _ |- _ => destruct H
  | H : Some _ = Some _ |- _ => injection H as H
  | H : Some _ = None |- _ => discriminate H
  | H : None = Some _ |- _ => discriminate H
  | H : ?x = ?x |- _ => clear H
  | H : ?x = ?y |- _ => is_var x; subst x
  | H : ?x = ?y |- _ => is_var y; subst y
  end.

Ltac split_all :=
  repeat first
    [ progress cells
    | cells_hyps
    | progress simp_hyps
    | progress dec_bounds
    | case_decide; prune
    | case_match; prune ].

Ltac close :=
  unfold BlockAlg.crossP in *;
  first [ done | lia | congruence
        | exfalso; naive_solver (first [lia | congruence]) ].

Lemma breakChain_spec Y b c :
  sized Y -> c < NB -> c < b ->
  let F := breakChain Y b c in
  partner F b c = None /\
  (forall d, d < NB -> d <> c ->
     partner F b d = if decide (partner Y b d = Some c) then None else partner Y b d) /\
  (forall d t, t < K -> t <> 0 \/ d < b -> cell F d t = cell Y d t).
Proof.
  intros HY Hc Hcb F. subst F. unfold BlockAlg.breakChain.
  destruct (partner Y b c) as [k|] eqn:E.
  - pose proof (partner_lt _ _ _ _ Hc E) as Hk.
    apply partner_Some in E as (E1 & E2 & E3); [|done].
    split; [|split].
    + rewrite partner_unfold by done. split_all; close.
    + intros d Hd Hne. case_decide as D.
      * apply partner_Some in D as (D1 & D2 & D3); [|done].
        rewrite partner_unfold by done. split_all; close.
      * rewrite !partner_unfold by done. rewrite partner_unfold in D by done.
        split_all; close.
    + intros d t Ht Hor. split_all; close.
  - split; [done|split; [|done]].
    intros d Hd Hne. case_decide as D; [|done].
    apply partner_sym in D; [|done]. congruence.
Qed.

(** ** Logical reads *)

Lemma lread_unfold A b iv c o :
  lread A b iv c o =
    match partner A b c with
    | Some k =>
      if decide (c < b) then iv
      else if decide (o < K - 1) then cell A k (o + 1) else cell A c o
    | None => if decide (c < b) then cell A c o else iv
    end.
Proof.
  unfold BlockAlg.lread, BlockAlg.through.
  destruct (partner A b c); destruct (Nat.ltb_spec c b); repeat case_decide;
    try lia; try done.
  - destruct (Nat.ltb_spec o (K - 1)); [done | lia].
  - destruct (Nat.ltb_spec o (K - 1)); [lia | done].
Qed.

(** Once every block is below [b] the vector is an ordinary buffer. *)
Lemma lread_above A b iv d t : d < NB -> NB <= b -> lread A b iv d t = cell A d t.
Proof.
  intros Hd Hb. rewrite lread_unfold, partner_above by done.
  destruct (decide (d < b)); [done | lia].
Qed.

(** After [init], that is with [b = 0], every cell reads [iv]. *)
Lemma lread_init A iv d t : d < NB -> lread A 0 iv d t = iv.
Proof.
  intros Hd. rewrite lread_unfold, partner_zero by done.
  destruct (decide (d < 0)); [lia | done].
Qed.

Ltac unfold_all :=
  rewrite ?lread_unfold;
  repeat match goal with
  | |- context [partner ?A ?b ?c] => rewrite (partner_unfold A b c) by side
  | H : context [partner ?A ?b ?c] |- _ => rewrite (partner_unfold A b c) in H by side
  end.

Ltac crush := unfold_all; split_all; close.

Lemma lread_breakChain Y b iv c d t :
  sized Y -> c < NB -> c < b -> d < NB -> t < K ->
  lread (breakChain Y b c) b iv d t =
    if decide (d = c) then cell Y c t
    else if decide (partner Y b d = Some c) then iv
    else lread Y b iv d t.
Proof.
  intros HY Hc Hcb Hd Ht.
  destruct (breakChain_spec Y b c HY Hc Hcb) as (S1 & S2 & S3).
  rewrite !lread_unfold. destruct (decide (d = c)) as [->|D1].
  - rewrite S1. destruct (decide (c < b)); [|lia]. apply S3; [done | by right].
  - rewrite S2 by done. destruct (decide (partner Y b d = Some c)) as [D2|D2].
    + apply partner_cross in D2; [|done]. unfold BlockAlg.crossP in D2.
      destruct (decide (d < b)); [lia | done].
    + destruct (partner Y b d) as [e|]; repeat case_decide; try done;
        apply S3; (done || lia).
Qed.

(** A write into a block below [b] that is not chained. *)
Lemma write_fresh_frame X b iv c o v :
  sized X -> c < NB -> c < b -> o < K -> partner X b c = None ->
  forall d t, d < NB -> t < K ->
    lread (write_fresh X b c o v) b iv d t =
      if decide (d = c /\ t = o) then v else lread X b iv d t.
Proof.
  intros HX Hc Hcb Ho HN d t Hd Ht. unfold BlockAlg.write_fresh.
  rewrite lread_breakChain by side.
  destruct (decide (d = c)) as [->|D1]; [crush|].
  destruct (decide (partner _ b d = Some c)) as [D2|D2]; crush.
Qed.

(** Cells that no logical read looks at: offsets strictly between [0] and
    [K - 1] of the blocks at or above [b]. *)
Lemma partner_congr A A' b d :
  d < NB -> (forall e, cell A' e 0 = cell A e 0) -> partner A' b d = partner A b d.
Proof.
  intros Hd H. rewrite !partner_unfold, !H by done.
  destruct (dec (cell A d 0)); [|done]. by rewrite H.
Qed.

Lemma lread_congr A A' b iv :
  (forall d t, t < K -> d < b \/ t = 0 \/ t = K - 1 -> cell A' d t = cell A d t) ->
  forall d t, d < NB -> t < K -> lread A' b iv d t = lread A b iv d t.
Proof.
  intros H d t Hd Ht. rewrite !lread_unfold.
  rewrite (partner_congr A A') by (done || (intros e; apply H; lia)).
  destruct (partner A b d) as [k|] eqn:E.
  - apply partner_cross in E; [|done]. unfold BlockAlg.crossP in E.
    repeat case_decide; try done; apply H; lia.
  - repeat case_decide; try done; apply H; lia.
Qed.

(** [partner] in the shape of [chainedTo_block]: one early return per test. *)
Lemma partner_code A b c :
  BlockAlg.code (partner A b c) =
    let k0 := cell A c 0 in
    if negb (k0 mod Z.of_nat K =? 0)%Z then (-1)%Z else
    if (k0 <? 0)%Z || (K * NB <=? Z.to_nat k0) then (-1)%Z else
    let k := Z.to_nat k0 / K in
    if negb (cross b c k) then (-1)%Z else
    if negb (cell A k 0 =? enc c)%Z then (-1)%Z else Z.of_nat k.
Proof.
  unfold BlockAlg.partner. cbv zeta.
  destruct (Z.eqb_spec (cell A c 0 mod Z.of_nat K) 0); [|done].
  destruct (Z.leb_spec 0 (cell A c 0)), (Z.ltb_spec (cell A c 0) 0); try lia; [|done].
  destruct (Z.ltb_spec (cell A c 0) (Z.of_nat (K * NB))),
    (Nat.leb_spec (K * NB) (Z.to_nat (cell A c 0))); try lia; [|done].
  cbn [negb andb orb].
  destruct (cross b c _); [|done].
  destruct (Z.eqb_spec (cell A (Z.to_nat (cell A c 0) / K) 0) (enc c)); done.
Qed.

(** In that shape the second vector access is in range. *)
Lemma partner_code_index A c :
  (cell A c 0 mod Z.of_nat K = 0)%Z -> (0 <= cell A c 0)%Z ->
  Z.to_nat (cell A c 0) < K * NB ->
  Z.to_nat (cell A c 0) = idx (Z.to_nat (cell A c 0) / K) 0 /\
  Z.to_nat (cell A c 0) / K < NB.
Proof.
  intros Hm H0 Hlt. destruct (decode (cell A c 0)) as [H1 H2]; [done | done | lia |].
  split; [|done]. rewrite H1 at 1. by rewrite enc_to_nat.
Qed.

(** [stashing] says whether [initv] and [b] are stashed in the last block. *)
Variable stashing : bool.
Local Abbreviation stash := (BlockAlg.stash K NB stashing).
Local Abbreviation extend := (BlockAlg.extend K NB stashing).
Local Abbreviation write := (BlockAlg.write K NB stashing).

Lemma stash_sized A b iv : sized A -> sized (stash A b iv).
Proof.
  intros HA. unfold BlockAlg.stash. destruct (_ && _); [|done].
  do 2 apply upd_sized. done.
Qed.

Hint Resolve stash_sized : blk.

(** Stashing needs the two spare cells that only blocks of four or more
    cells have. *)
Hypothesis stash_room : stashing = true -> 4 <= K.

Lemma cell_stash A b iv d t :
  sized A -> b <= NB -> t < K -> d < b \/ t = 0 \/ t = K - 1 ->
  cell (stash A b iv) d t = cell A d t.
Proof.
  intros HA Hb Ht Hor. unfold BlockAlg.stash.
  destruct (bool_decide_reflect (stashing = true)) as [Es|Es].
  - pose proof (stash_room Es). rewrite Es. simpl.
    destruct (Nat.ltb_spec b NB); [|done]. split_all; close.
  - apply not_true_is_false in Es. by rewrite Es.
Qed.

(** ** [extend] *)

Lemma extend_unchained X b iv :
  sized X -> b < NB -> partner X b b = None ->
  let A1 := breakChain (fill X b iv) (S b) b in
  partner A1 (S b) b = None /\
  (forall t, t < K -> cell A1 b t = iv) /\
  (forall d, d < NB -> d <> b -> partner A1 (S b) d = partner X b d) /\
  (forall d t, d < NB -> t < K -> lread A1 (S b) iv d t = lread X b iv d t).
Proof.
  intros HX Hb HN A1. subst A1.
  destruct (breakChain_spec (fill X b iv) (S b) b) as (S1 & S2 & S3); [side..|].
  split; [done|]. split; [|split].
  - intros t Ht. rewrite S3 by (done || lia). split_all; close.
  - intros d Hd Hne. rewrite S2 by done. clear S1 S2 S3.
    destruct (decide (partner _ (S b) d = Some b)) as [D|D]; crush.
  - intros d t Hd Ht. rewrite lread_breakChain by side. clear S1 S2 S3.
    destruct (decide (d = b)) as [->|D1]; [crush|].
    destruct (decide (partner _ (S b) d = Some b)) as [D2|D2]; crush.
Qed.

Lemma extend_chained X b iv bk :
  sized X -> b < NB -> partner X b b = Some bk ->
  let A1 := breakChain (fill (breakChain (restore X b bk) (S b) b) bk iv) (S b) bk in
  bk < b /\
  partner A1 (S b) bk = None /\
  (forall t, t < K -> cell A1 bk t = iv) /\
  partner A1 (S b) b = None /\
  (forall d, d < NB -> d <> b -> d <> bk -> partner A1 (S b) d = partner X b d) /\
  (forall d t, d < NB -> t < K -> lread A1 (S b) iv d t = lread X b iv d t).
Proof.
  intros HX Hb E A1. subst A1.
  pose proof (partner_lt _ _ _ _ Hb E) as Hbk.
  apply partner_Some in E as (E1 & E2 & E3); [|done].
  assert (Hlt : bk < b) by (unfold BlockAlg.crossP in E3; lia). clear E3.
  assert (Hne : b <> bk) by lia.
  assert (HY : sized (restore X b bk)) by (by apply restore_sized).
  split; [done|].
  set (Y2 := breakChain (restore X b bk) (S b) b).
  assert (HY2 : sized Y2) by (subst Y2; side).
  destruct (breakChain_spec (fill Y2 bk iv) (S b) bk) as (S1 & S2 & S3); [side..|].
  split; [done|]. split; [|split; [|split]].
  - intros t Ht. rewrite S3 by (done || lia). clear S1 S2 S3. split_all; close.
  - rewrite S2 by (done || lia). clear S1 S2 S3. subst Y2. unfold BlockAlg.breakChain.
    destruct (partner (restore X b bk) (S b) b) as [k'|] eqn:E.
    + pose proof (partner_lt _ _ _ _ Hb E).
      apply partner_Some in E as (F1 & F2 & F3); [|done].
      destruct (decide (partner _ (S b) b = Some bk)) as [D|D]; crush.
    + destruct (decide (partner _ (S b) b = Some bk)) as [D|D]; crush.
  - intros d Hd Hne1 Hne2. rewrite S2 by (done || lia). clear S1 S2 S3.
    subst Y2. unfold BlockAlg.breakChain.
    destruct (partner (restore X b bk) (S b) b) as [k'|] eqn:E.
    + pose proof (partner_lt _ _ _ _ Hb E).
      apply partner_Some in E as (F1 & F2 & F3); [|done].
      destruct (decide (partner _ (S b) d = Some bk)) as [D|D]; crush.
    + destruct (decide (partner _ (S b) d = Some bk)) as [D|D]; crush.
  - intros d t Hd Ht. rewrite lread_breakChain by side. clear S1 S2 S3.
    subst Y2. unfold BlockAlg.breakChain.
    destruct (partner (restore X b bk) (S b) b) as [k'|] eqn:E.
    + pose proof (partner_lt _ _ _ _ Hb E).
      apply partner_Some in E as (F1 & F2 & F3); [|done].
      destruct (decide (d = bk)) as [->|D1]; [crush|].
      destruct (decide (partner _ (S b) d = Some bk)) as [D2|D2]; crush.
    + destruct (decide (d = bk)) as [->|D1]; [crush|].
      destruct (decide (partner _ (S b) d = Some bk)) as [D2|D2]; crush.
Qed.

Lemma extend_spec X b iv :
  sized X -> b < NB ->
  let f := (extend X b iv).1 in
  let A1 := (extend X b iv).2 in
  sized A1 /\
  (f = b /\ partner X b b = None \/ f < b /\ partner X b b = Some f) /\
  partner A1 (S b) f = None /\
  (forall t, t < K -> cell A1 f t = iv) /\
  partner A1 (S b) b = None /\
  (forall d, d < NB -> d <> b -> d <> f -> partner A1 (S b) d = partner X b d) /\
  (forall d t, d < NB -> t < K -> lread A1 (S b) iv d t = lread X b iv d t).
Proof.
  intros HX Hb. unfold BlockAlg.extend.
  destruct (partner X b b) as [bk|] eqn:E; cbv zeta; simpl.
  - pose proof (partner_lt _ _ _ _ Hb E) as Hbk.
    destruct (extend_chained X b iv bk HX Hb E) as (Hlt & E1 & E2 & E3 & E4 & E5).
    assert (Hne : b <> bk) by lia.
    set (A1 := breakChain _ (S b) bk) in *.
    assert (HA1 : sized A1).
    { subst A1. apply breakChain_sized, fill_sized; [|done].
      by apply breakChain_sized, restore_sized. }
    assert (HP : forall d, d < NB -> partner (stash A1 (S b) iv) (S b) d = partner A1 (S b) d).
    { intros d Hd. apply partner_congr; [done|]. intros e.
      apply cell_stash; (done || lia). }
    split; [side|]. split; [by right|].
    rewrite !HP by done. split; [done|]. split; [|split; [done|split]].
    + intros t Ht. rewrite cell_stash by (done || lia). by apply E2.
    + intros d Hd H1 H2. rewrite HP by done. by apply E4.
    + intros d t Hd Ht. rewrite <-E5 by done. apply lread_congr; [|done..].
      intros d' t' Ht' Hor. apply cell_stash; (done || lia).
  - destruct (extend_unchained X b iv HX Hb E) as (E1 & E2 & E4 & E5).
    set (A1 := breakChain _ (S b) b) in *.
    assert (HA1 : sized A1) by (subst A1; side).
    assert (HP : forall d, d < NB -> partner (stash A1 (S b) iv) (S b) d = partner A1 (S b) d).
    { intros d Hd. apply partner_congr; [done|]. intros e.
      apply cell_stash; (done || lia). }
    split; [side|]. split; [by left|].
    rewrite !HP by done. split; [done|]. split; [|split; [done|split]].
    + intros t Ht. rewrite cell_stash by (done || lia). by apply E2.
    + intros d Hd H1 H2. rewrite HP by done. by apply E4.
    + intros d t Hd Ht. rewrite <-E5 by done. apply lread_congr; [|done..].
      intros d' t' Ht' Hor. apply cell_stash; (done || lia).
Qed.

(** ** The branches of [write] *)

(** Blocks that an update leaves alone keep their logical contents,
    provided the blocks that point back at them still do, with the same
    cells behind them. *)
Lemma lread_frame X F b iv d :
  d < NB ->
  (forall t, t < K -> cell F d t = cell X d t) ->
  (forall e, dec (cell X d 0) = Some e -> crossP b d e ->
     (dec (cell F e 0) = Some d <-> dec (cell X e 0) = Some d) /\
     (b <= d -> dec (cell X e 0) = Some d ->
        forall t, 0 < t -> t < K -> cell F e t = cell X e t)) ->
  forall t, t < K -> lread F b iv d t = lread X b iv d t.
Proof.
  intros Hd H1 H2 t Ht. rewrite !lread_unfold, !partner_unfold by done.
  rewrite !H1 by (done || lia).
  destruct (dec (cell X d 0)) as [e|] eqn:E; [|done].
  destruct (decide (crossP b d e)) as [Hx|Hx].
  - destruct (H2 e eq_refl Hx) as [H3 H4].
    destruct (decide (dec (cell X e 0) = Some d)) as [D|D].
    + repeat case_decide; try tauto; try done. apply H4; (done || lia).
    + repeat case_decide; try tauto; done.
  - repeat case_decide; try tauto; done.
Qed.

Ltac case_goal :=
  match goal with |- context [decide ?P] => destruct (decide P) end.

Ltac ccases :=
  repeat first [ progress cells | progress simp_hyps | case_goal; prune ];
  try done.

Tactic Notation "ccases" "with" constr(HC) :=
  repeat first
    [ rewrite HC by lia | progress cells | progress simp_hyps | case_goal; prune ];
  try done.

Ltac pfacts :=
  apply partner_Some; [side|]; cells; unfold BlockAlg.crossP;
  repeat case_decide; prune;
  repeat split; first [ done | lia | congruence ].

(** From [partner A b c = None]: the three facts of a chain cannot all hold. *)
Lemma partner_None_not A b c k :
  c < NB -> partner A b c = None ->
  dec (cell A c 0) = Some k -> dec (cell A k 0) = Some c -> crossP b c k -> False.
Proof.
  intros Hc HN H1 H2 H3.
  assert (partner A b c = Some k) by (by apply partner_Some). congruence.
Qed.

Lemma partner_None_not' A b c k :
  c < NB -> partner A b c = None ->
  dec (cell A c 0) = Some k -> dec (cell A k 0) = Some c -> crossP b k c -> False.
Proof.
  intros Hc HN H1 H2 H3. apply (partner_None_not A b c k); try done.
  unfold BlockAlg.crossP in *. lia.
Qed.

(** The obligation of [lread_frame] for a block whose pointer cell is
    known not to lead back. *)
Tactic Notation "backptr" "with" constr(HC) :=
  ccases with HC;
  (split; [split|]; intros); ccases with HC;
  first [ done | congruence | lia
        | exfalso; solve [ eauto using partner_None_not, partner_None_not' ] ].

(** A chained block at or above [b]: the write goes through the chain. *)
Lemma write_through_frame X b iv c k o v :
  sized X -> c < NB -> b <= c -> o < K -> partner X b c = Some k ->
  let F := upd X (through k c o).1 (through k c o).2 v in
  sized F /\
  forall d t, d < NB -> t < K ->
    lread F b iv d t = if decide (d = c /\ t = o) then v else lread X b iv d t.
Proof.
  intros HX Hc Hbc Ho E F. subst F.
  pose proof (partner_lt _ _ _ _ Hc E) as Hk.
  pose proof (partner_sym _ _ _ _ Hc E) as E'.
  assert (Hkb : k < b) by (apply partner_cross in E; [unfold BlockAlg.crossP in E; lia | done]).
  split; [unfold BlockAlg.through; destruct (_ <? _); side|].
  intros d t Hd Ht.
  assert (HF : forall e, cell (upd X (through k c o).1 (through k c o).2 v) e 0 = cell X e 0).
  { intros e. unfold BlockAlg.through. destruct (Nat.ltb_spec o (K - 1)); simpl;
      ccases. }
  destruct (decide (d = c)) as [->|D1].
  - rewrite !lread_unfold, (partner_congr X (upd X _ _ v)) by done. rewrite E.
    destruct (decide (c < b)); [lia|].
    unfold BlockAlg.through. destruct (Nat.ltb_spec o (K - 1)); simpl;
      ccases.
  - destruct (decide (d = c /\ t = o)) as [[? ?]|_]; [done|].
    rewrite !lread_unfold, (partner_congr X (upd X _ _ v)) by done.
    destruct (partner X b d) as [e|] eqn:E2.
    + pose proof (partner_lt _ _ _ _ Hd E2).
      assert (e <> k) by (intros ->; apply partner_sym in E2; [congruence | done]).
      apply partner_cross in E2; [|done]. unfold BlockAlg.crossP in E2.
      unfold BlockAlg.through. destruct (Nat.ltb_spec o (K - 1)); simpl;
        ccases.
    + assert (d <> k) by (intros ->; congruence).
      unfold BlockAlg.through. destruct (Nat.ltb_spec o (K - 1)); simpl;
        ccases.
Qed.

(** An unchained block above the new boundary gets the fresh block [f]
    as its partner. *)
Lemma write_chain_frame A1 b1 iv c f o v :
  sized A1 -> c < NB -> b1 <= c -> o < K -> f < b1 ->
  partner A1 b1 c = None -> partner A1 b1 f = None ->
  (forall t, t < K -> cell A1 f t = iv) ->
  let A2 := makeChain (fill A1 c iv) f c in
  let F := upd A2 (through f c o).1 (through f c o).2 v in
  sized F /\
  forall d t, d < NB -> t < K ->
    lread F b1 iv d t = if decide (d = c /\ t = o) then v else lread A1 b1 iv d t.
Proof.
  intros HA Hc Hbc Ho Hf Ec Ef Hiv A2 F.
  assert (Hf' : f < NB) by lia.
  assert (HF : sized F).
  { subst F A2. unfold BlockAlg.through. destruct (_ <? _); side. }
  split; [done|]. intros d t Hd Ht.
  assert (HC : forall e u, u < K ->
    cell F e u =
      if decide (e = c) then
        if decide (u = 0) then enc f
        else if decide (u = K - 1 /\ o = K - 1) then v else iv
      else if decide (e = f) then
        if decide (u = 0) then enc c
        else if decide (u = o + 1 /\ o < K - 1) then v else iv
      else cell A1 e u).
  { intros e u Hu. subst F A2. pose proof (Hiv u Hu).
    unfold BlockAlg.through. destruct (Nat.ltb_spec o (K - 1)); simpl; ccases. }
  clearbody F. clear A2.
  destruct (decide (d = c)) as [->|D1].
  { assert (EF : partner F b1 c = Some f).
    { apply partner_Some; [done|]. ccases with HC.
      unfold BlockAlg.crossP. repeat split; (done || lia). }
    rewrite !lread_unfold, EF, Ec. ccases with HC. }
  destruct (decide (d = f)) as [->|D2].
  { assert (EF : partner F b1 f = Some c).
    { apply partner_Some; [done|]. ccases with HC.
      unfold BlockAlg.crossP. repeat split; (done || lia). }
    rewrite !lread_unfold, EF, Ef. rewrite Hiv by done. ccases. }
  destruct (decide (d = c /\ t = o)) as [[? ?]|_]; [done|].
  apply lread_frame; [done| |  |done].
  - intros u Hu. ccases with HC.
  - intros e He Hx.
    destruct (decide (e = c)) as [->|]; [|destruct (decide (e = f)) as [->|]];
      backptr with HC.
Qed.

(** A chained block below the boundary: its partner is handed over to the
    fresh block [f], and the block becomes an ordinary written block. *)
Lemma write_swap_frame A1 b1 iv c f k o v :
  sized A1 -> c < NB -> c < b1 -> o < K -> f < NB -> f < b1 -> f <> c ->
  partner A1 b1 c = Some k -> partner A1 b1 f = None ->
  (forall t, t < K -> cell A1 f t = iv) ->
  let A2 := makeChain (swapBlocks A1 f c) f k in
  let F := write_fresh (fill A2 c iv) b1 c o v in
  sized F /\
  forall d t, d < NB -> t < K ->
    lread F b1 iv d t = if decide (d = c /\ t = o) then v else lread A1 b1 iv d t.
Proof.
  intros HA Hc Hcb Ho Hf' Hf Hfc Ec Ef Hiv A2 F.
  pose proof (partner_lt _ _ _ _ Hc Ec) as Hk.
  pose proof (partner_sym _ _ _ _ Hc Ec) as Ek.
  assert (Hkb : b1 <= k).
  { apply partner_cross in Ec; [unfold BlockAlg.crossP in Ec; lia | done]. }
  pose proof Ec as Ec'.
  apply partner_Some in Ec as (Ec1 & Ec2 & _); [|done].
  set (Y := upd (fill A2 c iv) c o v).
  assert (HY : sized Y) by (subst Y A2; side).
  assert (HC : forall e u, u < K ->
    cell Y e u =
      if decide (e = c) then (if decide (u = o) then v else iv)
      else if decide (e = f) then (if decide (u = 0) then enc k else cell A1 c u)
      else if decide (e = k /\ u = 0) then enc f else cell A1 e u).
  { intros e u Hu. subst Y A2. ccases. }
  subst F. unfold BlockAlg.write_fresh. fold Y. clearbody Y. clear A2.
  split; [side|]. intros d t Hd Ht.
  rewrite lread_breakChain by done.
  destruct (decide (d = c)) as [->|D1].
  { rewrite lread_unfold, Ec'. ccases with HC. }
  destruct (decide (d = c /\ t = o)) as [[? ?]|_]; [done|].
  destruct (decide (partner Y b1 d = Some c)) as [D2|D2].
  { apply partner_Some in D2 as (D3 & D4 & D5); [|done].
    rewrite lread_unfold.
    destruct (partner A1 b1 d) as [e|] eqn:E.
    - exfalso. apply partner_Some in E as (E1 & E2 & E3); [|done].
      revert D3. unfold BlockAlg.crossP in *.
      ccases with HC; intros; simplify_eq; lia.
    - unfold BlockAlg.crossP in D5. destruct (decide (d < b1)); [lia | done]. }
  destruct (decide (d = f)) as [->|D3].
  { assert (EF : partner Y b1 f = Some k).
    { apply partner_Some; [done|]. ccases with HC.
      unfold BlockAlg.crossP. repeat split; (done || lia). }
    rewrite !lread_unfold, EF, Ef. rewrite Hiv by done. ccases. }
  destruct (decide (d = k)) as [->|D4].
  { assert (EF : partner Y b1 k = Some f).
    { apply partner_Some; [done|]. ccases with HC.
      unfold BlockAlg.crossP. repeat split; (done || lia). }
    rewrite !lread_unfold, EF, Ek. ccases with HC. }
  apply lread_frame; [done| | |done].
  - intros u Hu. ccases with HC.
  - intros e He Hx.
    destruct (decide (e = c)) as [->|]; [|destruct (decide (e = f)) as [->|];
      [|destruct (decide (e = k)) as [->|]]].
    + split; [split|]; intros; exfalso; [|congruence..].
      apply D2. apply partner_Some; [done|]. rewrite (HC d) by lia.
      ccases.
    + backptr with HC.
    + backptr with HC.
    + backptr with HC.
Qed.

(** ** The algorithm is a correct initializable array *)

Theorem write_frame A b iv c o v :
  sized A -> b <= NB -> c < NB -> o < K ->
  let A' := (write A b iv c o v).1 in
  let b' := (write A b iv c o v).2 in
  sized A' /\ b <= b' <= NB /\
  forall d t, d < NB -> t < K ->
    lread A' b' iv d t = if decide (d = c /\ t = o) then v else lread A b iv d t.
Proof.
  intros HA Hb Hc Ho. unfold BlockAlg.write.
  destruct (partner A b c) as [k|] eqn:E.
  - pose proof (partner_lt _ _ _ _ Hc E) as Hk.
    pose proof (partner_cross _ _ _ _ Hc E) as Hx. unfold BlockAlg.crossP in Hx.
    destruct (Nat.ltb_spec c b) as [Hcb|Hcb]; cbv zeta.
    + assert (Hb' : b < NB) by lia.
      destruct (extend_spec A b iv HA Hb') as (S0 & S1 & S2 & S3 & S4 & S5 & S6).
      destruct (Nat.eqb_spec (extend A b iv).1 c) as [Hf|Hf]; simpl.
      * rewrite Hf in *. split; [unfold BlockAlg.write_fresh; side|]. split; [lia|].
        intros d t Hd Ht. rewrite write_fresh_frame by (done || lia).
        by rewrite S6.
      * assert (Ec : partner (extend A b iv).2 (S b) c = Some k).
        { rewrite S5 by (done || lia). done. }
        destruct (write_swap_frame (extend A b iv).2 (S b) iv c (extend A b iv).1 k o v)
          as [W1 W2]; [done || lia ..|].
        split; [done|]. split; [lia|]. intros d t Hd Ht.
        rewrite W2 by done. by rewrite S6.
    + simpl. destruct (write_through_frame A b iv c k o v) as [W1 W2]; [done..|].
      split; [done|]. split; [lia|]. done.
  - destruct (Nat.ltb_spec c b) as [Hcb|Hcb]; cbv zeta.
    + simpl. split; [unfold BlockAlg.write_fresh; side|]. split; [lia|].
      intros d t Hd Ht. by apply write_fresh_frame.
    + assert (Hb' : b < NB) by lia.
      destruct (extend_spec A b iv HA Hb') as (S0 & S1 & S2 & S3 & S4 & S5 & S6).
      destruct (Nat.eqb_spec (extend A b iv).1 c) as [Hf|Hf]; simpl.
      * rewrite Hf in *. split; [unfold BlockAlg.write_fresh; side|]. split; [lia|].
        intros d t Hd Ht. rewrite write_fresh_frame by (done || lia).
        by rewrite S6.
      * assert (Hne : c <> b).
        { intros ->. destruct S1 as [[? ?]|[? ?]]; [done | congruence]. }
        assert (Ec : partner (extend A b iv).2 (S b) c = None).
        { rewrite S5 by (done || lia). done. }
        destruct (write_chain_frame (extend A b iv).2 (S b) iv c (extend A b iv).1 o v)
          as [W1 W2]; [done || lia ..|].
        split; [done|]. split; [lia|]. intros d t Hd Ht.
        rewrite W2 by done. by rewrite S6.
Qed.

(** Once every block is below [b] a write is a plain store. *)
Lemma write_above A b iv c o v :
  c < NB -> NB <= b -> write A b iv c o v = (upd A c o v, b).
Proof.
  intros Hc Hb. unfold BlockAlg.write, BlockAlg.write_fresh, BlockAlg.breakChain.
  rewrite !partner_above by done.
  destruct (Nat.ltb_spec c b); [done | lia].
Qed.

(** ** What chain bookkeeping leaves alone *)

(** [makeChain] and [breakChain] store into first cells only. *)
Lemma makeChain_keeps A x y d t :
  sized A -> x < NB -> y < NB -> t < K -> t <> 0 ->
  cell (makeChain A x y) d t = cell A d t.
Proof. intros HA Hx Hy Ht Ht0. rewrite cell_makeChain by done. ccases. Qed.

Lemma breakChain_keeps A b x d t :
  sized A -> x < NB -> t < K -> t <> 0 ->
  cell (breakChain A b x) d t = cell A d t.
Proof.
  intros HA Hx Ht Ht0. unfold BlockAlg.breakChain.
  destruct (partner A b x) as [k|] eqn:E; [|done].
  pose proof (partner_lt _ _ _ _ Hx E). ccases.
Qed.

(** [extend] leaves the last cell of every chained block at or above [b]
    alone. *)
Lemma extend_keeps_last A b iv c k :
  sized A -> b < NB -> c < NB -> b <= c -> partner A b c = Some k ->
  cell (extend A b iv).2 c (K - 1) = cell A c (K - 1).
Proof.
  intros HA Hb Hc Hbc E. unfold BlockAlg.extend.
  destruct (partner A b b) as [bk|] eqn:Eb; simpl.
  - pose proof (partner_lt _ _ _ _ Hb Eb) as Hbk.
    assert (Hlt : bk < b).
    { apply partner_cross in Eb; [|done]. unfold BlockAlg.crossP in Eb. lia. }
    assert (sized (restore A b bk)) by (apply restore_sized; (done || lia)).
    rewrite cell_stash by (side || lia).
    rewrite breakChain_keeps by side.
    rewrite cell_fill by side. destruct (decide (c = bk)); [lia|].
    rewrite breakChain_keeps by side.
    rewrite cell_restore by side. destruct (decide _); [lia | done].
  - assert (c <> b) by (intros ->; congruence).
    rewrite cell_stash by (side || lia).
    rewrite breakChain_keeps by side.
    rewrite cell_fill by side. destruct (decide (c = b)); done.
Qed.

(** When the boundary block is chained, [extend] copies its displaced
    cells back from the partner, which lies below [b]. *)
Lemma extend_restores A b iv bk t :
  sized A -> b < NB -> partner A b b = Some bk -> t < K - 1 ->
  bk < b /\ (extend A b iv).1 = bk /\
  cell (extend A b iv).2 b t = cell A bk (t + 1).
Proof.
  intros HA Hb Eb Ht. pose proof (partner_lt _ _ _ _ Hb Eb) as Hbk.
  assert (Hlt : bk < b).
  { apply partner_cross in Eb; [|done]. unfold BlockAlg.crossP in Eb. lia. }
  split; [done|]. unfold BlockAlg.extend. rewrite Eb. simpl. split; [done|].
  assert (sized (restore A b bk)) by (apply restore_sized; (done || lia)).
  rewrite cell_stash by (side || lia).
  destruct (breakChain_spec (fill (breakChain (restore A b bk) (S b) b) bk iv) (S b) bk)
    as (_ & _ & S3); [side..|].
  rewrite S3 by lia. rewrite cell_fill by side. destruct (decide (b = bk)); [lia|].
  destruct (breakChain_spec (restore A b bk) (S b) b) as (_ & _ & T3); [side..|].
  rewrite T3 by lia. rewrite cell_restore by side.
  destruct (decide _) as [|D]; [done|]. exfalso. apply D. lia.
Qed.

End BlockTheory.

Local Open Scope Z_scope.

(** * The two classes run the block algorithm *)

Lemma M_bind_Some {S X Y} (m : M S X) (f : X -> M S Y) s x s' :
  m s = Some (x, s') -> bind m f s = f x s'.
Proof. unfold bind. by intros ->. Qed.

Lemma M_bind_gets {S X Y} (g : S -> X) (f : X -> M S Y) s :
  bind (gets g) f s = f (g s) s.
Proof. done. Qed.

Lemma M_bind_modify {S Y} (g : S -> S) (f : unit -> M S Y) s :
  bind (modify g) f s = f tt (g s).
Proof. done. Qed.

Lemma M_bind_assoc {S X Y Z} (m : M S X) (f : X -> M S Y) (g : Y -> M S Z) s :
  bind (bind m f) g s = bind m (fun x => bind (f x) g) s.
Proof. unfold bind. by destruct (m s) as [[x s']|]. Qed.

Lemma code_nonneg p : (0 <=? BlockAlg.code p) = bool_decide (is_Some p).
Proof. destruct p; simpl; [|done]. destruct (Z.leb_spec 0 (Z.of_nat n)); [done | lia]. Qed.

Lemma code_neg p : (BlockAlg.code p <? 0) = bool_decide (p = None).
Proof. destruct p; simpl; [|done]. destruct (Z.ltb_spec (Z.of_nat n) 0); [lia | done]. Qed.

Ltac ifs := cbn [Nat.eqb Nat.ltb Nat.leb Nat.sub Nat.add fst snd].

(** ** InPlaceArraySec3 *)

(** Projections of an updated object. *)
Ltac proj3 :=
  cbn [InPlaceArraySec3.with_state InPlaceArraySec3.set_A InPlaceArraySec3.set_b
       InPlaceArraySec3.set_initv InPlaceArraySec3.set_ctr InPlaceArraySec3.set_base
       InPlaceArraySec3.base InPlaceArraySec3.N_blocks InPlaceArraySec3.A
       InPlaceArraySec3.b InPlaceArraySec3.initv InPlaceArraySec3.ctr] in *.

Section Sec3.
Import InPlaceArraySec3.
Local Open Scope nat_scope.

Local Abbreviation idx := (BlockAlg.idx 2).
Local Abbreviation cell := (BlockAlg.cell 2).
Local Abbreviation upd := (BlockAlg.upd 2).
Local Abbreviation sized := (BlockAlg.sized 2).

Lemma first_of_0 c : first_of c = idx c 0.
Proof. unfold first_of, BlockAlg.idx. rewrite Nat.shiftl_mul_pow2. simpl. lia. Qed.

Lemma first_of_1 c : first_of c + 1 = idx c 1.
Proof. rewrite first_of_0. unfold BlockAlg.idx. lia. Qed.

Lemma block_of_div i : block_of i = i / 2.
Proof. unfold block_of. by rewrite Nat.shiftr_div_pow2. Qed.

Lemma land_1_mod i : Nat.land i 1 = i mod 2.
Proof. change 1 with (Nat.ones 1). by rewrite Nat.land_ones. Qed.

Lemma Zland_1_mod z : Z.land z 1 = (z mod 2)%Z.
Proof. change 1%Z with (Z.ones 1). by rewrite Z.land_ones. Qed.

Lemma shiftr_1_div n : Nat.shiftr n 1 = n / 2.
Proof. by rewrite Nat.shiftr_div_pow2. Qed.

Lemma index_split i : i = idx (i / 2) (i mod 2).
Proof. unfold BlockAlg.idx. apply Nat.div_mod. lia. Qed.

Lemma ld_cell s c o :
  sized (N_blocks s) (A s) -> c < N_blocks s -> o < 2 ->
  ld (idx c o) s = Some (cell (A s) c o, s).
Proof.
  intros HA Hc Ho. unfold ld, call.
  by rewrite (lookup_cell 2 (N_blocks s)) by (done || lia).
Qed.

Lemma st_cell s c o v :
  sized (N_blocks s) (A s) -> c < N_blocks s -> o < 2 ->
  st (idx c o) v s = Some (tt, with_state s (upd (A s) c o v) (b s) (ctr s)).
Proof.
  intros HA Hc Ho. unfold st.
  rewrite decide_True; [done|]. rewrite HA. apply idx_lt; (done || lia).
Qed.

Lemma chainedTo_block_eq s c :
  N s = 2 * N_blocks s -> sized (N_blocks s) (A s) -> c < N_blocks s ->
  chainedTo_block s c = Some (BlockAlg.code (BlockAlg.partner 2 (N_blocks s) (A s) (b s) c)).
Proof.
  intros HN HA Hc. rewrite (partner_code 2 (N_blocks s)) by lia.
  unfold chainedTo_block. cbv zeta.
  rewrite first_of_0, (lookup_cell 2 (N_blocks s)) by (done || lia).
  rewrite Zland_1_mod, shiftr_1_div, HN. change (Z.of_nat 2) with 2%Z.
  fold (BlockAlg.cross (b s) c (Z.to_nat (cell (A s) c 0) / 2)).
  destruct (Z.eqb_spec (cell (A s) c 0 mod 2) 0) as [Hm|]; [|done].
  destruct (Z.ltb_spec (cell (A s) c 0) 0); [done|].
  destruct (Nat.leb_spec (2 * N_blocks s) (Z.to_nat (cell (A s) c 0))); [done|].
  cbn [negb orb].
  destruct (BlockAlg.cross _ _ _); [|done]. cbn [negb].
  destruct (partner_code_index 2 (N_blocks s) ltac:(lia) (A s) c) as [Hi Hk];
    [done | lia | done |].
  rewrite Hi at 1. rewrite (lookup_cell 2 (N_blocks s)) by (done || lia).
  unfold BlockAlg.enc. by destruct (_ =? _)%Z.
Qed.

Ltac side3 :=
  proj3; first [ done | lia | solve [ eauto using upd_sized, fill_sized,
    makeChain_sized, breakChain_sized, restore_sized, swapBlocks_sized ] ].

(** One statement of a member: run it with its lemma [L]. *)
Tactic Notation "run" uconstr(L) :=
  erewrite M_bind_Some; [| apply L; side3 ]; proj3.

Lemma st_cell' s A' b' c' c o v :
  sized (N_blocks s) A' -> c < N_blocks s -> o < 2 ->
  st (idx c o) v (with_state s A' b' c') =
    Some (tt, with_state s (upd A' c o v) b' c').
Proof. intros. by rewrite st_cell. Qed.

Lemma ld_cell' s A' b' c' c o :
  sized (N_blocks s) A' -> c < N_blocks s -> o < 2 ->
  ld (idx c o) (with_state s A' b' c') =
    Some (cell A' c o, with_state s A' b' c').
Proof. intros. by rewrite ld_cell. Qed.

Lemma chainedTo_block_eq' s A' b' c' c :
  N s = 2 * N_blocks s -> sized (N_blocks s) A' -> c < N_blocks s ->
  call (fun x => chainedTo_block x c) (with_state s A' b' c') =
    Some (BlockAlg.code (BlockAlg.partner 2 (N_blocks s) A' b' c),
          with_state s A' b' c').
Proof. intros. unfold call. by rewrite chainedTo_block_eq. Qed.

Lemma makeChain_eq s A' b' c' c d :
  sized (N_blocks s) A' -> c < N_blocks s -> d < N_blocks s ->
  makeChain c d (with_state s A' b' c') =
    Some (tt, with_state s (BlockAlg.makeChain 2 A' c d) b' (inc_conversions c')).
Proof.
  intros HA Hc Hd. unfold makeChain. rewrite !first_of_0.
  run st_cell'. run st_cell'. done.
Qed.

Lemma breakChain_eq s A' b' c' c :
  N s = 2 * N_blocks s -> sized (N_blocks s) A' -> c < N_blocks s ->
  breakChain c (with_state s A' b' c') =
    Some (tt, with_state s (BlockAlg.breakChain 2 (N_blocks s) A' b' c) b'
                (if BlockAlg.partner 2 (N_blocks s) A' b' c
                 then inc_conversions c' else c')).
Proof.
  intros HN HA Hc. unfold breakChain, BlockAlg.breakChain.
  run chainedTo_block_eq'. rewrite code_nonneg.
  destruct (BlockAlg.partner 2 (N_blocks s) A' b' c) as [k|] eqn:E; simpl.
  - pose proof (partner_lt 2 (N_blocks s) ltac:(lia) _ _ _ _ Hc E).
    rewrite Nat2Z.id, first_of_0. run st_cell'. done.
  - done.
Qed.

Lemma initBlock_eq s A' b' c' c :
  sized (N_blocks s) A' -> c < N_blocks s ->
  initBlock c (with_state s A' b' c') =
    Some (tt, with_state s (BlockAlg.fill 2 A' c (initv s)) b' c').
Proof.
  intros HA Hc. unfold initBlock. rewrite first_of_1, first_of_0.
  rewrite M_bind_gets. proj3.
  run st_cell'. by rewrite st_cell' by side3.
Qed.

(** [breakChain] counts conversions only. *)
Lemma break_relocations (p : option nat) c :
  relocations (if p then inc_conversions c else c) = relocations c.
Proof. by destruct p. Qed.

Lemma extend_eq s A' b' c' :
  N s = 2 * N_blocks s -> sized (N_blocks s) A' -> b' < N_blocks s ->
  exists c'',
    extend (with_state s A' b' c') =
      Some ((BlockAlg.extend 2 (N_blocks s) false A' b' (initv s)).1,
            with_state s (BlockAlg.extend 2 (N_blocks s) false A' b' (initv s)).2
              (S b') c'') /\
    relocations c'' =
      if BlockAlg.partner 2 (N_blocks s) A' b' b'
      then wrap64 (relocations c' + 1) else relocations c'.
Proof.
  intros HN HA Hb. unfold extend, BlockAlg.extend.
  rewrite M_bind_gets. proj3. run chainedTo_block_eq'.
  rewrite M_bind_modify. proj3. rewrite code_neg.
  destruct (BlockAlg.partner 2 (N_blocks s) A' b' b') as [bk|] eqn:E; simpl.
  - pose proof (partner_lt 2 (N_blocks s) ltac:(lia) _ _ _ _ Hb E) as Hbk.
    assert (Hne : b' <> bk).
    { apply partner_cross in E; [|lia..]. unfold BlockAlg.crossP in E. lia. }
    rewrite Nat2Z.id, first_of_1, first_of_0, M_bind_assoc.
    run ld_cell'. run st_cell'.
    change (upd A' b' 0 (cell A' bk 1)) with (BlockAlg.restore 2 A' b' bk).
    run breakChain_eq. run initBlock_eq. run breakChain_eq.
    rewrite M_bind_modify. proj3. eexists. split; [done|].
    cbn [inc_relocations relocations]. by rewrite !break_relocations.
  - run initBlock_eq. run breakChain_eq. eexists. split; [done|].
    by rewrite break_relocations.
Qed.

Lemma block_of_idx c o : o < 2 -> block_of (idx c o) = c.
Proof.
  intros Ho. rewrite block_of_div. unfold BlockAlg.idx.
  rewrite (Nat.mul_comm 2 c), Nat.div_add_l, Nat.div_small; lia.
Qed.

Lemma land_idx c o : o < 2 -> Nat.land (idx c o) 1 = o.
Proof.
  intros Ho. rewrite land_1_mod. unfold BlockAlg.idx.
  rewrite Nat.add_comm, (Nat.mul_comm 2 c), Nat.Div0.mod_add, Nat.mod_small; lia.
Qed.

Lemma swap_eq s A' b' c' x y o :
  sized (N_blocks s) A' -> x < N_blocks s -> y < N_blocks s -> o < 2 ->
  swap (idx x o) (idx y o) (with_state s A' b' c') =
    Some (tt, with_state s (upd (upd A' x o (cell A' y o)) y o (cell A' x o)) b' c').
Proof.
  intros HA Hx Hy Ho. unfold swap.
  run ld_cell'. run ld_cell'. run st_cell'. by rewrite st_cell' by side3.
Qed.

Lemma read_impl_eq s c o :
  N s = 2 * N_blocks s -> sized (N_blocks s) (A s) -> c < N_blocks s -> o < 2 ->
  read_impl s (idx c o) =
    Some (BlockAlg.lread 2 (N_blocks s) (A s) (b s) (initv s) c o).
Proof.
  intros HN HA Hc Ho. unfold read_impl, BlockAlg.lread, BlockAlg.through. cbv zeta.
  rewrite block_of_idx, chainedTo_block_eq, code_nonneg, land_idx by done.
  rewrite first_of_1.
  assert (Hlt : (idx c o <? 2 * b s) = (c <? b s)).
  { unfold BlockAlg.idx.
    destruct (Nat.ltb_spec (2 * c + o) (2 * b s)), (Nat.ltb_spec c (b s)); (done || lia). }
  rewrite Hlt. destruct (c <? b s).
  - destruct (BlockAlg.partner _ _ _ _ _) as [k|]; simpl; [done|].
    apply (lookup_cell 2 (N_blocks s)); (done || lia).
  - destruct (BlockAlg.partner _ _ _ _ _) as [k|] eqn:E; simpl; [|done].
    pose proof (partner_lt 2 (N_blocks s) ltac:(lia) _ _ _ _ Hc E).
    rewrite Nat2Z.id.
    destruct o as [|[|?]]; [| |lia]; simpl;
      apply (lookup_cell 2 (N_blocks s)); (done || lia).
Qed.

Lemma write_impl_eq s A' b' c' c o v :
  N s = 2 * N_blocks s -> sized (N_blocks s) A' -> b' <= N_blocks s ->
  c < N_blocks s -> o < 2 ->
  exists c'',
    write_impl (idx c o) v (with_state s A' b' c') =
      Some (tt, with_state s
        (BlockAlg.write 2 (N_blocks s) false A' b' (initv s) c o v).1
        (BlockAlg.write 2 (N_blocks s) false A' b' (initv s) c o v).2 c'').
Proof.
  intros HN HA Hb Hc Ho. unfold write_impl, BlockAlg.write. cbv zeta.
  rewrite block_of_idx, land_idx by done. rewrite !first_of_1, !first_of_0.
  run chainedTo_block_eq'. rewrite M_bind_gets. proj3.
  rewrite code_neg, code_nonneg.
  destruct (BlockAlg.partner 2 (N_blocks s) A' b' c) as [k|] eqn:E;
    destruct (Nat.ltb_spec c b') as [Hcb|Hcb]; simpl.
  - (* chained, below b *)
    pose proof (partner_lt 2 (N_blocks s) ltac:(lia) _ _ _ _ Hc E) as Hk.
    assert (Hb' : b' < N_blocks s).
    { apply partner_cross in E; [|lia..]. unfold BlockAlg.crossP in E. lia. }
    destruct (extend_eq s A' b' c' HN HA Hb') as (c1 & H1 & _).
    destruct (extend_spec 2 (N_blocks s) ltac:(lia) false ltac:(done)
                A' b' (initv s) HA Hb') as (S0 & S1 & _).
    erewrite M_bind_Some by apply H1. clear H1. cbv beta.
    rewrite ?first_of_1, ?first_of_0.
    set (f := (BlockAlg.extend 2 (N_blocks s) false A' b' (initv s)).1) in *.
    set (A1 := (BlockAlg.extend 2 (N_blocks s) false A' b' (initv s)).2) in *.
    assert (Hf : f < N_blocks s) by lia.
    destruct (Nat.eqb_spec f c) as [Hfc|Hfc].
    + run st_cell'. rewrite breakChain_eq by side3. by eexists.
    + rewrite Nat2Z.id.
      run swap_eq. run swap_eq. rewrite M_bind_modify.
      change (upd (upd (upd (upd A1 f 0 _) c 0 _) f 1 _) c 1 _)
        with (BlockAlg.swapBlocks 2 A1 f c).
      assert (sized (N_blocks s) (BlockAlg.swapBlocks 2 A1 f c))
        by (apply swapBlocks_sized; (done || lia)).
      run makeChain_eq. run initBlock_eq. run st_cell'.
      rewrite breakChain_eq by side3. by eexists.
  - (* chained, at or above b *)
    pose proof (partner_lt 2 (N_blocks s) ltac:(lia) _ _ _ _ Hc E) as Hk.
    rewrite Nat2Z.id, ?first_of_1, ?first_of_0. unfold BlockAlg.through.
    destruct o as [|[|?]]; [| |lia]; ifs; rewrite st_cell' by side3; by eexists.
  - (* not chained, below b *)
    run st_cell'. rewrite breakChain_eq by side3. by eexists.
  - (* not chained, at or above b *)
    assert (Hb' : b' < N_blocks s) by lia.
    destruct (extend_eq s A' b' c' HN HA Hb') as (c1 & H1 & _).
    destruct (extend_spec 2 (N_blocks s) ltac:(lia) false ltac:(done)
                A' b' (initv s) HA Hb') as (S0 & S1 & _).
    erewrite M_bind_Some by apply H1. clear H1. cbv beta.
    rewrite ?first_of_1, ?first_of_0.
    set (f := (BlockAlg.extend 2 (N_blocks s) false A' b' (initv s)).1) in *.
    set (A1 := (BlockAlg.extend 2 (N_blocks s) false A' b' (initv s)).2) in *.
    assert (Hf : f < N_blocks s) by lia.
    destruct (Nat.eqb_spec f c) as [Hfc|Hfc].
    + run st_cell'. rewrite breakChain_eq by side3. by eexists.
    + run initBlock_eq. run makeChain_eq. unfold BlockAlg.through.
      rewrite ?first_of_1, ?first_of_0.
      destruct o as [|[|?]]; [| |lia]; ifs; rewrite st_cell' by side3; by eexists.
Qed.

End Sec3.
Local Open Scope Z_scope.

(** ** InPlaceArraySec4 *)

Ltac proj4 :=
  cbn [InPlaceArraySec4.with_state InPlaceArraySec4.set_A InPlaceArraySec4.set_b
       InPlaceArraySec4.set_initv InPlaceArraySec4.set_ctr InPlaceArraySec4.set_base
       InPlaceArraySec4.set_flag
       InPlaceArraySec4.base InPlaceArraySec4.N_blocks InPlaceArraySec4.A
       InPlaceArraySec4.b InPlaceArraySec4.initv InPlaceArraySec4.flag
       InPlaceArraySec4.ctr] in *.

Section Sec4.
Import InPlaceArraySec4.
Local Open Scope nat_scope.

Local Abbreviation idx := (BlockAlg.idx 4).
Local Abbreviation cell := (BlockAlg.cell 4).
Local Abbreviation upd := (BlockAlg.upd 4).
Local Abbreviation sized := (BlockAlg.sized 4).

Lemma first4_0 c : first_of c = idx c 0.
Proof. unfold first_of, BlockAlg.idx. rewrite Nat.shiftl_mul_pow2. simpl. lia. Qed.

Lemma first4_1 c : first_of c + 1 = idx c 1.
Proof. rewrite first4_0. unfold BlockAlg.idx. lia. Qed.

Lemma first4_2 c : first_of c + 2 = idx c 2.
Proof. rewrite first4_0. unfold BlockAlg.idx. lia. Qed.

Lemma first4_3 c : first_of c + 3 = idx c 3.
Proof. rewrite first4_0. unfold BlockAlg.idx. lia. Qed.

Lemma block4_div i : block_of i = i / 4.
Proof. unfold block_of. by rewrite Nat.shiftr_div_pow2. Qed.

Lemma land_3_mod i : Nat.land i 3 = i mod 4.
Proof. change 3 with (Nat.ones 2). by rewrite Nat.land_ones. Qed.

Lemma Zland_3_mod z : Z.land z 3 = (z mod 4)%Z.
Proof. change 3%Z with (Z.ones 2). by rewrite Z.land_ones. Qed.

Lemma shiftr_2_div n : Nat.shiftr n 2 = n / 4.
Proof. by rewrite Nat.shiftr_div_pow2. Qed.

Lemma index4_split i : i = idx (i / 4) (i mod 4).
Proof. unfold BlockAlg.idx. apply Nat.div_mod. lia. Qed.

Lemma block4_idx c o : o < 4 -> block_of (idx c o) = c.
Proof.
  intros Ho. rewrite block4_div. unfold BlockAlg.idx.
  rewrite (Nat.mul_comm 4 c), Nat.div_add_l, Nat.div_small; lia.
Qed.

Lemma land4_idx c o : o < 4 -> Nat.land (idx c o) 3 = o.
Proof.
  intros Ho. rewrite land_3_mod. unfold BlockAlg.idx.
  rewrite Nat.add_comm, (Nat.mul_comm 4 c), Nat.Div0.mod_add, Nat.mod_small; lia.
Qed.

Ltac side4 :=
  proj4;
  first [ done | lia
        | solve [ repeat (first [ apply upd_sized | apply fill_sized
                                | apply makeChain_sized | apply breakChain_sized
                                | apply stash_sized ]; try lia); done ] ].

Tactic Notation "run4" uconstr(L) :=
  erewrite M_bind_Some; [| apply L; side4 ]; proj4.

Lemma st4_cell s A' b' f' c' c o v :
  sized (N_blocks s) A' -> c < N_blocks s -> o < 4 ->
  st (idx c o) v (with_state s A' b' f' c') =
    Some (tt, with_state s (upd A' c o v) b' f' c').
Proof.
  intros HA Hc Ho. unfold st. proj4.
  rewrite decide_True; [done|]. rewrite HA. apply idx_lt; (done || lia).
Qed.

Lemma ld4_cell s A' b' f' c' c o :
  sized (N_blocks s) A' -> c < N_blocks s -> o < 4 ->
  ld (idx c o) (with_state s A' b' f' c') =
    Some (cell A' c o, with_state s A' b' f' c').
Proof.
  intros HA Hc Ho. unfold ld, call. proj4.
  by rewrite (lookup_cell 4 (N_blocks s)) by (done || lia).
Qed.

Lemma chainedTo_block4_eq s c :
  N s = 4 * N_blocks s -> sized (N_blocks s) (A s) -> c < N_blocks s ->
  chainedTo_block s c = Some (BlockAlg.code (BlockAlg.partner 4 (N_blocks s) (A s) (b s) c)).
Proof.
  intros HN HA Hc. rewrite (partner_code 4 (N_blocks s)) by lia.
  unfold chainedTo_block. cbv zeta.
  rewrite first4_0, (lookup_cell 4 (N_blocks s)) by (done || lia).
  rewrite Zland_3_mod, shiftr_2_div, HN. change (Z.of_nat 4) with 4%Z.
  fold (BlockAlg.cross (b s) c (Z.to_nat (cell (A s) c 0) / 4)).
  destruct (Z.eqb_spec (cell (A s) c 0 mod 4) 0) as [Hm|]; [|done].
  destruct (Z.ltb_spec (cell (A s) c 0) 0); [done|].
  destruct (Nat.leb_spec (4 * N_blocks s) (Z.to_nat (cell (A s) c 0))); [done|].
  cbn [negb orb].
  destruct (BlockAlg.cross _ _ _); [|done]. cbn [negb].
  destruct (partner_code_index 4 (N_blocks s) ltac:(lia) (A s) c) as [Hi Hk];
    [done | lia | done |].
  rewrite Hi at 1. rewrite (lookup_cell 4 (N_blocks s)) by (done || lia).
  unfold BlockAlg.enc. by destruct (_ =? _)%Z.
Qed.

Lemma chainedTo_block4_eq' s A' b' f' c' c :
  N s = 4 * N_blocks s -> sized (N_blocks s) A' -> c < N_blocks s ->
  call (fun x => chainedTo_block x c) (with_state s A' b' f' c') =
    Some (BlockAlg.code (BlockAlg.partner 4 (N_blocks s) A' b' c),
          with_state s A' b' f' c').
Proof. intros. unfold call. by rewrite chainedTo_block4_eq. Qed.

Lemma makeChain4_eq s A' b' f' c' c d :
  sized (N_blocks s) A' -> c < N_blocks s -> d < N_blocks s ->
  makeChain c d (with_state s A' b' f' c') =
    Some (tt, with_state s (BlockAlg.makeChain 4 A' c d) b' f' (inc_conversions c')).
Proof.
  intros HA Hc Hd. unfold makeChain. rewrite !first4_0.
  run4 st4_cell. run4 st4_cell. done.
Qed.

Lemma breakChain4_eq s A' b' f' c' c :
  N s = 4 * N_blocks s -> sized (N_blocks s) A' -> c < N_blocks s ->
  breakChain c (with_state s A' b' f' c') =
    Some (tt, with_state s (BlockAlg.breakChain 4 (N_blocks s) A' b' c) b' f'
                (if BlockAlg.partner 4 (N_blocks s) A' b' c
                 then inc_conversions c' else c')).
Proof.
  intros HN HA Hc. unfold breakChain, BlockAlg.breakChain.
  run4 chainedTo_block4_eq'. rewrite code_nonneg.
  destruct (BlockAlg.partner 4 (N_blocks s) A' b' c) as [k|] eqn:E; simpl.
  - pose proof (partner_lt 4 (N_blocks s) ltac:(lia) _ _ _ _ Hc E).
    rewrite Nat2Z.id, first4_0. run4 st4_cell. done.
  - done.
Qed.

Lemma initBlock4_eq s A' b' f' c' c :
  sized (N_blocks s) A' -> c < N_blocks s ->
  initBlock c (with_state s A' b' f' c') =
    Some (tt, with_state s (BlockAlg.fill 4 A' c (initv s)) b' f' c').
Proof.
  intros HA Hc. unfold initBlock. rewrite first4_1, first4_2, first4_3, first4_0.
  rewrite M_bind_gets. proj4.
  run4 st4_cell. run4 st4_cell. run4 st4_cell. by rewrite st4_cell by side4.
Qed.

Lemma sync_meta_eq s A' b' f' c' :
  sized (N_blocks s) A' ->
  sync_meta_to_A (with_state s A' b' f' c') =
    Some (tt, with_state s (BlockAlg.stash 4 (N_blocks s) true A' b' (initv s)) b'
                (N_blocks s <=? b') c').
Proof.
  intros HA. unfold sync_meta_to_A, sync_flag, BlockAlg.stash.
  rewrite M_bind_modify. proj4. rewrite M_bind_gets. proj4.
  destruct (Nat.leb_spec (N_blocks s) b'), (Nat.ltb_spec b' (N_blocks s));
    try lia; cbn [negb andb]; [done|].
  rewrite M_bind_gets. proj4. rewrite M_bind_gets. proj4.
  rewrite first4_1, first4_2. run4 st4_cell.
  rewrite M_bind_gets. proj4. by rewrite st4_cell by side4.
Qed.

Lemma extend4_eq s A' b' f' c' :
  N s = 4 * N_blocks s -> sized (N_blocks s) A' -> b' < N_blocks s ->
  exists c'',
    extend (with_state s A' b' f' c') =
      Some ((BlockAlg.extend 4 (N_blocks s) true A' b' (initv s)).1,
            with_state s (BlockAlg.extend 4 (N_blocks s) true A' b' (initv s)).2
              (S b') (N_blocks s <=? S b') c'') /\
    relocations c'' =
      if BlockAlg.partner 4 (N_blocks s) A' b' b'
      then wrap64 (relocations c' + 1) else relocations c'.
Proof.
  intros HN HA Hb. unfold extend, BlockAlg.extend.
  rewrite M_bind_gets. proj4. run4 chainedTo_block4_eq'.
  rewrite M_bind_modify. proj4. rewrite code_neg.
  destruct (BlockAlg.partner 4 (N_blocks s) A' b' b') as [bk|] eqn:E; simpl.
  - pose proof (partner_lt 4 (N_blocks s) ltac:(lia) _ _ _ _ Hb E) as Hbk.
    assert (Hne : b' <> bk).
    { apply partner_cross in E; [|lia..]. unfold BlockAlg.crossP in E. lia. }
    rewrite Nat2Z.id, !first4_1, !first4_2, !first4_3, !first4_0, !M_bind_assoc.
    run4 ld4_cell. run4 st4_cell. rewrite M_bind_assoc.
    run4 ld4_cell. run4 st4_cell. rewrite M_bind_assoc.
    run4 ld4_cell. run4 st4_cell.
    change (upd (upd (upd A' b' 0 _) b' 1 _) b' 2 _) with (BlockAlg.restore 4 A' b' bk).
    assert (sized (N_blocks s) (BlockAlg.restore 4 A' b' bk))
      by (apply restore_sized; (done || lia)).
    run4 breakChain4_eq. run4 initBlock4_eq. run4 breakChain4_eq.
    rewrite M_bind_modify. proj4. run4 sync_meta_eq.
    eexists. split; [done|].
    cbn [inc_relocations relocations]. by rewrite !break_relocations.
  - run4 initBlock4_eq. run4 breakChain4_eq. run4 sync_meta_eq.
    eexists. split; [done|].
    by rewrite break_relocations.
Qed.

Lemma swap4_eq s A' b' f' c' x y o :
  sized (N_blocks s) A' -> x < N_blocks s -> y < N_blocks s -> o < 4 ->
  swap (idx x o) (idx y o) (with_state s A' b' f' c') =
    Some (tt, with_state s (upd (upd A' x o (cell A' y o)) y o (cell A' x o)) b' f' c').
Proof.
  intros HA Hx Hy Ho. unfold swap.
  run4 ld4_cell. run4 ld4_cell. run4 st4_cell. by rewrite st4_cell by side4.
Qed.

Lemma write_through4_eq s A' b' f' c' k c o v :
  sized (N_blocks s) A' -> k < N_blocks s -> c < N_blocks s -> o < 4 ->
  write_through k (idx c o) v (with_state s A' b' f' c') =
    Some (tt, with_state s
      (upd A' (BlockAlg.through 4 k c o).1 (BlockAlg.through 4 k c o).2 v) b' f' c').
Proof.
  intros HA Hk Hc Ho. unfold write_through, BlockAlg.through.
  rewrite land4_idx, first4_1, first4_2, first4_3 by done.
  destruct o as [|[|[|[|?]]]]; [| | | |lia]; ifs; by rewrite st4_cell by side4.
Qed.

Lemma read_impl4_eq s c o :
  N s = 4 * N_blocks s -> sized (N_blocks s) (A s) -> b s <= N_blocks s ->
  flag s = (N_blocks s <=? b s) -> c < N_blocks s -> o < 4 ->
  read_impl s (idx c o) =
    Some (BlockAlg.lread 4 (N_blocks s) (A s) (b s) (initv s) c o).
Proof.
  intros HN HA Hb Hf Hc Ho. unfold read_impl. rewrite Hf.
  destruct (Nat.leb_spec (N_blocks s) (b s)) as [Hge|Hlt'].
  { rewrite (lread_above 4 (N_blocks s)) by (done || lia).
    apply (lookup_cell 4 (N_blocks s)); (done || lia). }
  unfold BlockAlg.lread, BlockAlg.through. cbv zeta.
  rewrite block4_idx, chainedTo_block4_eq, code_nonneg, land4_idx by done.
  rewrite first4_1, first4_2, first4_3.
  assert (Hlt : (idx c o <? 4 * b s) = (c <? b s)).
  { unfold BlockAlg.idx.
    destruct (Nat.ltb_spec (4 * c + o) (4 * b s)), (Nat.ltb_spec c (b s)); (done || lia). }
  rewrite Hlt. destruct (c <? b s).
  - destruct (BlockAlg.partner _ _ _ _ _) as [k|]; simpl; [done|].
    apply (lookup_cell 4 (N_blocks s)); (done || lia).
  - destruct (BlockAlg.partner _ _ _ _ _) as [k|] eqn:E; simpl; [|done].
    pose proof (partner_lt 4 (N_blocks s) ltac:(lia) _ _ _ _ Hc E).
    rewrite Nat2Z.id.
    destruct o as [|[|[|[|?]]]]; [| | | |lia]; ifs;
      apply (lookup_cell 4 (N_blocks s)); (done || lia).
Qed.

Lemma write_impl4_eq s A' b' c' c o v :
  N s = 4 * N_blocks s -> sized (N_blocks s) A' -> b' <= N_blocks s ->
  c < N_blocks s -> o < 4 ->
  exists c'',
    write_impl (idx c o) v (with_state s A' b' (N_blocks s <=? b') c') =
      Some (tt, with_state s
        (BlockAlg.write 4 (N_blocks s) true A' b' (initv s) c o v).1
        (BlockAlg.write 4 (N_blocks s) true A' b' (initv s) c o v).2
        (N_blocks s <=? (BlockAlg.write 4 (N_blocks s) true A' b' (initv s) c o v).2)
        c'').
Proof.
  intros HN HA Hb Hc Ho. unfold write_impl.
  rewrite M_bind_gets. proj4.
  destruct (Nat.leb_spec (N_blocks s) b') as [Hge|Hlt'].
  { rewrite (write_above 4 (N_blocks s)) by (done || lia || (intros; lia)). ifs.
    rewrite st4_cell by side4.
    destruct (Nat.leb_spec (N_blocks s) b'); [|lia]. by eexists. }
  assert (Hfl : forall f0, (N_blocks s <=? b') = f0 -> false = f0).
  { intros f0 <-. destruct (Nat.leb_spec (N_blocks s) b'); [lia | done]. }
  unfold BlockAlg.write. cbv zeta.
  rewrite block4_idx by done. rewrite !first4_1, !first4_2, !first4_3, !first4_0.
  run4 chainedTo_block4_eq'. rewrite M_bind_gets. proj4.
  rewrite code_neg, code_nonneg.
  destruct (BlockAlg.partner 4 (N_blocks s) A' b' c) as [k|] eqn:E;
    destruct (Nat.ltb_spec c b') as [Hcb|Hcb]; simpl.
  - (* chained, below b *)
    pose proof (partner_lt 4 (N_blocks s) ltac:(lia) _ _ _ _ Hc E) as Hk.
    destruct (extend4_eq s A' b' false c' HN HA Hlt') as (c1 & H1 & _).
    destruct (extend_spec 4 (N_blocks s) ltac:(lia) true ltac:(lia)
                A' b' (initv s) HA Hlt') as (S0 & S1 & _).
    erewrite M_bind_Some by apply H1. clear H1. cbv beta.
    rewrite ?first4_1, ?first4_2, ?first4_3, ?first4_0.
    set (f := (BlockAlg.extend 4 (N_blocks s) true A' b' (initv s)).1) in *.
    set (A1 := (BlockAlg.extend 4 (N_blocks s) true A' b' (initv s)).2) in *.
    assert (Hf : f < N_blocks s) by lia.
    destruct (Nat.eqb_spec f c) as [Hfc|Hfc].
    + run4 st4_cell. rewrite breakChain4_eq by side4. by eexists.
    + rewrite Nat2Z.id.
      run4 swap4_eq. run4 swap4_eq. run4 swap4_eq. run4 swap4_eq.
      rewrite M_bind_modify.
      change (upd (upd (upd (upd (upd (upd (upd (upd A1 f 0 _) c 0 _) f 1 _) c 1 _)
                f 2 _) c 2 _) f 3 _) c 3 _)
        with (BlockAlg.swapBlocks 4 A1 f c).
      assert (sized (N_blocks s) (BlockAlg.swapBlocks 4 A1 f c))
        by (apply swapBlocks_sized; (done || lia)).
      run4 makeChain4_eq. run4 initBlock4_eq. run4 st4_cell.
      rewrite breakChain4_eq by side4. by eexists.
  - (* chained, at or above b *)
    pose proof (partner_lt 4 (N_blocks s) ltac:(lia) _ _ _ _ Hc E) as Hk.
    rewrite Nat2Z.id. rewrite write_through4_eq by side4.
    eexists. f_equal. f_equal. f_equal. by apply Hfl.
  - (* not chained, below b *)
    run4 st4_cell. rewrite breakChain4_eq by side4.
    eexists. f_equal. f_equal. f_equal. by apply Hfl.
  - (* not chained, at or above b *)
    destruct (extend4_eq s A' b' false c' HN HA Hlt') as (c1 & H1 & _).
    destruct (extend_spec 4 (N_blocks s) ltac:(lia) true ltac:(lia)
                A' b' (initv s) HA Hlt') as (S0 & S1 & _).
    erewrite M_bind_Some by apply H1. clear H1. cbv beta.
    rewrite ?first4_1, ?first4_2, ?first4_3, ?first4_0.
    set (f := (BlockAlg.extend 4 (N_blocks s) true A' b' (initv s)).1) in *.
    set (A1 := (BlockAlg.extend 4 (N_blocks s) true A' b' (initv s)).2) in *.
    assert (Hf : f < N_blocks s) by lia.
    destruct (Nat.eqb_spec f c) as [Hfc|Hfc].
    + run4 st4_cell. rewrite breakChain4_eq by side4. by eexists.
    + run4 initBlock4_eq. run4 makeChain4_eq.
      rewrite write_through4_eq by side4. by eexists.
Qed.

End Sec4.
Local Open Scope Z_scope.

(** * The public members *)

(** ** InPlaceArraySec3 *)

Section Sec3Public.
Import InPlaceArraySec3.
Local Open Scope nat_scope.

Lemma sec3_sized s : wf s -> BlockAlg.sized 2 (N_blocks s) (A s).
Proof. intros [H1 H2 _ _]. unfold BlockAlg.sized. by rewrite H2, H1. Qed.

Lemma sec3_block s i : wf s -> i < N s -> i / 2 < N_blocks s /\ i mod 2 < 2.
Proof.
  intros [H1 _ _ _] Hi. split; [|apply Nat.mod_upper_bound; lia].
  apply Nat.Div0.div_lt_upper_bound. lia.
Qed.

Lemma sec3_new_wf n s : new n = inr s -> wf s.
Proof.
  unfold new. destruct (Nat.eqb_spec n 0); [done|].
  destruct (Nat.eqb_spec (n mod 2) 0) as [Hm|]; [|done]. cbn [negb].
  intros [= <-].
  split; unfold N; cbn [base N_blocks A b VerifiableBase.new VerifiableBase.N];
    change ((Nat.divmod n 1 0 1).1) with (n / 2).
  - pose proof (Nat.div_mod_eq n 2). lia.
  - by rewrite length_replicate.
  - lia.
  - done.
Qed.

Lemma sec3_read_ok s i :
  wf s -> i < N s ->
  read i s = Normal (sec3_value s i) (set_ctr (inc_reads (ctr s)) s).
Proof.
  intros Hwf Hi. unfold read. cbv zeta.
  change (N (set_ctr (inc_reads (ctr s)) s)) with (N s).
  destruct (Nat.leb_spec (N s) i); [lia|].
  destruct (sec3_block s i Hwf Hi).
  rewrite (index_split i) at 1.
  rewrite read_impl_eq; proj3; [done | apply Hwf | by apply sec3_sized | done..].
Qed.

Lemma shadow_on_write_ok vb i v :
  VerifiableBase.wf vb -> i < VerifiableBase.N vb ->
  exists vb', VerifiableBase.shadow_on_write i v vb = Some vb' /\
    VerifiableBase.wf vb' /\ VerifiableBase.N vb' = VerifiableBase.N vb /\
    VerifiableBase.verifying vb' = VerifiableBase.verifying vb.
Proof.
  intros Hwf Hi. unfold VerifiableBase.shadow_on_write.
  destruct (VerifiableBase.verifying vb) eqn:E; simpl; [|by eexists].
  destruct (Hwf E) as [H1 H2].
  rewrite !decide_True by lia. eexists. split; [done|].
  split; [|done]. intros _. simpl. by rewrite !length_insert.
Qed.

Lemma sec3_write_ok s i v :
  wf s -> i < N s ->
  exists s',
    write i v s = Normal tt s' /\ wf s' /\
    N s' = N s /\ N_blocks s' = N_blocks s /\ initv s' = initv s /\
    A s' = (BlockAlg.write 2 (N_blocks s) false (A s) (b s) (initv s)
              (i / 2) (i mod 2) v).1 /\
    b s' = (BlockAlg.write 2 (N_blocks s) false (A s) (b s) (initv s)
              (i / 2) (i mod 2) v).2 /\
    VerifiableBase.shadow_on_write i v (base s) = Some (base s').
Proof.
  intros Hwf Hi. unfold write. cbv zeta.
  change (N (set_ctr (inc_writes (ctr s)) s)) with (N s).
  destruct (Nat.leb_spec (N s) i); [lia|].
  destruct (sec3_block s i Hwf Hi) as [Hc Ho].
  pose proof (sec3_sized s Hwf) as HA.
  destruct (write_impl_eq s (A s) (b s) (inc_writes (ctr s)) (i / 2) (i mod 2) v)
    as [c'' Hw]; [apply Hwf | done | apply Hwf | done..|].
  rewrite <-(index_split i) in Hw.
  change (set_ctr (inc_writes (ctr s)) s)
    with (with_state s (A s) (b s) (inc_writes (ctr s))).
  rewrite Hw. clear Hw.
  destruct (write_frame 2 (N_blocks s) ltac:(lia) false ltac:(done)
              (A s) (b s) (initv s) (i / 2) (i mod 2) v HA) as (W1 & W2 & _);
    [apply Hwf | done..|].
  set (W := BlockAlg.write 2 (N_blocks s) false (A s) (b s) (initv s)
              (i / 2) (i mod 2) v) in *.
  assert (Hwf' : forall vb, VerifiableBase.wf vb ->
            VerifiableBase.N vb = VerifiableBase.N (base s) ->
            wf (set_base vb (with_state s W.1 W.2 c''))).
  { intros vb Hvb HN. destruct Hwf as [H1 H2 H3 H4].
    split; unfold N in *; proj3; [congruence | | lia | done].
    rewrite HN, H1. apply W1. }
  unfold verifying. proj3.
  destruct (VerifiableBase.verifying (base s)) eqn:Ev.
  - destruct (shadow_on_write_ok (base s) i v) as (vb' & E1 & E2 & E3 & E4);
      [apply Hwf | done |].
    rewrite E1. eexists. split; [done|]. split; [by apply Hwf'|].
    unfold N. proj3. done.
  - eexists. split; [done|].
    split; [apply (Hwf' (base s)); [apply Hwf | done]|].
    unfold N, VerifiableBase.shadow_on_write. proj3. by rewrite Ev.
Qed.

Lemma shadow_on_init_wf v vb :
  VerifiableBase.wf vb ->
  VerifiableBase.wf (VerifiableBase.shadow_on_init v vb) /\
  VerifiableBase.N (VerifiableBase.shadow_on_init v vb) = VerifiableBase.N vb.
Proof.
  intros Hwf. unfold VerifiableBase.shadow_on_init.
  destruct (VerifiableBase.verifying vb) eqn:E; simpl; [|done].
  destruct (Hwf E) as [H1 H2].
  destruct (_ =? 0)%Z; (split; [|done]); intros _; simpl; [|done].
  by rewrite length_fmap.
Qed.

Lemma sec3_init_ok s v :
  wf s ->
  exists s',
    init v s = Normal tt s' /\ wf s' /\
    N s' = N s /\ N_blocks s' = N_blocks s /\ initv s' = v /\ b s' = 0 /\ A s' = A s.
Proof.
  intros Hwf. unfold init. cbv zeta. eexists. split; [done|].
  destruct (shadow_on_init_wf v (base s)) as [H1 H2]; [apply Hwf|].
  destruct Hwf as [W1 W2 W3 W4].
  split; [|unfold N in *; proj3; by rewrite ?H2].
  split; unfold N in *; proj3; [congruence | congruence | lia | done].
Qed.

Lemma sec3_value_init s i :
  wf s -> i < N s -> b s = 0 -> sec3_value s i = initv s.
Proof.
  intros Hwf Hi Hb. unfold sec3_value. rewrite Hb.
  apply lread_init; [lia|]. by apply sec3_block.
Qed.

End Sec3Public.

(** ** InPlaceArraySec4 *)

Section Sec4Public.
Import InPlaceArraySec4.
Local Open Scope nat_scope.

Lemma sec4_sized s : wf s -> BlockAlg.sized 4 (N_blocks s) (A s).
Proof. intros [H1 H2 _ _ _]. unfold BlockAlg.sized. by rewrite H2, H1. Qed.

Lemma sec4_block s i : wf s -> i < N s -> i / 4 < N_blocks s /\ i mod 4 < 4.
Proof.
  intros [H1 _ _ _ _] Hi. split; [|apply Nat.mod_upper_bound; lia].
  apply Nat.Div0.div_lt_upper_bound. lia.
Qed.

Lemma sec4_new_wf n s : new n = inr s -> wf s.
Proof.
  unfold new. destruct (Nat.eqb_spec n 0); [done|].
  destruct (Nat.eqb_spec (n mod 4) 0) as [Hm|]; [|done]. cbn [negb].
  intros [= <-]. pose proof (Nat.div_mod_eq n 4).
  split; unfold N; cbn [base N_blocks A b flag VerifiableBase.new VerifiableBase.N];
    change ((Nat.divmod n 3 0 3).1) with (n / 4).
  - lia.
  - by rewrite length_replicate.
  - lia.
  - destruct (Nat.leb_spec (n / 4) 0); [lia | done].
  - done.
Qed.

Lemma sec4_read_ok s i :
  wf s -> i < N s ->
  read i s = Normal (sec4_value s i) (set_ctr (inc_reads (ctr s)) s).
Proof.
  intros Hwf Hi. unfold read. cbv zeta.
  change (N (set_ctr (inc_reads (ctr s)) s)) with (N s).
  destruct (Nat.leb_spec (N s) i); [lia|].
  destruct (sec4_block s i Hwf Hi).
  rewrite (index4_split i) at 1.
  rewrite read_impl4_eq; proj4;
    [done | apply Hwf | by apply sec4_sized | apply Hwf | apply Hwf | done..].
Qed.

Lemma sec4_write_ok s i v :
  wf s -> i < N s ->
  exists s',
    write i v s = Normal tt s' /\ wf s' /\
    N s' = N s /\ N_blocks s' = N_blocks s /\ initv s' = initv s /\
    A s' = (BlockAlg.write 4 (N_blocks s) true (A s) (b s) (initv s)
              (i / 4) (i mod 4) v).1 /\
    b s' = (BlockAlg.write 4 (N_blocks s) true (A s) (b s) (initv s)
              (i / 4) (i mod 4) v).2.
Proof.
  intros Hwf Hi. unfold write. cbv zeta.
  change (N (set_ctr (inc_writes (ctr s)) s)) with (N s).
  destruct (Nat.leb_spec (N s) i); [lia|].
  destruct (sec4_block s i Hwf Hi) as [Hc Ho].
  pose proof (sec4_sized s Hwf) as HA.
  destruct (write_impl4_eq s (A s) (b s) (inc_writes (ctr s)) (i / 4) (i mod 4) v)
    as [c'' Hw]; [apply Hwf | done | apply Hwf | done..|].
  rewrite <-(index4_split i) in Hw.
  change (set_ctr (inc_writes (ctr s)) s)
    with (with_state s (A s) (b s) (flag s) (inc_writes (ctr s))).
  rewrite (wf_flag s Hwf), Hw. clear Hw.
  destruct (write_frame 4 (N_blocks s) ltac:(lia) true ltac:(lia)
              (A s) (b s) (initv s) (i / 4) (i mod 4) v HA) as (W1 & W2 & _);
    [apply Hwf | done..|].
  set (W := BlockAlg.write 4 (N_blocks s) true (A s) (b s) (initv s)
              (i / 4) (i mod 4) v) in *.
  assert (Hwf' : forall vb, VerifiableBase.wf vb ->
            VerifiableBase.N vb = VerifiableBase.N (base s) ->
            wf (set_base vb (with_state s W.1 W.2 (N_blocks s <=? W.2) c''))).
  { intros vb Hvb HN. destruct Hwf as [H1 H2 H3 H4 H5].
    split; unfold N in *; proj4; [congruence | | lia | done | done].
    rewrite HN, H1. apply W1. }
  unfold verifying. proj4.
  destruct (VerifiableBase.verifying (base s)) eqn:Ev.
  - destruct (shadow_on_write_ok (base s) i v) as (vb' & E1 & E2 & E3 & E4);
      [apply Hwf | done |].
    rewrite E1. eexists. split; [done|]. split; [by apply Hwf'|].
    unfold N. proj4. done.
  - eexists. split; [done|].
    split; [apply (Hwf' (base s)); [apply Hwf | done]|].
    unfold N. proj4. done.
Qed.

Lemma sec4_init_ok s v :
  wf s ->
  exists s',
    init v s = Normal tt s' /\ wf s' /\
    N s' = N s /\ N_blocks s' = N_blocks s /\ initv s' = v /\ b s' = 0.
Proof.
  intros Hwf. unfold init. cbv zeta.
  pose proof (sec4_sized s Hwf) as HA.
  change (set_flag _ (set_b 0 (set_initv v (set_ctr (inc_inits (ctr s)) s))))
    with (with_state (set_initv v s) (A s) 0 (N_blocks s =? 0) (inc_inits (ctr s))).
  rewrite sync_meta_eq by done. proj4.
  eexists. split; [done|].
  destruct (shadow_on_init_wf v (base s)) as [H1 H2]; [apply Hwf|].
  destruct Hwf as [W1 W2 W3 W4 W5].
  split; [|unfold N in *; proj4; by rewrite ?H2].
  split; unfold N in *; proj4; [congruence | | lia | done | done].
  rewrite H2, W1. by apply (stash_sized 4 (N_blocks s) ltac:(lia) true).
Qed.

Lemma sec4_value_init s i :
  wf s -> i < N s -> b s = 0 -> sec4_value s i = initv s.
Proof.
  intros Hwf Hi Hb. unfold sec4_value. rewrite Hb.
  apply lread_init; [lia|]. by apply sec4_block.
Qed.

End Sec4Public.
Local Open Scope Z_scope.

(** * The three implementations behind the interface *)

Section Interface.
Local Open Scope nat_scope.

Lemma index_eq2 i j : (j / 2 = i / 2 /\ j mod 2 = i mod 2) <-> j = i.
Proof.
  split; [|by intros ->]. intros [H1 H2].
  rewrite (Nat.div_mod_eq j 2), (Nat.div_mod_eq i 2). congruence.
Qed.

Lemma index_eq4 i j : (j / 4 = i / 4 /\ j mod 4 = i mod 4) <-> j = i.
Proof.
  split; [|by intros ->]. intros [H1 H2].
  rewrite (Nat.div_mod_eq j 4), (Nat.div_mod_eq i 4). congruence.
Qed.

Lemma make_wf v n a : make v n = inr a -> wf_array a.
Proof.
  destruct v; simpl.
  - intros [= <-]. simpl. by rewrite length_replicate.
  - destruct (InPlaceArraySec3.new n) eqn:E; [done|]. intros [= <-].
    by apply sec3_new_wf in E.
  - destruct (InPlaceArraySec4.new n) eqn:E; [done|]. intros [= <-].
    by apply sec4_new_wf in E.
Qed.

Lemma read_ok a i :
  wf_array a -> i < array_N a ->
  read i a = Normal (value a i) (set_counters (inc_reads (get_counters a)) a).
Proof.
  intros Hwf Hi. destruct a as [s|s|s]; simpl in *.
  - unfold StdVectorWrapper.read, StdVectorWrapper.bounds. simpl.
    destruct (Nat.leb_spec (StdVectorWrapper.N s) i); [lia|]. simpl.
    rewrite list_lookup_lookup_total_lt by lia. done.
  - by rewrite sec3_read_ok.
  - by rewrite sec4_read_ok.
Qed.

Lemma write_ok a i v :
  wf_array a -> i < array_N a ->
  exists a',
    write i v a = Normal tt a' /\ wf_array a' /\ array_N a' = array_N a /\
    forall j, j < array_N a -> value a' j = if decide (j = i) then v else value a j.
Proof.
  intros Hwf Hi. destruct a as [s|s|s]; simpl in *.
  - unfold StdVectorWrapper.write, StdVectorWrapper.bounds. simpl.
    destruct (Nat.leb_spec (StdVectorWrapper.N s) i); [lia|]. simpl.
    rewrite decide_True by lia. eexists. split; [done|]. simpl.
    split; [by rewrite length_insert|]. split; [done|].
    intros j Hj. destruct (decide (j = i)) as [->|].
    + rewrite list_lookup_total_insert_eq; [done | lia].
    + rewrite list_lookup_total_insert_ne; [done | lia].
  - destruct (sec3_write_ok s i v Hwf Hi) as (s' & E1 & E2 & E3 & E4 & E5 & E6 & E7 & _).
    exists (sec3 s'). rewrite E1. simpl. split; [done|]. split; [done|].
    split; [done|]. intros j Hj. unfold sec3_value.
    rewrite E4, E5, E6, E7.
    destruct (sec3_block s i Hwf Hi), (sec3_block s j Hwf Hj).
    destruct (write_frame 2 (InPlaceArraySec3.N_blocks s) ltac:(lia) false ltac:(done)
      (InPlaceArraySec3.A s) (InPlaceArraySec3.b s) (InPlaceArraySec3.initv s)
      (i / 2) (i mod 2) v) as (_ & _ & W);
      [by apply sec3_sized | apply Hwf | done..|].
    rewrite W by done.
    destruct (decide (j / 2 = i / 2 /\ j mod 2 = i mod 2)) as [D|D], (decide (j = i));
      try done; rewrite index_eq2 in D; done.
  - destruct (sec4_write_ok s i v Hwf Hi) as (s' & E1 & E2 & E3 & E4 & E5 & E6 & E7).
    exists (sec4 s'). rewrite E1. simpl. split; [done|]. split; [done|].
    split; [done|]. intros j Hj. unfold sec4_value.
    rewrite E4, E5, E6, E7.
    destruct (sec4_block s i Hwf Hi), (sec4_block s j Hwf Hj).
    destruct (write_frame 4 (InPlaceArraySec4.N_blocks s) ltac:(lia) true ltac:(lia)
      (InPlaceArraySec4.A s) (InPlaceArraySec4.b s) (InPlaceArraySec4.initv s)
      (i / 4) (i mod 4) v) as (_ & _ & W);
      [by apply sec4_sized | apply Hwf | done..|].
    rewrite W by done.
    destruct (decide (j / 4 = i / 4 /\ j mod 4 = i mod 4)) as [D|D], (decide (j = i));
      try done; rewrite index_eq4 in D; done.
Qed.

Lemma init_ok a v :
  wf_array a ->
  exists a',
    init v a = Normal tt a' /\ wf_array a' /\ array_N a' = array_N a /\
    forall j, j < array_N a -> value a' j = v.
Proof.
  intros Hwf. destruct a as [s|s|s]; cbn [init wf_array array_N value] in *.
  - eexists. split; [done|]. simpl. rewrite length_fmap.
    split; [done|]. split; [done|]. intros j Hj.
    rewrite list_lookup_total_fmap; [done | apply _ | lia].
  - destruct (sec3_init_ok s v Hwf) as (s' & E1 & E2 & E3 & E4 & E5 & E6 & E7).
    exists (sec3 s'). rewrite E1. simpl. split; [done|]. split; [done|].
    split; [done|]. intros j Hj. rewrite sec3_value_init; (done || lia).
  - destruct (sec4_init_ok s v Hwf) as (s' & E1 & E2 & E3 & E4 & E5 & E6).
    exists (sec4 s'). rewrite E1. simpl. split; [done|]. split; [done|].
    split; [done|]. intros j Hj. rewrite sec4_value_init; (done || lia).
Qed.

Lemma set_counters_wf c a : wf_array a -> wf_array (set_counters c a).
Proof. destruct a as [s|s|s]; simpl; [done| |]; by intros []. Qed.

Lemma enable_base_wf vb :
  VerifiableBase.wf (VerifiableBase.enable_verification vb).
Proof. intros _. simpl. by rewrite !length_replicate. Qed.

Lemma step_wf o a a' : wf_array a -> step o a = Some a' -> wf_array a'.
Proof.
  intros Hwf. destruct o as [v|i|i v| |]; simpl.
  - destruct (init_ok a v Hwf) as (a1 & -> & H & _). by intros [= <-].
  - destruct (Nat.lt_ge_cases i (array_N a)) as [Hi|Hi].
    + rewrite read_ok by done. intros [= <-]. by apply set_counters_wf.
    + destruct a as [s|s|s]; simpl in *.
      * unfold StdVectorWrapper.read, StdVectorWrapper.bounds. simpl.
        destruct (Nat.leb_spec (StdVectorWrapper.N s) i); [|lia]. simpl.
        by intros [= <-].
      * unfold InPlaceArraySec3.read. cbv zeta.
        change (InPlaceArraySec3.N (InPlaceArraySec3.set_ctr _ s))
          with (InPlaceArraySec3.N s).
        destruct (Nat.leb_spec (InPlaceArraySec3.N s) i); [|lia]. simpl.
        intros [= <-]. by destruct Hwf.
      * unfold InPlaceArraySec4.read. cbv zeta.
        change (InPlaceArraySec4.N (InPlaceArraySec4.set_ctr _ s))
          with (InPlaceArraySec4.N s).
        destruct (Nat.leb_spec (InPlaceArraySec4.N s) i); [|lia]. simpl.
        intros [= <-]. by destruct Hwf.
  - destruct (Nat.lt_ge_cases i (array_N a)) as [Hi|Hi].
    + destruct (write_ok a i v Hwf Hi) as (a1 & -> & H & _). by intros [= <-].
    + destruct a as [s|s|s]; simpl in *.
      * unfold StdVectorWrapper.write, StdVectorWrapper.bounds. simpl.
        destruct (Nat.leb_spec (StdVectorWrapper.N s) i); [|lia]. simpl.
        by intros [= <-].
      * unfold InPlaceArraySec3.write. cbv zeta.
        change (InPlaceArraySec3.N (InPlaceArraySec3.set_ctr _ s))
          with (InPlaceArraySec3.N s).
        destruct (Nat.leb_spec (InPlaceArraySec3.N s) i); [|lia]. simpl.
        intros [= <-]. by destruct Hwf.
      * unfold InPlaceArraySec4.write. cbv zeta.
        change (InPlaceArraySec4.N (InPlaceArraySec4.set_ctr _ s))
          with (InPlaceArraySec4.N s).
        destruct (Nat.leb_spec (InPlaceArraySec4.N s) i); [|lia]. simpl.
        intros [= <-]. by destruct Hwf.
  - intros [= <-]. destruct a as [s|s|s]; simpl in *; [done| |]; by destruct Hwf.
  - intros [= <-]. destruct a as [s|s|s]; simpl in *; [done| |];
      destruct Hwf; split; try done; apply enable_base_wf.
Qed.

Lemma run_wf ops a a' : wf_array a -> run ops a = Some a' -> wf_array a'.
Proof.
  revert a. induction ops as [|o ops IH]; intros a Hwf; simpl.
  - by intros [= <-].
  - destruct (step o a) as [a1|] eqn:E; [|done].
    apply IH. by apply (step_wf o a).
Qed.

Lemma reachable_wf a : reachable a -> wf_array a.
Proof.
  intros (v & n & a0 & ops & H1 & H2).
  apply (run_wf ops a0); [|done]. by apply (make_wf v n).
Qed.

End Interface.
Local Open Scope Z_scope.

(** * The specification, claim by claim *)

Lemma demo3_reachable : reachable demo3.
Proof. exists Vsec3, 8%nat. eexists. exists [OpInit 0; OpWrite 5%nat 99]. by split. Qed.

Lemma demo4_reachable : reachable demo4.
Proof. exists Vsec4, 8%nat. eexists. exists [OpInit 0; OpWrite 5%nat 99]. by split. Qed.

(** C1. In every reachable state of an array (of either in-place class, and
    of the plain vector as well), [write(i, v)] with [i < N] returns, and a
    [read(i)] after it returns [v]. *)
Theorem write_then_read (a : array) (i : nat) (v : Z) :
  reachable a -> (i < array_N a)%nat ->
  exists a1 a2, write i v a = Normal tt a1 /\ read i a1 = Normal v a2.
Proof.
  intros Hr Hi. apply reachable_wf in Hr.
  destruct (write_ok a i v Hr Hi) as (a1 & E1 & E2 & E3 & E4).
  exists a1. eexists. split; [done|].
  rewrite read_ok by (done || lia). rewrite E4 by done.
  by rewrite decide_True.
Qed.

Lemma write_then_read_witness :
  (exists a1 a2, write 5 7 demo3 = Normal tt a1 /\ read 5 a1 = Normal 7 a2) /\
  (exists a1 a2, write 6 7 demo4 = Normal tt a1 /\ read 6 a1 = Normal 7 a2).
Proof.
  split.
  - apply (write_then_read demo3 5 7); [apply demo3_reachable | vm_compute; lia].
  - apply (write_then_read demo4 6 7); [apply demo4_reachable | vm_compute; lia].
Defined.

(** C2. In every reachable state, [write(i, v)] with [i < N] leaves the
    value that [read(j)] returns unchanged, for every other [j < N]. *)
Theorem write_keeps_others (a : array) (i j : nat) (v : Z) :
  reachable a -> (i < array_N a)%nat -> (j < array_N a)%nat -> j <> i ->
  exists x a0 a1 a2,
    read j a = Normal x a0 /\ write i v a = Normal tt a1 /\ read j a1 = Normal x a2.
Proof.
  intros Hr Hi Hj Hne. apply reachable_wf in Hr.
  destruct (write_ok a i v Hr Hi) as (a1 & E1 & E2 & E3 & E4).
  exists (value a j). eexists. exists a1. eexists.
  split; [by apply read_ok|]. split; [done|].
  rewrite read_ok by (done || lia). rewrite E4 by done.
  by rewrite decide_False.
Qed.

Lemma write_keeps_others_witness :
  (exists x a0 a1 a2,
     read 5 demo3 = Normal x a0 /\ write 4 7 demo3 = Normal tt a1 /\
     read 5 a1 = Normal x a2) /\
  (exists x a0 a1 a2,
     read 5 demo4 = Normal x a0 /\ write 6 7 demo4 = Normal tt a1 /\
     read 5 a1 = Normal x a2).
Proof.
  split.
  - apply (write_keeps_others demo3 4 5 7);
      [apply demo3_reachable | vm_compute; lia | vm_compute; lia | lia].
  - apply (write_keeps_others demo4 6 5 7);
      [apply demo4_reachable | vm_compute; lia | vm_compute; lia | lia].
Defined.

(** C4. From every reachable state, after [init(v); write(i, w); init(v2)]
    every [read(j)] with [j < N] returns [v2]. *)
Theorem init_wipes_writes (a : array) (v w v2 : Z) (i j : nat) :
  reachable a -> (i < array_N a)%nat -> (j < array_N a)%nat ->
  exists a1 a2 a3 a4,
    init v a = Normal tt a1 /\ write i w a1 = Normal tt a2 /\
    init v2 a2 = Normal tt a3 /\ read j a3 = Normal v2 a4.
Proof.
  intros Hr Hi Hj. apply reachable_wf in Hr.
  destruct (init_ok a v Hr) as (a1 & E1 & W1 & N1 & _).
  destruct (write_ok a1 i w W1) as (a2 & E2 & W2 & N2 & _); [lia|].
  destruct (init_ok a2 v2 W2) as (a3 & E3 & W3 & N3 & V3).
  exists a1, a2, a3. eexists. repeat split; try done.
  rewrite read_ok by (done || lia). rewrite V3 by lia. done.
Qed.

Lemma init_wipes_writes_witness :
  (exists a1 a2 a3 a4,
     init (-1) demo3 = Normal tt a1 /\ write 0 10 a1 = Normal tt a2 /\
     init 3 a2 = Normal tt a3 /\ read 0 a3 = Normal 3 a4) /\
  (exists a1 a2 a3 a4,
     init (-1) demo4 = Normal tt a1 /\ write 7 20 a1 = Normal tt a2 /\
     init 3 a2 = Normal tt a3 /\ read 5 a3 = Normal 3 a4).
Proof.
  split.
  - apply (init_wipes_writes demo3 (-1) 10 3 0 0);
      [apply demo3_reachable | vm_compute; lia | vm_compute; lia].
  - apply (init_wipes_writes demo4 (-1) 20 3 7 5);
      [apply demo4_reachable | vm_compute; lia | vm_compute; lia].
Defined.

(** C7. For every implementation and every state, [read(i)] and
    [write(i, v)] with [i >= N] throw [IndexOutOfRange].  The object is then
    as before, except for its counters: [reads], respectively [writes], is
    one higher (modulo [2^64]), and the other four counters are as before. *)
Theorem out_of_range (a : array) (i : nat) (v : Z) :
  (array_N a <= i)%nat ->
  let c := get_counters a in
  read i a =
    Throws IndexOutOfRange
      (set_counters
         (mkCounters (wrap64 (reads c + 1)) (writes c) (inits c)
            (relocations c) (conversions c)) a) /\
  write i v a =
    Throws IndexOutOfRange
      (set_counters
         (mkCounters (reads c) (wrap64 (writes c + 1)) (inits c)
            (relocations c) (conversions c)) a).
Proof.
  intros Hi c. subst c. destruct a as [s|s|s]; cbn [array_N read write] in *.
  - unfold StdVectorWrapper.read, StdVectorWrapper.write, StdVectorWrapper.bounds.
    cbn [StdVectorWrapper.N].
    destruct (Nat.leb_spec (StdVectorWrapper.N s) i); [done | lia].
  - unfold InPlaceArraySec3.read, InPlaceArraySec3.write. cbv zeta.
    change (InPlaceArraySec3.N (InPlaceArraySec3.set_ctr _ s)) with (InPlaceArraySec3.N s).
    destruct (Nat.leb_spec (InPlaceArraySec3.N s) i); [done | lia].
  - unfold InPlaceArraySec4.read, InPlaceArraySec4.write. cbv zeta.
    change (InPlaceArraySec4.N (InPlaceArraySec4.set_ctr _ s)) with (InPlaceArraySec4.N s).
    destruct (Nat.leb_spec (InPlaceArraySec4.N s) i); [done | lia].
Qed.

Lemma out_of_range_witness :
  exists a',
    read 8 demo4 = Throws IndexOutOfRange a' /\
    reads (get_counters a') = wrap64 (reads (get_counters demo4) + 1) /\
    writes (get_counters a') = writes (get_counters demo4) /\
    cells a' = cells demo4.
Proof.
  eexists. split.
  - apply (out_of_range demo4 8 1). vm_compute. lia.
  - repeat split.
Defined.

(** C8 fails on the code: [StdVectorWrapper(0)] is accepted and builds an
    empty vector, while the constructors of the two in-place classes throw
    [InvalidSize] for the size [0]. *)
Theorem std_vector_zero_size :
  make Vstd_vector 0 = inr (std_vector (StdVectorWrapper.mk 0 [] Counters0 false 0 0)) /\
  make Vsec3 0 = inl InvalidSize /\
  make Vsec4 0 = inl InvalidSize.
Proof. repeat split. Qed.

(** What the three constructors do: those of the two in-place classes throw
    [InvalidSize] for [N = 0] and for a size that is not a multiple of the
    block size, and otherwise build an array of [N] zero cells; that of the
    plain vector builds [N] zero cells for every [N]. *)
Lemma construction (v : variant) (n : nat) :
  match v with
  | Vstd_vector =>
    exists a, make v n = inr a /\ name a = v /\ array_N a = n /\ cells a = replicate n 0
  | _ =>
    if decide (n = 0 \/ n mod block_size v <> 0)%nat
    then make v n = inl InvalidSize
    else exists a,
      make v n = inr a /\ name a = v /\ array_N a = n /\ cells a = replicate n 0
  end.
Proof.
  destruct v; cbn [make block_size].
  - by eexists.
  - unfold InPlaceArraySec3.new.
    destruct (Nat.eqb_spec n 0); [by rewrite decide_True by lia|].
    destruct (Nat.eqb_spec (n mod 2) 0); cbn [negb sum_map].
    + rewrite decide_False by lia. by eexists.
    + by rewrite decide_True by lia.
  - unfold InPlaceArraySec4.new.
    destruct (Nat.eqb_spec n 0); [by rewrite decide_True by lia|].
    destruct (Nat.eqb_spec (n mod 4) 0); cbn [negb sum_map].
    + rewrite decide_False by lia. by eexists.
    + by rewrite decide_True by lia.
Qed.

(** C3 fails on the code: after [init(0); write(5, 99)] on eight cells,
    [flag] is false and [b = 1], but the cell that stashes [b] holds [0]:
    [write_impl] has run [initBlock] on the last block after [extend]
    synchronised the stash. *)
Theorem stash_overwritten :
  exists s,
    make_run Vsec4 8 [OpInit 0; OpWrite 5 99] = Some (sec4 s) /\
    InPlaceArraySec4.flag s = false /\ InPlaceArraySec4.b s = 1%nat /\
    InPlaceArraySec4.A s !! 6%nat = Some 0 /\
    ~ stash_ok s.
Proof.
  eexists. split; [vm_compute; reflexivity|]. cbn.
  repeat split. intros H. destruct (H eq_refl) as [_ H2]. by vm_compute in H2.
Qed.

(** ** The shadow verifier *)

Section Shadow.
Import VerifiableBase.

Lemma enable_holds s : shadow_holds (enable_verification s) (fun _ => 0).
Proof.
  unfold shadow_holds. cbn. rewrite !length_replicate. repeat split; try done.
  intros i Hi. exists 0. rewrite lookup_replicate_2 by done.
  repeat split; (done || lia).
Qed.

Lemma init_holds s m v :
  shadow_holds s m ->
  shadow_holds (shadow_on_init v s) (fun _ => v) /\
  N (shadow_on_init v s) = N s.
Proof.
  intros (Hv & Hs & Ht & He & Hm). unfold shadow_on_init, wrap32. rewrite Hv. cbn [negb].
  destruct (Z.eqb_spec ((shadow_epoch s + 1) mod 2 ^ 32) 0) as [E|E].
  - split; [|done]. unfold shadow_holds. cbn. rewrite length_fmap.
    repeat split; try done. intros i Hi.
    destruct (Hm i Hi) as (e & H1 & _).
    exists 0. rewrite list_lookup_fmap, H1. repeat split; (done || lia).
  - assert (Hlt : shadow_epoch s + 1 < 2 ^ 32).
    { destruct (Z.eq_dec (shadow_epoch s + 1) (2 ^ 32)) as [Heq|]; [|lia].
      rewrite Heq, Z.mod_same in E; lia. }
    rewrite Z.mod_small in * by lia.
    split; [|done]. unfold shadow_holds. cbn.
    repeat split; try done; try lia. intros i Hi.
    destruct (Hm i Hi) as (e & H1 & H2 & _).
    exists e. repeat split; (done || lia).
Qed.

Lemma write_holds s m i v :
  shadow_holds s m -> (i < N s)%nat ->
  exists s',
    shadow_on_write i v s = Some s' /\ N s' = N s /\
    shadow_holds s' (fun j => if (j =? i)%nat then v else m j).
Proof.
  intros (Hv & Hs & Ht & He & Hm) Hi. unfold shadow_on_write. rewrite Hv. cbn [negb].
  rewrite !decide_True by lia. eexists. split; [done|]. split; [done|].
  unfold shadow_holds. cbn. rewrite !length_insert.
  repeat split; try done; try lia. intros j Hj.
  destruct (Nat.eqb_spec j i) as [->|Hne].
  - exists (shadow_epoch s). rewrite !list_lookup_insert_eq by lia.
    repeat split; (done || lia).
  - rewrite !list_lookup_insert_ne by done. apply Hm, Hj.
Qed.

Lemma run_holds ops : forall s m,
  shadow_holds s m -> Forall (mirrored (N s)) ops ->
  exists s',
    shadow_run ops s = Some s' /\ N s' = N s /\ shadow_holds s' (reference ops m).
Proof.
  induction ops as [|o ops IH]; intros s m Hs Hops; cbn [shadow_run reference].
  - by exists s.
  - apply Forall_cons in Hops as [Ho Hops].
    destruct o as [v|i v]; cbn [shadow_step].
    + destruct (init_holds s m v Hs) as [H1 H2].
      destruct (IH _ _ H1) as (s' & E1 & E2 & E3); [by rewrite H2|].
      exists s'. split; [done|]. split; [congruence | done].
    + destruct (write_holds s m i v Hs Ho) as (s1 & H0 & H2 & H1). rewrite H0.
      destruct (IH _ _ H1) as (s' & E1 & E2 & E3); [by rewrite H2|].
      exists s'. split; [done|]. split; [congruence | done].
Qed.

Lemma expect_holds s m i :
  shadow_holds s m -> (i < N s)%nat -> expect s i = Some (m i).
Proof.
  intros (Hv & Hs & Ht & He & Hm) Hi. unfold expect.
  destruct (Hm i Hi) as (e & -> & _ & H1 & H2).
  destruct (Z.eqb_spec e (shadow_epoch s)) as [E|E]; [by apply H1|].
  by rewrite H2.
Qed.

Lemma check_from_eq s m rd g n : forall i,
  (forall j, (i <= j < i + n)%nat -> expect s j = Some (m j) /\ rd j = Some (g j)) ->
  check_from s rd i n = Some (forallb (fun j => m j =? g j) (seq i n)).
Proof.
  induction n as [|n IH]; intros i H; cbn [check_from seq forallb]; [done|].
  destruct (H i) as [-> ->]; [lia|].
  destruct (m i =? g i); cbn [negb andb]; [|done].
  apply IH. intros j Hj. apply H. lia.
Qed.

End Shadow.

(** C9. After [enable_verification] and any sequence of mirrored [init]s and
    [write]s, the value that [shadow_check_against] expects at [i < N] is
    the last value written to [i] since the last [init], else the value of
    that [init] (else the [0] that [enable_verification] set): it is the
    content of the reference array.  The check returns [true] exactly when
    the array under test agrees with the reference everywhere.  An [init]
    sets [shadow_initv] and increments the epoch; when the epoch wraps, the
    stamps are cleared and the epoch becomes [1]. *)
Theorem shadow_expected (s0 : VerifiableBase.t) (ops : list shadow_op) :
  Forall (mirrored (VerifiableBase.N s0)) ops ->
  let ref := reference ops (fun _ => 0) in
  (exists s,
    shadow_run ops (VerifiableBase.enable_verification s0) = Some s /\
    (forall i, (i < VerifiableBase.N s0)%nat ->
       VerifiableBase.expect s i =
         Some (match VerifiableBase.stamp s !! i with
               | Some e => if e =? VerifiableBase.shadow_epoch s
                           then VerifiableBase.shadow s !!! i
                           else VerifiableBase.shadow_initv s
               | None => 0
               end) /\
       VerifiableBase.expect s i = Some (ref i)) /\
    (forall rd g,
       (forall i, (i < VerifiableBase.N s0)%nat -> rd i = Some (g i)) ->
       VerifiableBase.shadow_check_against rd s =
         Some (forallb (fun i => ref i =? g i) (seq 0 (VerifiableBase.N s0))))) /\
  (forall s v,
     VerifiableBase.verifying s = true ->
     let e := wrap32 (VerifiableBase.shadow_epoch s + 1) in
     VerifiableBase.shadow_initv (VerifiableBase.shadow_on_init v s) = v /\
     VerifiableBase.shadow_epoch (VerifiableBase.shadow_on_init v s)
       = (if e =? 0 then 1 else e) /\
     VerifiableBase.stamp (VerifiableBase.shadow_on_init v s)
       = (if e =? 0 then (fun _ => 0) <$> VerifiableBase.stamp s
          else VerifiableBase.stamp s)).
Proof.
  intros Hops ref. split.
  - destruct (run_holds ops (VerifiableBase.enable_verification s0) (fun _ => 0))
      as (s & E1 & E2 & E3); [apply enable_holds | done |].
    cbn in E2. exists s. split; [done|]. split.
    + intros i Hi. split; [|apply expect_holds; [done | lia]].
      destruct E3 as (Hv & Hs & Ht & He & Hm).
      destruct (Hm i) as (e & H1 & _); [lia|].
      unfold VerifiableBase.expect. rewrite H1.
      destruct (e =? _); [|done].
      apply list_lookup_lookup_total_lt. lia.
    + intros rd g Hrd. unfold VerifiableBase.shadow_check_against.
      destruct E3 as (Hv & E3'). rewrite Hv. cbn [negb]. rewrite E2.
      apply check_from_eq. intros j Hj. split; [|apply Hrd; lia].
      apply expect_holds; [done | lia].
  - intros s v Hv e. unfold VerifiableBase.shadow_on_init. rewrite Hv. cbn [negb].
    fold e. by destruct (e =? 0).
Qed.

Lemma shadow_expected_witness :
  let ops := [ShInit 7; ShWrite 1 5; ShInit 3; ShWrite 0 9] in
  let s0 := VerifiableBase.new 2 in
  exists s,
    shadow_run ops (VerifiableBase.enable_verification s0) = Some s /\
    VerifiableBase.expect s 0 = Some 9 /\ VerifiableBase.expect s 1 = Some 3.
Proof.
  intros ops s0.
  destruct (shadow_expected s0 ops) as [(s & E1 & E2 & _) _].
  { repeat constructor. }
  exists s. split; [done|]. split.
  - apply (E2 0%nat). cbn. lia.
  - apply (E2 1%nat). cbn. lia.
Defined.

(** ** [init] of InPlaceArraySec3 *)

Lemma run_app ops1 ops2 a :
  run (ops1 ++ ops2) a =
    match run ops1 a with Some a' => run ops2 a' | None => None end.
Proof.
  revert a. induction ops1 as [|o ops1 IH]; intros a; cbn [run app]; [done|].
  destruct (step o a); [apply IH | done].
Qed.

(** [k] calls of [init] that do not wrap the epoch: the shadow vectors stay,
    the epoch advances by [k]. *)
Lemma sec3_run_inits v k : forall s,
  VerifiableBase.verifying (InPlaceArraySec3.base s) = true ->
  1 <= VerifiableBase.shadow_epoch (InPlaceArraySec3.base s) ->
  VerifiableBase.shadow_epoch (InPlaceArraySec3.base s) + Z.of_nat k < 2 ^ 32 ->
  exists s',
    run (replicate k (OpInit v)) (sec3 s) = Some (sec3 s') /\
    VerifiableBase.verifying (InPlaceArraySec3.base s') = true /\
    VerifiableBase.N (InPlaceArraySec3.base s')
      = VerifiableBase.N (InPlaceArraySec3.base s) /\
    VerifiableBase.stamp (InPlaceArraySec3.base s')
      = VerifiableBase.stamp (InPlaceArraySec3.base s) /\
    VerifiableBase.shadow_epoch (InPlaceArraySec3.base s')
      = VerifiableBase.shadow_epoch (InPlaceArraySec3.base s) + Z.of_nat k.
Proof.
  induction k as [|k IH]; intros s Hv He Hk.
  - exists s. cbn [replicate run]. repeat split; (done || lia).
  - cbn [replicate run step init state_of lift_outcome].
    unfold InPlaceArraySec3.init. cbv zeta. cbn [lift_outcome state_of].
    set (s1 := InPlaceArraySec3.set_base _ _).
    assert (H1 : InPlaceArraySec3.base s1 =
      VerifiableBase.mk (VerifiableBase.N (InPlaceArraySec3.base s)) true
        (VerifiableBase.shadow (InPlaceArraySec3.base s))
        (VerifiableBase.stamp (InPlaceArraySec3.base s)) v
        (VerifiableBase.shadow_epoch (InPlaceArraySec3.base s) + 1)).
    { subst s1. proj3. unfold VerifiableBase.shadow_on_init, wrap32.
      rewrite Hv. cbn [negb]. rewrite Z.mod_small by lia.
      destruct (Z.eqb_spec (VerifiableBase.shadow_epoch (InPlaceArraySec3.base s) + 1) 0);
        [lia | done]. }
    destruct (IH s1) as (s' & E1 & E2 & E3 & E4 & E5); rewrite ?H1; cbn; try done; try lia.
    exists s'. rewrite E1, E2, E3, E4, E5, H1. cbn. repeat split; (done || lia).
Qed.

(** After [long_run k] with [k = 2^32 - 2] the next [init] wraps the epoch
    and clears the stamp table. *)
Lemma epoch_wrap (k : nat) :
  Z.of_nat k = 2 ^ 32 - 2 ->
  exists s0 s s',
    make Vsec3 2 = inr (sec3 s0) /\
    run (long_run k) (sec3 s0) = Some (sec3 s) /\
    InPlaceArraySec3.init 7 s = Normal tt s' /\
    VerifiableBase.stamp (InPlaceArraySec3.base s) = [2 ^ 32 - 1; 0] /\
    VerifiableBase.stamp (InPlaceArraySec3.base s') = [0; 0].
Proof.
  intros Hk.
  destruct (InPlaceArraySec3.new 2) as [|s0] eqn:E0; [done|].
  pose proof (sec3_new_wf 2 s0 E0) as Hwf0.
  injection E0 as <-.
  set (s0 := InPlaceArraySec3.mk _ _ _ _ _ _) in *.
  set (s1 := InPlaceArraySec3.enable_verification s0).
  destruct (sec3_run_inits 0 k s1)
    as (s2 & E1 & E2 & E3 & E4 & E5); [done | done | |].
  { rewrite Hk. change (VerifiableBase.shadow_epoch _) with 1. lia. }
  assert (Hr2 : run (OpEnableVerification :: replicate k (OpInit 0))
                  (sec3 s0) = Some (sec3 s2)) by (cbn [run step]; exact E1).
  assert (Hwf2 : InPlaceArraySec3.wf s2).
  { exact (run_wf _ (sec3 s0) (sec3 s2) Hwf0 Hr2). }
  assert (HN : InPlaceArraySec3.N s2 = 2%nat) by exact E3.
  destruct (sec3_write_ok s2 0 5 Hwf2) as (s3 & W1 & W2 & W3 & W4 & W5 & W6 & W7 & W8);
    [lia|].
  destruct (InPlaceArraySec3.wf_base s2 Hwf2 E2) as [L1 L2].
  fold (InPlaceArraySec3.N s2) in L1, L2. rewrite HN in L1, L2.
  unfold VerifiableBase.shadow_on_write in W8. rewrite E2 in W8. cbn [negb] in W8.
  rewrite !decide_True in W8 by lia. injection W8 as W8.
  rewrite E4, E5, Hk in W8.
  change (VerifiableBase.shadow_epoch (InPlaceArraySec3.base s1)) with 1 in W8.
  change (VerifiableBase.stamp (InPlaceArraySec3.base s1)) with [0; 0] in W8.
  change (1 + (2 ^ 32 - 2)) with (2 ^ 32 - 1) in W8.
  exists s0, s3. eexists. split; [done|]. split; [|split; [reflexivity|]].
  - unfold long_run. rewrite app_comm_cons, run_app, Hr2.
    cbn [run step write lift_outcome]. rewrite W1. done.
  - unfold InPlaceArraySec3.init. cbv zeta. proj3. rewrite <-W8.
    unfold VerifiableBase.shadow_on_init.
    cbn [VerifiableBase.verifying VerifiableBase.shadow_epoch VerifiableBase.stamp
         VerifiableBase.shadow VerifiableBase.N VerifiableBase.shadow_initv negb].
    change (wrap32 (2 ^ 32 - 1 + 1) =? 0) with true.
    cbn [fmap list_fmap insert list_insert VerifiableBase.stamp]. done.
Qed.

(** C10 as stated fails: on the [init] that wraps the epoch, the stamp
    table, which is not a scalar, is cleared.  The state is reachable. *)
Lemma init_clears_stamps :
  exists s s',
    reachable (sec3 s) /\
    InPlaceArraySec3.init 7 s = Normal tt s' /\
    VerifiableBase.stamp (InPlaceArraySec3.base s')
      <> VerifiableBase.stamp (InPlaceArraySec3.base s).
Proof.
  destruct (epoch_wrap (Z.to_nat (2 ^ 32 - 2))) as (s0 & s & s' & H0 & H1 & H2 & H3 & H4).
  { apply Z2Nat.id. lia. }
  exists s, s'. split; [|split; [exact H2|]].
  - exists Vsec3, 2%nat, (sec3 s0), (long_run (Z.to_nat (2 ^ 32 - 2))).
    split; [exact H0 | exact H1].
  - rewrite H3, H4. intros H. discriminate H.
Qed.
Local Open Scope Z_scope.

(** C10, amended. [init(v)] of InPlaceArraySec3 returns in every state and
    stores into no cell of [A]; it sets [initv] to [v] and [b] to [0] and
    counts one [init].  Without verification the shadow state stays as it
    is; with verification [shadow_initv] becomes [v], the shadow values
    stay, and the epoch advances by one, unless it wraps to [0]: then it
    restarts at [1] and every stamp is reset to [0]. *)
Theorem sec3_init_frame (v : Z) (s : InPlaceArraySec3.t) :
  exists s',
    InPlaceArraySec3.init v s = Normal tt s' /\
    InPlaceArraySec3.A s' = InPlaceArraySec3.A s /\
    InPlaceArraySec3.N_blocks s' = InPlaceArraySec3.N_blocks s /\
    InPlaceArraySec3.initv s' = v /\
    InPlaceArraySec3.b s' = 0%nat /\
    InPlaceArraySec3.ctr s' = inc_inits (InPlaceArraySec3.ctr s) /\
    let vb := InPlaceArraySec3.base s in
    let vb' := InPlaceArraySec3.base s' in
    VerifiableBase.N vb' = VerifiableBase.N vb /\
    VerifiableBase.verifying vb' = VerifiableBase.verifying vb /\
    VerifiableBase.shadow vb' = VerifiableBase.shadow vb /\
    if VerifiableBase.verifying vb then
      VerifiableBase.shadow_initv vb' = v /\
      if wrap32 (VerifiableBase.shadow_epoch vb + 1) =? 0 then
        VerifiableBase.shadow_epoch vb' = 1 /\
        VerifiableBase.stamp vb' = replicate (length (VerifiableBase.stamp vb)) 0
      else
        VerifiableBase.shadow_epoch vb' = wrap32 (VerifiableBase.shadow_epoch vb + 1) /\
        VerifiableBase.stamp vb' = VerifiableBase.stamp vb
    else vb' = vb.
Proof.
  eexists. split; [reflexivity|]. proj3. repeat (split; [done|]).
  unfold VerifiableBase.shadow_on_init.
  destruct (VerifiableBase.verifying (InPlaceArraySec3.base s)) eqn:Ev; cbn [negb].
  - destruct (wrap32 _ =? 0); cbn; rewrite ?Ev; repeat split; try done.
    induction (VerifiableBase.stamp _) as [|x l IH]; [done|]. cbn. by rewrite IH.
  - by rewrite Ev.
Qed.

(** * Chain bookkeeping *)

Lemma idx_div K c t : (t < K)%nat -> (BlockAlg.idx K c t / K)%nat = c.
Proof.
  intros Ht. unfold BlockAlg.idx. symmetry. apply (Nat.div_unique _ K c t); lia.
Qed.

Lemma idx_mod K c t : (t < K)%nat -> (BlockAlg.idx K c t mod K)%nat = t.
Proof.
  intros Ht. unfold BlockAlg.idx. symmetry. apply (Nat.mod_unique _ K c t); lia.
Qed.

Section Bookkeeping3.
Import InPlaceArraySec3.
Local Open Scope nat_scope.

Lemma sec3_self s : s = with_state s (A s) (b s) (ctr s).
Proof. by destruct s. Qed.

Lemma sec3_partner s c k :
  wf s -> c < N_blocks s -> chainedTo_block s c = Some k -> (0 <= k)%Z ->
  BlockAlg.partner 2 (N_blocks s) (A s) (b s) c = Some (Z.to_nat k).
Proof.
  intros Hwf Hc Hk Hk0. pose proof (sec3_sized s Hwf) as HA.
  rewrite chainedTo_block_eq in Hk by (done || apply Hwf).
  injection Hk as <-. destruct (BlockAlg.partner _ _ _ _ _) as [p|]; cbn in *; [|lia].
  by rewrite Nat2Z.id.
Qed.

(** The second cell of a chained block at or above [b]. *)
Lemma sec3_last_cell s c k :
  wf s -> b s <= c < N_blocks s -> chainedTo_block s c = Some k -> (0 <= k)%Z ->
  let i := first_of c + 1 in
  (exists x, A s !! i = Some x /\ read_impl s i = Some x /\
             read i s = Normal x (set_ctr (inc_reads (ctr s)) s)) /\
  (forall x y, x < N_blocks s -> y < N_blocks s ->
     exists s', makeChain x y s = Some (tt, s') /\ A s' !! i = A s !! i) /\
  (forall x, x < N_blocks s ->
     exists s', breakChain x s = Some (tt, s') /\ A s' !! i = A s !! i) /\
  (exists r s', extend s = Some (r, s') /\ A s' !! i = A s !! i).
Proof.
  intros Hwf [Hbc Hc] Hk Hk0 i. subst i. rewrite first_of_1.
  pose proof (sec3_sized s Hwf) as HA. pose proof (wf_N s Hwf) as HN.
  pose proof (sec3_partner s c k Hwf Hc Hk Hk0) as Hp.
  assert (HL : forall X, BlockAlg.sized 2 (N_blocks s) X ->
            X !! BlockAlg.idx 2 c 1 = Some (BlockAlg.cell 2 X c 1)).
  { intros X HX. apply (lookup_cell 2 (N_blocks s)); (done || lia). }
  assert (Hv : BlockAlg.lread 2 (N_blocks s) (A s) (b s) (initv s) c 1
               = BlockAlg.cell 2 (A s) c 1).
  { unfold BlockAlg.lread. rewrite Hp.
    destruct (Nat.ltb_spec c (b s)); [lia | done]. }
  split; [|split; [|split]].
  - exists (BlockAlg.cell 2 (A s) c 1). split; [by apply HL|]. split.
    + rewrite read_impl_eq by (done || lia). by rewrite Hv.
    + rewrite sec3_read_ok; [|done|unfold BlockAlg.idx; lia].
      unfold sec3_value. by rewrite idx_div, idx_mod, Hv by lia.
  - intros x y Hx Hy.
    pose proof (makeChain_eq s (A s) (b s) (ctr s) x y HA Hx Hy) as E.
    rewrite <-sec3_self in E. eexists. split; [exact E|]. proj3.
    rewrite !HL by (done || (apply makeChain_sized; (done || lia))).
    by rewrite (makeChain_keeps 2 (N_blocks s) ltac:(lia) false ltac:(done)) by (done || lia).
  - intros x Hx.
    pose proof (breakChain_eq s (A s) (b s) (ctr s) x HN HA Hx) as E.
    rewrite <-sec3_self in E. eexists. split; [exact E|]. proj3.
    rewrite !HL by (done || (apply breakChain_sized; (done || lia))).
    by rewrite (breakChain_keeps 2 (N_blocks s) ltac:(lia) false ltac:(done)) by (done || lia).
  - destruct (extend_eq s (A s) (b s) (ctr s) HN HA) as (c'' & E & _); [lia|].
    rewrite <-sec3_self in E. do 2 eexists. split; [exact E|]. proj3.
    destruct (extend_spec 2 (N_blocks s) ltac:(lia) false ltac:(done)
                (A s) (b s) (initv s) HA ltac:(lia)) as (HA' & _).
    rewrite !HL by done.
    pose proof (extend_keeps_last 2 (N_blocks s) ltac:(lia) false ltac:(done)
                  (A s) (b s) (initv s) c (Z.to_nat k) HA ltac:(lia) Hc Hbc Hp) as Hkeep.
    change (2 - 1) with 1 in Hkeep. by rewrite Hkeep.
Qed.

End Bookkeeping3.

Section Bookkeeping4.
Import InPlaceArraySec4.
Local Open Scope nat_scope.

Lemma sec4_self s : s = with_state s (A s) (b s) (flag s) (ctr s).
Proof. by destruct s. Qed.

Lemma first4_idx c t : first_of c + t = BlockAlg.idx 4 c t.
Proof. unfold first_of, BlockAlg.idx. rewrite Nat.shiftl_mul_pow2. simpl. lia. Qed.



End Bookkeeping4.



Lemma demo3_boundary_reachable : reachable demo3_boundary.
Proof. exists Vsec3, 4%nat. eexists. exists [OpInit 0; OpWrite 2%nat 5]. by split. Qed.

(** C6 as stated fails: the partner of a chained boundary block lies below
    [b], not at or above it. *)
Lemma boundary_partner_below :
  ~ (forall (s : InPlaceArraySec3.t) (k : Z),
       reachable (sec3 s) ->
       InPlaceArraySec3.chainedTo_block s (InPlaceArraySec3.b s) = Some k -> 0 <= k ->
       (InPlaceArraySec3.b s <= Z.to_nat k)%nat).
Proof.
  intros H. pose proof demo3_boundary_reachable as Hr. unfold demo3_boundary in Hr.
  specialize (H _ 0 Hr eq_refl ltac:(lia)). vm_compute in H. lia.
Qed.

(** C6, amended. In a reachable state of InPlaceArraySec3 whose boundary
    block [s = b] is chained to [bk], the partner lies below the boundary,
    [bk < b]. [extend] returns [bk], moves the boundary to [b + 1], stores
    the former [A[first_of bk + 1]] into [A[first_of s]], leaves
    [A[first_of s + 1]], which holds the value of that index, as it is,
    counts one relocation, and changes the value of no index. *)
Theorem extend_chained_boundary (s : InPlaceArraySec3.t) (k : Z) :
  reachable (sec3 s) ->
  InPlaceArraySec3.chainedTo_block s (InPlaceArraySec3.b s) = Some k -> 0 <= k ->
  let bs := InPlaceArraySec3.b s in
  let bk := Z.to_nat k in
  (bk < bs)%nat /\
  InPlaceArraySec3.A s !! (InPlaceArraySec3.first_of bs + 1)%nat =
    Some (sec3_value s (InPlaceArraySec3.first_of bs + 1)) /\
  exists s',
    InPlaceArraySec3.extend s = Some (bk, s') /\
    InPlaceArraySec3.b s' = S bs /\
    InPlaceArraySec3.A s' !! InPlaceArraySec3.first_of bs =
      InPlaceArraySec3.A s !! (InPlaceArraySec3.first_of bk + 1)%nat /\
    InPlaceArraySec3.A s' !! (InPlaceArraySec3.first_of bs + 1)%nat =
      InPlaceArraySec3.A s !! (InPlaceArraySec3.first_of bs + 1)%nat /\
    relocations (InPlaceArraySec3.ctr s') =
      wrap64 (relocations (InPlaceArraySec3.ctr s) + 1) /\
    forall i, (i < InPlaceArraySec3.N s)%nat -> sec3_value s' i = sec3_value s i.
Proof.
  intros Hr Hk Hk0. cbv zeta. set (bk := Z.to_nat k).
  apply reachable_wf in Hr. cbn [wf_array] in Hr.
  pose proof (sec3_sized s Hr) as HA. pose proof (InPlaceArraySec3.wf_N s Hr) as HN.
  assert (Hb : (InPlaceArraySec3.b s < InPlaceArraySec3.N_blocks s)%nat).
  { unfold InPlaceArraySec3.chainedTo_block in Hk.
    destruct (InPlaceArraySec3.A s !! _) eqn:E in Hk; [|done].
    apply lookup_lt_Some in E. rewrite first_of_0 in E.
    unfold BlockAlg.sized in HA. unfold BlockAlg.idx in E. lia. }
  pose proof (sec3_partner s _ k Hr Hb Hk Hk0) as Hp. fold bk in Hp.
  destruct (extend_restores 2 (InPlaceArraySec3.N_blocks s) ltac:(lia) false ltac:(done)
              (InPlaceArraySec3.A s) _ (InPlaceArraySec3.initv s) bk 0%nat HA Hb Hp
              ltac:(lia)) as (Hlt & Ef & Ec).
  destruct (extend_spec 2 (InPlaceArraySec3.N_blocks s) ltac:(lia) false ltac:(done)
              (InPlaceArraySec3.A s) _ (InPlaceArraySec3.initv s) HA Hb)
    as (HA' & _ & _ & _ & _ & _ & Hval).
  pose proof (extend_keeps_last 2 (InPlaceArraySec3.N_blocks s) ltac:(lia) false
                ltac:(done) (InPlaceArraySec3.A s) _ (InPlaceArraySec3.initv s) _ bk
                HA Hb Hb ltac:(lia) Hp) as Hkeep.
  change (2 - 1)%nat with 1%nat in Hkeep.
  destruct (extend_eq s (InPlaceArraySec3.A s) (InPlaceArraySec3.b s)
              (InPlaceArraySec3.ctr s) HN HA Hb) as (c'' & E & Hrel).
  rewrite <-sec3_self in E. rewrite Hp in Hrel. rewrite Ef in E.
  destruct (sec3_last_cell s (InPlaceArraySec3.b s) k Hr ltac:(lia) Hk Hk0) as ((x & X1 & X2 & X3) & _).
  split; [done|]. split.
  { rewrite X1. f_equal.
    rewrite sec3_read_ok in X3; [by injection X3 | done |].
    apply lookup_lt_Some in X1. destruct Hr as [-> <- _ _]. done. }
  eexists. split; [exact E|]. proj3. split; [done|].
  rewrite !first_of_1, first_of_0.
  rewrite !(lookup_cell 2 (InPlaceArraySec3.N_blocks s)) by (done || lia).
  split; [by rewrite Ec|]. split; [by rewrite Hkeep|]. split; [done|].
  intros i Hi. unfold sec3_value. proj3.
  destruct (sec3_block s i Hr Hi). by apply Hval.
Qed.

Lemma extend_chained_boundary_witness :
  exists s s', demo3_boundary = sec3 s /\
    InPlaceArraySec3.extend s = Some (0%nat, s') /\
    InPlaceArraySec3.A s' !! 2%nat = InPlaceArraySec3.A s !! 1%nat.
Proof.
  eexists.
  destruct (extend_chained_boundary _ 0 demo3_boundary_reachable eq_refl ltac:(lia))
    as (_ & _ & s' & E1 & _ & E2 & _).
  exists s'. split; [reflexivity|]. split; [exact E1 | exact E2].
Defined.
Local Open Scope Z_scope.

(** * Further properties of the code *)

(** ** The verifier *)

Lemma check_from_total s rd n : forall i,
  (forall j, (i <= j < i + n)%nat ->
     is_Some (VerifiableBase.expect s j) /\ is_Some (rd j)) ->
  is_Some (VerifiableBase.check_from s rd i n).
Proof.
  induction n as [|n IH]; intros i H; cbn [VerifiableBase.check_from]; [done|].
  destruct (H i) as [[e ->] [g ->]]; [lia|].
  destruct (negb (e =? g)); [done|]. apply IH. intros j Hj. apply H. lia.
Qed.

Lemma expect_total s i :
  VerifiableBase.wf s -> VerifiableBase.verifying s = true ->
  (i < VerifiableBase.N s)%nat -> is_Some (VerifiableBase.expect s i).
Proof.
  intros Hwf Hv Hi. destruct (Hwf Hv) as [H1 H2]. unfold VerifiableBase.expect.
  destruct (lookup_lt_is_Some_2 (VerifiableBase.stamp s) i) as [e ->]; [lia|].
  destruct (e =? _); [|done]. apply lookup_lt_is_Some_2. lia.
Qed.

Lemma shadow_check_total s rd :
  VerifiableBase.wf s ->
  (forall j, (j < VerifiableBase.N s)%nat -> is_Some (rd j)) ->
  is_Some (VerifiableBase.shadow_check_against rd s).
Proof.
  intros Hwf Hrd. unfold VerifiableBase.shadow_check_against.
  destruct (VerifiableBase.verifying s) eqn:Hv; cbn [negb]; [|done].
  apply check_from_total. intros j Hj. split; [apply expect_total; (done || lia)|].
  apply Hrd. lia.
Qed.

Lemma forallb_seq_true (f : nat -> bool) n :
  (forall i, (i < n)%nat -> f i = true) -> forallb f (seq 0 n) = true.
Proof.
  intros H. apply forallb_forall. intros i Hi. apply in_seq in Hi. apply H. lia.
Qed.

Lemma shadow_check_holds s m rd :
  shadow_holds s m ->
  (forall j, (j < VerifiableBase.N s)%nat -> rd j = Some (m j)) ->
  VerifiableBase.shadow_check_against rd s = Some true.
Proof.
  intros Hs Hrd. unfold VerifiableBase.shadow_check_against.
  destruct Hs as (Hv & Hrest). rewrite Hv. cbn [negb].
  rewrite (check_from_eq s m rd m).
  - f_equal. apply forallb_seq_true. intros i _. apply Z.eqb_refl.
  - intros j Hj. split; [|apply Hrd; lia].
    apply expect_holds; [done | lia].
Qed.

Section Verify3.
Import InPlaceArraySec3.
Local Open Scope nat_scope.

Lemma sec3_read_impl_value s i :
  wf s -> i < N s -> read_impl s i = Some (sec3_value s i).
Proof.
  intros Hwf Hi. destruct (sec3_block s i Hwf Hi).
  rewrite (index_split i) at 1.
  rewrite read_impl_eq; [done | apply Hwf | by apply sec3_sized | done..].
Qed.

(** A chain is a pair of blocks on opposite sides of [b] that point at
    each other. *)
Lemma sec3_chain_pair s c k :
  wf s -> c < N_blocks s -> chainedTo_block s c = Some k ->
  k = (-1)%Z \/
  exists p, k = Z.of_nat p /\ p < N_blocks s /\ (c < b s <= p \/ p < b s <= c) /\
    chainedTo_block s p = Some (Z.of_nat c) /\
    A s !! first_of p = Some (Z.of_nat (first_of c)).
Proof.
  intros Hwf Hc Hk. pose proof (sec3_sized s Hwf) as HA. pose proof (wf_N s Hwf) as HN.
  rewrite chainedTo_block_eq in Hk by done. injection Hk as <-.
  destruct (BlockAlg.partner 2 (N_blocks s) (A s) (b s) c) as [p|] eqn:E; [right|by left].
  pose proof (partner_lt 2 (N_blocks s) ltac:(lia) _ _ _ _ Hc E) as Hp.
  exists p. split; [done|]. split; [done|]. split.
  { by apply (partner_cross 2 (N_blocks s) ltac:(lia)) in E. }
  split.
  - rewrite chainedTo_block_eq by done.
    by rewrite (partner_sym 2 (N_blocks s) ltac:(lia) _ _ _ _ Hc E).
  - apply (partner_Some 2 (N_blocks s) ltac:(lia)) in E as (_ & E & _); [|done].
    apply (dec_Some 2 (N_blocks s) ltac:(lia)) in E as [E _].
    rewrite !first_of_0, (lookup_cell 2 (N_blocks s)) by (done || lia).
    by rewrite E.
Qed.

Lemma sec3_chains s n : forall i,
  wf s -> i + n <= N_blocks s -> chains_from s i n = Some true.
Proof.
  induction n as [|n IH]; intros i Hwf Hi; cbn [chains_from]; [done|].
  destruct (chainedTo_block s i) as [k|] eqn:Hk.
  - destruct (sec3_chain_pair s i k Hwf ltac:(lia) Hk)
      as [->|(p & -> & Hp & _ & _ & HA)].
    + cbn. apply IH; (done || lia).
    + destruct (Z.leb_spec 0 (Z.of_nat p)); [|lia].
      rewrite Nat2Z.id, HA, Z.eqb_refl. cbn [negb]. apply IH; (done || lia).
  - pose proof (sec3_sized s Hwf). rewrite chainedTo_block_eq in Hk; [done|apply Hwf|done|lia].
Qed.

Lemma sec3_verify_total s :
  wf s ->
  exists r, VerifiableBase.shadow_check_against (read_impl s) (base s) = Some r /\
            verify_correctness s = Some r.
Proof.
  intros Hwf. unfold verify_correctness.
  destruct (shadow_check_total (base s) (read_impl s)) as [r Hr].
  - apply Hwf.
  - intros j Hj. rewrite sec3_read_impl_value by done. done.
  - exists r. split; [done|]. rewrite Hr. destruct r; [|done].
    apply sec3_chains; (done || lia).
Qed.

Lemma sec3_verify_holds s m :
  wf s -> shadow_holds (base s) m -> (forall i, i < N s -> sec3_value s i = m i) ->
  verify_correctness s = Some true.
Proof.
  intros Hwf Hs Hm. unfold verify_correctness.
  rewrite (shadow_check_holds (base s) m).
  - apply sec3_chains; (done || lia).
  - done.
  - intros j Hj. rewrite sec3_read_impl_value by done. by rewrite Hm.
Qed.

End Verify3.

Section Verify4.
Import InPlaceArraySec4.
Local Open Scope nat_scope.

Lemma sec4_read_impl_value s i :
  wf s -> i < N s -> read_impl s i = Some (sec4_value s i).
Proof.
  intros Hwf Hi. destruct (sec4_block s i Hwf Hi).
  rewrite (index4_split i) at 1.
  rewrite read_impl4_eq;
    [done | apply Hwf | by apply sec4_sized | apply Hwf | apply Hwf | done..].
Qed.

Lemma sec4_chain_pair s c k :
  wf s -> c < N_blocks s -> chainedTo_block s c = Some k ->
  k = (-1)%Z \/
  exists p, k = Z.of_nat p /\ p < N_blocks s /\ (c < b s <= p \/ p < b s <= c) /\
    chainedTo_block s p = Some (Z.of_nat c) /\
    A s !! first_of p = Some (Z.of_nat (first_of c)).
Proof.
  intros Hwf Hc Hk. pose proof (sec4_sized s Hwf) as HA. pose proof (wf_N s Hwf) as HN.
  rewrite chainedTo_block4_eq in Hk by done. injection Hk as <-.
  destruct (BlockAlg.partner 4 (N_blocks s) (A s) (b s) c) as [p|] eqn:E; [right|by left].
  pose proof (partner_lt 4 (N_blocks s) ltac:(lia) _ _ _ _ Hc E) as Hp.
  exists p. split; [done|]. split; [done|]. split.
  { by apply (partner_cross 4 (N_blocks s) ltac:(lia)) in E. }
  split.
  - rewrite chainedTo_block4_eq by done.
    by rewrite (partner_sym 4 (N_blocks s) ltac:(lia) _ _ _ _ Hc E).
  - apply (partner_Some 4 (N_blocks s) ltac:(lia)) in E as (_ & E & _); [|done].
    apply (dec_Some 4 (N_blocks s) ltac:(lia)) in E as [E _].
    rewrite !first4_0, (lookup_cell 4 (N_blocks s)) by (done || lia).
    by rewrite E.
Qed.

Lemma sec4_chains s n : forall i,
  wf s -> i + n <= N_blocks s -> chains_from s i n = Some true.
Proof.
  induction n as [|n IH]; intros i Hwf Hi; cbn [chains_from]; [done|].
  destruct (chainedTo_block s i) as [k|] eqn:Hk.
  - destruct (sec4_chain_pair s i k Hwf ltac:(lia) Hk)
      as [->|(p & -> & Hp & _ & _ & HA)].
    + cbn. apply IH; (done || lia).
    + destruct (Z.leb_spec 0 (Z.of_nat p)); [|lia].
      rewrite Nat2Z.id, HA, Z.eqb_refl. cbn [negb]. apply IH; (done || lia).
  - pose proof (sec4_sized s Hwf).
    rewrite chainedTo_block4_eq in Hk; [done|apply Hwf|done|lia].
Qed.

Lemma sec4_verify_total s :
  wf s ->
  exists r, VerifiableBase.shadow_check_against (read_impl s) (base s) = Some r /\
            verify_correctness s = Some r.
Proof.
  intros Hwf. unfold verify_correctness.
  destruct (shadow_check_total (base s) (read_impl s)) as [r Hr].
  - apply Hwf.
  - intros j Hj. rewrite sec4_read_impl_value by done. done.
  - exists r. split; [done|]. rewrite Hr. destruct r; [|done].
    apply sec4_chains; (done || lia).
Qed.

Lemma sec4_verify_holds s m :
  wf s -> shadow_holds (base s) m -> (forall i, i < N s -> sec4_value s i = m i) ->
  verify_correctness s = Some true.
Proof.
  intros Hwf Hs Hm. unfold verify_correctness.
  rewrite (shadow_check_holds (base s) m).
  - apply sec4_chains; (done || lia).
  - done.
  - intros j Hj. rewrite sec4_read_impl_value by done. by rewrite Hm.
Qed.

(** The public [write] mirrors the store into the shadow. *)
Lemma sec4_write_base s i v s' :
  wf s -> i < N s -> write i v s = Normal tt s' ->
  VerifiableBase.shadow_on_write i v (base s) = Some (base s').
Proof.
  intros Hwf Hi. unfold write. cbv zeta.
  change (N (set_ctr (inc_writes (ctr s)) s)) with (N s).
  destruct (Nat.leb_spec (N s) i); [lia|].
  destruct (sec4_block s i Hwf Hi) as [Hc Ho].
  pose proof (sec4_sized s Hwf) as HA.
  destruct (write_impl4_eq s (A s) (b s) (inc_writes (ctr s)) (i / 4) (i mod 4) v)
    as [c'' Hw]; [apply Hwf | done | apply Hwf | done..|].
  rewrite <-(index4_split i) in Hw.
  change (set_ctr (inc_writes (ctr s)) s)
    with (with_state s (A s) (b s) (flag s) (inc_writes (ctr s))).
  rewrite (wf_flag s Hwf), Hw. clear Hw.
  unfold verifying. proj4.
  destruct (VerifiableBase.verifying (base s)) eqn:Ev.
  - destruct (shadow_on_write_ok (base s) i v) as (vb' & E1 & _);
      [apply Hwf | done |].
    rewrite E1. by intros [= <-].
  - intros [= <-]. proj4. unfold VerifiableBase.shadow_on_write. by rewrite Ev.
Qed.

Lemma sec4_init_base s v s' :
  wf s -> init v s = Normal tt s' ->
  base s' = VerifiableBase.shadow_on_init v (base s).
Proof.
  intros Hwf. unfold init. cbv zeta.
  pose proof (sec4_sized s Hwf) as HA.
  change (set_flag _ (set_b 0 (set_initv v (set_ctr (inc_inits (ctr s)) s))))
    with (with_state (set_initv v s) (A s) 0 (N_blocks s =? 0) (inc_inits (ctr s))).
  rewrite sync_meta_eq by done. by intros [= <-].
Qed.

End Verify4.

(** ** An array and its shadow, in step *)

Section InStep.
Local Open Scope nat_scope.

Lemma set_counters_value c a i : value (set_counters c a) i = value a i.
Proof. by destruct a. Qed.

Lemma set_counters_N c a : array_N (set_counters c a) = array_N a.
Proof. by destruct a. Qed.

Lemma set_counters_shadow c a : shadow_of (set_counters c a) = shadow_of a.
Proof. by destruct a. Qed.

Lemma set_counters_in_step c a m : in_step a m -> in_step (set_counters c a) m.
Proof.
  intros (H1 & H2 & H3). split; [by apply set_counters_wf|]. split.
  - intros i. rewrite set_counters_N, set_counters_value. apply H2.
  - by rewrite set_counters_shadow.
Qed.

(** A call with an index past the end throws and counts. *)
Lemma read_past_end a i :
  array_N a <= i ->
  read i a = Throws IndexOutOfRange (set_counters (inc_reads (get_counters a)) a).
Proof.
  intros Hi. destruct a as [s|s|s]; cbn [array_N read] in *.
  - unfold StdVectorWrapper.read, StdVectorWrapper.bounds. cbn [StdVectorWrapper.N].
    destruct (Nat.leb_spec (StdVectorWrapper.N s) i); [done | lia].
  - unfold InPlaceArraySec3.read. cbv zeta.
    change (InPlaceArraySec3.N (InPlaceArraySec3.set_ctr _ s)) with (InPlaceArraySec3.N s).
    destruct (Nat.leb_spec (InPlaceArraySec3.N s) i); [done | lia].
  - unfold InPlaceArraySec4.read. cbv zeta.
    change (InPlaceArraySec4.N (InPlaceArraySec4.set_ctr _ s)) with (InPlaceArraySec4.N s).
    destruct (Nat.leb_spec (InPlaceArraySec4.N s) i); [done | lia].
Qed.

Lemma write_past_end a i v :
  array_N a <= i ->
  write i v a = Throws IndexOutOfRange (set_counters (inc_writes (get_counters a)) a).
Proof.
  intros Hi. destruct a as [s|s|s]; cbn [array_N write] in *.
  - unfold StdVectorWrapper.write, StdVectorWrapper.bounds. cbn [StdVectorWrapper.N].
    destruct (Nat.leb_spec (StdVectorWrapper.N s) i); [done | lia].
  - unfold InPlaceArraySec3.write. cbv zeta.
    change (InPlaceArraySec3.N (InPlaceArraySec3.set_ctr _ s)) with (InPlaceArraySec3.N s).
    destruct (Nat.leb_spec (InPlaceArraySec3.N s) i); [done | lia].
  - unfold InPlaceArraySec4.write. cbv zeta.
    change (InPlaceArraySec4.N (InPlaceArraySec4.set_ctr _ s)) with (InPlaceArraySec4.N s).
    destruct (Nat.leb_spec (InPlaceArraySec4.N s) i); [done | lia].
Qed.

Lemma in_step_read a m i :
  in_step a m -> i < array_N a ->
  exists a', read i a = Normal (m i) a' /\ array_N a' = array_N a /\ in_step a' m.
Proof.
  intros Hs Hi. pose proof Hs as (H1 & H2 & H3).
  rewrite read_ok, H2 by done. eexists. split; [done|].
  split; [apply set_counters_N | by apply set_counters_in_step].
Qed.

Lemma in_step_init a m v :
  in_step a m ->
  exists a', init v a = Normal tt a' /\ array_N a' = array_N a /\
    in_step a' (fun _ => v).
Proof.
  intros (H1 & H2 & H3).
  destruct (init_ok a v H1) as (a' & E1 & E2 & E3 & E4).
  exists a'. split; [done|]. split; [done|]. split; [done|].
  split; [intros i Hi; apply E4; lia|].
  destruct a as [s|s|s]; cbn [init lift_outcome shadow_of] in *.
  - by injection E1 as <-.
  - injection E1 as <-. cbn [shadow_of]. proj3. by apply (init_holds _ m).
  - destruct (InPlaceArraySec4.init v s) as [[] s'| |] eqn:E; [|done..].
    injection E1 as <-. cbn [shadow_of].
    rewrite (sec4_init_base s v s' H1 E). by apply (init_holds _ m).
Qed.

Lemma in_step_write a m i v :
  in_step a m -> i < array_N a ->
  exists a', write i v a = Normal tt a' /\ array_N a' = array_N a /\
    in_step a' (fun j => if (j =? i)%nat then v else m j).
Proof.
  intros (H1 & H2 & H3) Hi.
  destruct (write_ok a i v H1 Hi) as (a' & E1 & E2 & E3 & E4).
  exists a'. split; [done|]. split; [done|]. split; [done|].
  split.
  { intros j Hj. rewrite E4 by lia.
    destruct (decide (j = i)) as [->|D]; [by rewrite Nat.eqb_refl|].
    destruct (Nat.eqb_spec j i); [done|]. apply H2. lia. }
  destruct a as [s|s|s]; cbn [write lift_outcome shadow_of array_N wf_array] in *.
  - destruct (StdVectorWrapper.write i v s) as [[] s'| |]; cbn [lift_outcome] in E1;
      [|done..]. by injection E1 as <-.
  - destruct (sec3_write_ok s i v H1 Hi) as (s' & W1 & _ & _ & _ & _ & _ & _ & W8).
    rewrite W1 in E1. injection E1 as <-. cbn [shadow_of].
    destruct (write_holds _ m i v H3) as (vb & V1 & V2 & V3); [done|].
    rewrite W8 in V1. by injection V1 as <-.
  - destruct (InPlaceArraySec4.write i v s) as [[] s'| |] eqn:E; [|done..].
    injection E1 as <-. cbn [shadow_of].
    pose proof (sec4_write_base s i v s' H1 Hi E) as W8.
    destruct (write_holds _ m i v H3) as (vb & V1 & V2 & V3); [done|].
    rewrite W8 in V1. by injection V1 as <-.
Qed.

Lemma in_step_verify a m : in_step a m -> verify_correctness a = Some true.
Proof.
  intros (H1 & H2 & H3). destruct a as [s|s|s]; cbn in *; [done| |].
  - by apply (sec3_verify_holds s m).
  - by apply (sec4_verify_holds s m).
Qed.

Lemma sec3_new_fresh n s :
  InPlaceArraySec3.new n = inr s ->
  InPlaceArraySec3.N s = n /\ InPlaceArraySec3.b s = 0 /\ InPlaceArraySec3.initv s = 0%Z.
Proof. unfold InPlaceArraySec3.new. repeat case_match; [done..|]. by intros [= <-]. Qed.

Lemma sec4_new_fresh n s :
  InPlaceArraySec4.new n = inr s ->
  InPlaceArraySec4.N s = n /\ InPlaceArraySec4.b s = 0 /\ InPlaceArraySec4.initv s = 0%Z.
Proof. unfold InPlaceArraySec4.new. repeat case_match; [done..|]. by intros [= <-]. Qed.

Lemma make_fresh v n a :
  make v n = inr a -> array_N a = n /\ forall i, i < n -> value a i = 0%Z.
Proof.
  intros Hm. pose proof (make_wf v n a Hm) as Hwf.
  destruct v; cbn [make] in Hm.
  - injection Hm as <-. split; [done|].
    intros i Hi. cbn. rewrite lookup_total_replicate_2; [done | lia].
  - destruct (InPlaceArraySec3.new n) as [|s] eqn:E; [done|]. injection Hm as <-.
    destruct (sec3_new_fresh n s E) as (HN & Hb & Hv). split; [done|].
    intros i Hi. cbn [value]. rewrite sec3_value_init; (done || lia).
  - destruct (InPlaceArraySec4.new n) as [|s] eqn:E; [done|]. injection Hm as <-.
    destruct (sec4_new_fresh n s E) as (HN & Hb & Hv). split; [done|].
    intros i Hi. cbn [value]. rewrite sec4_value_init; (done || lia).
Qed.

Lemma enable_value a i : value (enable_verification a) i = value a i.
Proof. by destruct a. Qed.

Lemma enable_N a : array_N (enable_verification a) = array_N a.
Proof. by destruct a. Qed.

Lemma enable_wf a : wf_array a -> wf_array (enable_verification a).
Proof.
  destruct a as [s|s|s]; cbn; [done| |]; intros []; split; try done;
    apply enable_base_wf.
Qed.

Lemma in_step_make v n a0 :
  make v n = inr a0 ->
  array_N a0 = n /\ in_step (enable_verification a0) (fun _ => 0%Z).
Proof.
  intros Hm. pose proof (make_wf v n a0 Hm) as Hwf.
  destruct (make_fresh v n a0 Hm) as [HN Hval]. split; [done|].
  split; [by apply enable_wf|]. split.
  - intros i Hi. rewrite enable_N in Hi. rewrite enable_value. apply Hval. lia.
  - destruct a0 as [s|s|s]; cbn [enable_verification shadow_of]; [done| |];
      apply enable_holds.
Qed.

End InStep.

Section Runs.
Local Open Scope nat_scope.

Lemma reset_counters_eq a : reset_counters a = set_counters Counters0 a.
Proof. by destruct a. Qed.

Lemma in_step_step o a m :
  in_step a m -> plain o ->
  exists a' m', step o a = Some a' /\ array_N a' = array_N a /\ in_step a' m'.
Proof.
  intros Hs Hp. destruct o as [v|i|i v| |]; cbn [step].
  - destruct (in_step_init a m v Hs) as (a' & -> & H1 & H2). by exists a', (fun _ => v).
  - destruct (Nat.lt_ge_cases i (array_N a)) as [Hi|Hi].
    + destruct (in_step_read a m i Hs Hi) as (a' & -> & H1 & H2). by exists a', m.
    + rewrite read_past_end by done. eexists. exists m. split; [done|].
      split; [apply set_counters_N | by apply set_counters_in_step].
  - destruct (Nat.lt_ge_cases i (array_N a)) as [Hi|Hi].
    + destruct (in_step_write a m i v Hs Hi) as (a' & -> & H1 & H2).
      by exists a', (fun j => if (j =? i)%nat then v else m j).
    + rewrite write_past_end by done. eexists. exists m. split; [done|].
      split; [apply set_counters_N | by apply set_counters_in_step].
  - eexists. exists m. split; [done|]. rewrite reset_counters_eq.
    split; [apply set_counters_N | by apply set_counters_in_step].
  - by destruct Hp.
Qed.

Lemma in_step_run ops : forall a m,
  in_step a m -> Forall plain ops ->
  exists a' m', run ops a = Some a' /\ array_N a' = array_N a /\ in_step a' m'.
Proof.
  induction ops as [|o ops IH]; intros a m Hs Hp; cbn [run].
  - by exists a, m.
  - apply Forall_cons in Hp as [Ho Hp].
    destruct (in_step_step o a m Hs Ho) as (a1 & m1 & -> & H1 & H2).
    destruct (IH a1 m1 H2 Hp) as (a' & m' & E1 & E2 & E3).
    exists a', m'. split; [done|]. split; [congruence | done].
Qed.

Lemma operations_pass n ds : forall r d m,
  in_step r m -> in_step d m -> array_N r = n -> array_N d = n ->
  Forall (drawn_below n) ds -> operations ds r d = Some true.
Proof.
  induction ds as [|x ds IH]; intros r d m Hr Hd Nr Nd Hds; cbn [operations].
  - by apply (in_step_verify d m).
  - apply Forall_cons in Hds as [Hx Hds]. destruct x as [v|i|i v]; cbn in Hx.
    + destruct (in_step_init r m v Hr) as (r' & -> & R1 & R2).
      destruct (in_step_init d m v Hd) as (d' & -> & D1 & D2).
      cbn [try_call]. apply (IH r' d' (fun _ => v)); (done || congruence).
    + destruct (in_step_read r m i Hr) as (r' & -> & R1 & R2); [lia|].
      destruct (in_step_read d m i Hd) as (d' & -> & D1 & D2); [lia|].
      cbn [try_call]. rewrite Z.eqb_refl. cbn [negb].
      apply (IH r' d' m); (done || congruence).
    + destruct (in_step_write r m i v Hr) as (r' & -> & R1 & R2); [lia|].
      destruct (in_step_write d m i v Hd) as (d' & -> & D1 & D2); [lia|].
      cbn [try_call]. eapply IH; (done || congruence).
Qed.

(** Two arrays with the same contents show the same to their callers. *)
Lemma trace_agree ops : forall a r,
  wf_array a -> wf_array r -> array_N a = array_N r ->
  (forall i, i < array_N a -> value a i = value r i) ->
  exists t, trace ops a = Some t /\ trace ops r = Some t.
Proof.
  induction ops as [|o ops IH]; intros a r Ha Hr HN Hv; cbn [trace].
  - by exists [].
  - assert (Hc : forall c c', exists t,
              trace ops (set_counters c a) = Some t /\
              trace ops (set_counters c' r) = Some t).
    { intros c c'. apply IH.
      - by apply set_counters_wf.
      - by apply set_counters_wf.
      - by rewrite !set_counters_N.
      - intros j. rewrite set_counters_N, !set_counters_value. apply Hv. }
    destruct o as [v|i|i v| |]; cbn [observe].
    + destruct (init_ok a v Ha) as (a' & -> & A1 & A2 & A3).
      destruct (init_ok r v Hr) as (r' & -> & R1 & R2 & R3). cbn [seen].
      destruct (IH a' r') as (t & -> & ->); [done | done | congruence | |by eexists].
      intros j Hj. rewrite A3, R3; (done || lia).
    + destruct (Nat.lt_ge_cases i (array_N a)) as [Hi|Hi].
      * rewrite !read_ok by (done || lia). rewrite <-Hv by done. cbn [seen].
        destruct (Hc (inc_reads (get_counters a)) (inc_reads (get_counters r)))
          as (t & -> & ->). by eexists.
      * rewrite !read_past_end by lia. cbn [seen].
        destruct (Hc (inc_reads (get_counters a)) (inc_reads (get_counters r)))
          as (t & -> & ->). by eexists.
    + destruct (Nat.lt_ge_cases i (array_N a)) as [Hi|Hi].
      * destruct (write_ok a i v Ha Hi) as (a' & -> & A1 & A2 & A3).
        destruct (write_ok r i v Hr) as (r' & -> & R1 & R2 & R3); [lia|].
        cbn [seen].
        destruct (IH a' r') as (t & -> & ->); [done | done | congruence | |by eexists].
        intros j Hj. rewrite A3, R3 by lia. case_decide; [done|]. apply Hv. lia.
      * rewrite !write_past_end by lia. cbn [seen].
        destruct (Hc (inc_writes (get_counters a)) (inc_writes (get_counters r)))
          as (t & -> & ->). by eexists.
    + rewrite (reset_counters_eq a), (reset_counters_eq r).
      destruct (Hc Counters0 Counters0) as (t & -> & ->). by eexists.
    + destruct (IH (enable_verification a) (enable_verification r))
        as (t & -> & ->); [by apply enable_wf | by apply enable_wf | | | by eexists].
      * by rewrite !enable_N.
      * intros j. rewrite enable_N, !enable_value. apply Hv.
Qed.

(** The constructors of the in-place classes accept the positive multiples
    of the block size. *)
Lemma make_in_place v n :
  v <> Vstd_vector ->
  if decide (n = 0 \/ n mod block_size v <> 0)
  then make v n = inl InvalidSize
  else exists a, make v n = inr a.
Proof.
  intros Hv. destruct v; [done| |]; cbn [make block_size].
  - unfold InPlaceArraySec3.new.
    destruct (Nat.eqb_spec n 0); [by rewrite decide_True by lia|].
    destruct (Nat.eqb_spec (n mod 2) 0); cbn [negb sum_map].
    + rewrite decide_False by lia. by eexists.
    + by rewrite decide_True by lia.
  - unfold InPlaceArraySec4.new.
    destruct (Nat.eqb_spec n 0); [by rewrite decide_True by lia|].
    destruct (Nat.eqb_spec (n mod 4) 0); cbn [negb sum_map].
    + rewrite decide_False by lia. by eexists.
    + by rewrite decide_True by lia.
Qed.

Lemma dut_of_in_place impl_name v : dut_of impl_name = Some v -> v <> Vstd_vector.
Proof. unfold dut_of. repeat case_bool_decide; naive_solver. Qed.

Lemma init_name v a x a' : init v a = Normal x a' -> name a' = name a.
Proof.
  destruct a as [s|s|s]; cbn [init];
    [destruct (StdVectorWrapper.init v s)
    |destruct (InPlaceArraySec3.init v s)
    |destruct (InPlaceArraySec4.init v s)];
    cbn [lift_outcome]; intros; by simplify_eq.
Qed.

Lemma write_name i v a x a' : write i v a = Normal x a' -> name a' = name a.
Proof.
  destruct a as [s|s|s]; cbn [write];
    [destruct (StdVectorWrapper.write i v s)
    |destruct (InPlaceArraySec3.write i v s)
    |destruct (InPlaceArraySec4.write i v s)];
    cbn [lift_outcome]; intros; by simplify_eq.
Qed.

(** No call leads to undefined behaviour, and none changes the size. *)
Lemma step_total o a :
  wf_array a ->
  exists a', step o a = Some a' /\ wf_array a' /\ array_N a' = array_N a /\
             name a' = name a.
Proof.
  intros Hwf.
  assert (Hn : forall c, name (set_counters c a) = name a) by (by destruct a).
  destruct o as [v|i|i v| |]; cbn [step].
  - destruct (init_ok a v Hwf) as (a' & E & H1 & H2 & _). exists a'. rewrite E.
    repeat split; try done. by apply init_name in E.
  - destruct (Nat.lt_ge_cases i (array_N a)) as [Hi|Hi].
    + rewrite read_ok by done. eexists. split; [done|].
      split; [by apply set_counters_wf|]. by rewrite set_counters_N.
    + rewrite read_past_end by done. eexists. split; [done|].
      split; [by apply set_counters_wf|]. by rewrite set_counters_N.
  - destruct (Nat.lt_ge_cases i (array_N a)) as [Hi|Hi].
    + destruct (write_ok a i v Hwf Hi) as (a' & E & H1 & H2 & _). exists a'. rewrite E.
      repeat split; try done. by apply write_name in E.
    + rewrite write_past_end by done. eexists. split; [done|].
      split; [by apply set_counters_wf|]. by rewrite set_counters_N.
  - eexists. split; [done|]. rewrite reset_counters_eq.
    split; [by apply set_counters_wf|]. by rewrite set_counters_N.
  - eexists. split; [done|]. split; [by apply enable_wf|].
    split; [apply enable_N | by destruct a].
Qed.

Lemma run_total ops : forall a,
  wf_array a ->
  exists a', run ops a = Some a' /\ wf_array a' /\ array_N a' = array_N a /\
             name a' = name a.
Proof.
  induction ops as [|o ops IH]; intros a Hwf; cbn [run]; [by exists a|].
  destruct (step_total o a Hwf) as (a1 & -> & H1 & H2 & H3).
  destruct (IH a1 H1) as (a' & E & H4 & H5 & H6).
  exists a'. split; [done|]. split; [done|]. split; congruence.
Qed.

Lemma make_name v n a : make v n = inr a -> name a = v.
Proof. destruct v; cbn; unfold sum_map; repeat case_match; naive_solver. Qed.

(** A reachable state, with the size it was constructed with. *)
Lemma reachable_size a :
  reachable a <->
  exists a0 ops, make (name a) (array_N a) = inr a0 /\ run ops a0 = Some a.
Proof.
  split.
  - intros (v & n & a0 & ops & Hm & Hr).
    destruct (run_total ops a0 (make_wf _ _ _ Hm)) as (a' & E & _ & H1 & H2).
    rewrite Hr in E. injection E as <-.
    destruct (make_fresh v n a0 Hm) as [HN _]. rewrite (make_name v n a0 Hm) in H2.
    exists a0, ops. split; [|done]. by rewrite H2, H1, HN.
  - intros (a0 & ops & Hm & Hr). by exists (name a), (array_N a), a0, ops.
Qed.

(** The in-place arrays have at least one block. *)
Lemma reachable_positive a :
  reachable a -> name a <> Vstd_vector ->
  array_N a <> 0 /\ array_N a mod block_size (name a) = 0.
Proof.
  intros Hr Hn. apply reachable_size in Hr as (a0 & ops & Hm & _).
  pose proof (make_in_place (name a) (array_N a) Hn) as H.
  case_decide as D; [congruence|]. lia.
Qed.

End Runs.

(** ** What the counters record *)

Lemma charged_refl c : charged 0 0 c c.
Proof. repeat split; by exists 0%nat. Qed.

Lemma charged_trans r1 k1 r2 k2 c1 c2 c3 :
  charged r1 k1 c1 c2 -> charged r2 k2 c2 c3 -> charged (r1 + r2) (k1 + k2) c1 c3.
Proof.
  intros (A1 & A2 & A3 & (j1 & A4 & A5) & (i1 & A6 & A7))
         (B1 & B2 & B3 & (j2 & B4 & B5) & (i2 & B6 & B7)).
  repeat split; try congruence.
  - exists (j2 + j1)%nat. split; [lia|]. by rewrite Nat.iter_add, <-A5.
  - exists (i2 + i1)%nat. split; [lia|]. by rewrite Nat.iter_add, <-A7.
Qed.

Lemma charged_weaken r k r' k' c c' :
  charged r k c c' -> (r <= r')%nat -> (k <= k')%nat -> charged r' k' c c'.
Proof.
  intros (A1 & A2 & A3 & (j1 & A4 & A5) & (i1 & A6 & A7)) Hr Hk.
  repeat split; try done; [exists j1 | exists i1]; split; (done || lia).
Qed.

Lemma charged_conversion c : charged 0 1 c (inc_conversions c).
Proof. repeat split; [by exists 0%nat | by exists 1%nat]. Qed.

Lemma charged_relocation c : charged 1 0 c (inc_relocations c).
Proof. repeat split; [by exists 1%nat | by exists 0%nat]. Qed.

Section Costs.
Context {S : Type} (ctr : S -> Counters).

Lemma costs_ret {X} (x : X) : costs ctr 0 0 (ret x).
Proof. intros s y s' [= <- <-]. apply charged_refl. Qed.

Lemma costs_gets {X} (g : S -> X) : costs ctr 0 0 (gets g).
Proof. intros s y s' [= <- <-]. apply charged_refl. Qed.

Lemma costs_call {X} (g : S -> option X) : costs ctr 0 0 (call g).
Proof.
  intros s y s'. unfold call. destruct (g s); [|done].
  intros [= <- <-]. apply charged_refl.
Qed.

Lemma costs_bind {X Y} r1 k1 r2 k2 (m : M S X) (f : X -> M S Y) :
  costs ctr r1 k1 m -> (forall x, costs ctr r2 k2 (f x)) ->
  costs ctr (r1 + r2) (k1 + k2) (bind m f).
Proof.
  intros Hm Hf s y s'. unfold bind. destruct (m s) as [[x s1]|] eqn:E; [|done].
  intros E2. eapply charged_trans; [by eapply Hm | by eapply Hf].
Qed.

Lemma costs_if {X} r1 k1 r2 k2 (c : bool) (m1 m2 : M S X) :
  costs ctr r1 k1 m1 -> costs ctr r2 k2 m2 ->
  costs ctr (Nat.max r1 r2) (Nat.max k1 k2) (if c then m1 else m2).
Proof.
  intros H1 H2 s y s' E. destruct c.
  - eapply charged_weaken; [by eapply H1 | lia..].
  - eapply charged_weaken; [by eapply H2 | lia..].
Qed.

Lemma costs_weaken {X} r k r' k' (m : M S X) :
  costs ctr r k m -> (r <= r')%nat -> (k <= k')%nat -> costs ctr r' k' m.
Proof. intros H Hr Hk s y s' E. eapply charged_weaken; [by eapply H | done..]. Qed.

Lemma costs_modify r k (g : S -> S) :
  (forall s, charged r k (ctr s) (ctr (g s))) -> costs ctr r k (modify g).
Proof. intros H s y s' [= <- <-]. apply H. Qed.

End Costs.

Ltac costs_step :=
  first
    [ apply costs_ret | apply costs_gets | apply costs_call
    | eapply costs_bind; [|intros ?]
    | eapply costs_if
    | apply costs_modify; intros ?; first
        [ apply charged_refl | apply charged_conversion | apply charged_relocation ] ].

Section Costs3.
Import InPlaceArraySec3.

Lemma st3_costs i v : costs ctr 0 0 (st i v).
Proof.
  intros s y s'. unfold st. case_decide; [|done]. intros [= <- <-]. apply charged_refl.
Qed.

Lemma ld3_costs i : costs ctr 0 0 (ld i).
Proof. apply costs_call. Qed.

Lemma makeChain3_costs x y : costs ctr 0 1 (makeChain x y).
Proof.
  unfold makeChain. eapply costs_weaken;
    [repeat first [apply st3_costs | costs_step] | cbn; lia..].
Qed.

Lemma breakChain3_costs x : costs ctr 0 1 (breakChain x).
Proof.
  unfold breakChain. eapply costs_weaken;
    [repeat first [apply st3_costs | costs_step] | cbn; lia..].
Qed.

Lemma initBlock3_costs x : costs ctr 0 0 (initBlock x).
Proof.
  unfold initBlock. eapply costs_weaken;
    [repeat first [apply st3_costs | costs_step] | cbn; lia..].
Qed.

Lemma swap3_costs x y : costs ctr 0 0 (swap x y).
Proof.
  unfold swap. eapply costs_weaken;
    [repeat first [apply st3_costs | apply ld3_costs | costs_step] | cbn; lia..].
Qed.

Ltac costs3 :=
  repeat first
    [ apply st3_costs | apply ld3_costs | apply makeChain3_costs
    | apply breakChain3_costs | apply initBlock3_costs | apply swap3_costs
    | costs_step ].

Lemma extend3_costs : costs ctr 1 2 extend.
Proof. unfold extend. eapply costs_weaken; [costs3 | cbn; lia..]. Qed.

Lemma write_impl3_costs i v : costs ctr 2 4 (write_impl i v).
Proof.
  unfold write_impl. cbv zeta. eapply costs_weaken;
    [repeat first [apply extend3_costs | costs3] | cbn; lia..].
Qed.

End Costs3.

Section Costs4.
Import InPlaceArraySec4.

Lemma st4_costs i v : costs ctr 0 0 (st i v).
Proof.
  intros s y s'. unfold st. case_decide; [|done]. intros [= <- <-]. apply charged_refl.
Qed.

Lemma ld4_costs i : costs ctr 0 0 (ld i).
Proof. apply costs_call. Qed.

Lemma makeChain4_costs x y : costs ctr 0 1 (makeChain x y).
Proof.
  unfold makeChain. eapply costs_weaken;
    [repeat first [apply st4_costs | costs_step] | cbn; lia..].
Qed.

Lemma breakChain4_costs x : costs ctr 0 1 (breakChain x).
Proof.
  unfold breakChain. eapply costs_weaken;
    [repeat first [apply st4_costs | costs_step] | cbn; lia..].
Qed.

Lemma initBlock4_costs x : costs ctr 0 0 (initBlock x).
Proof.
  unfold initBlock. eapply costs_weaken;
    [repeat first [apply st4_costs | costs_step] | cbn; lia..].
Qed.

Lemma swap4_costs x y : costs ctr 0 0 (swap x y).
Proof.
  unfold swap. eapply costs_weaken;
    [repeat first [apply st4_costs | apply ld4_costs | costs_step] | cbn; lia..].
Qed.

Lemma sync_meta_costs : costs ctr 0 0 sync_meta_to_A.
Proof.
  unfold sync_meta_to_A, sync_flag. eapply costs_weaken;
    [repeat first [apply st4_costs | costs_step] | cbn; lia..].
Qed.

Lemma write_through_costs bk i v : costs ctr 0 0 (write_through bk i v).
Proof.
  unfold write_through. repeat case_match; first [apply st4_costs | apply costs_ret].
Qed.

Ltac costs4 :=
  repeat first
    [ apply st4_costs | apply ld4_costs | apply makeChain4_costs
    | apply breakChain4_costs | apply initBlock4_costs | apply swap4_costs
    | apply sync_meta_costs | apply write_through_costs
    | costs_step ].

Lemma extend4_costs : costs ctr 1 2 extend.
Proof. unfold extend. eapply costs_weaken; [costs4 | cbn; lia..]. Qed.

Lemma write_impl4_costs i v : costs ctr 2 4 (write_impl i v).
Proof.
  unfold write_impl. cbv zeta. eapply costs_weaken;
    [repeat first [apply extend4_costs | costs4] | cbn; lia..].
Qed.

End Costs4.

(** ** The public [write], counted *)

Lemma write_boundary K NB st A b iv c o v :
  (BlockAlg.write K NB st A b iv c o v).2 = b \/
  (BlockAlg.write K NB st A b iv c o v).2 = S b.
Proof. unfold BlockAlg.write. repeat case_match; cbn; auto. Qed.

Lemma sec3_write_charged s i v s' :
  InPlaceArraySec3.write i v s = Normal tt s' ->
  charged 2 4 (inc_writes (InPlaceArraySec3.ctr s)) (InPlaceArraySec3.ctr s').
Proof.
  unfold InPlaceArraySec3.write. cbv zeta. case_match; [done|].
  destruct (InPlaceArraySec3.write_impl i v _) as [[[] s1]|] eqn:E; [|done].
  apply write_impl3_costs in E. proj3.
  destruct (InPlaceArraySec3.verifying s1).
  - destruct (VerifiableBase.shadow_on_write _ _ _); [|done]. by intros [= <-].
  - by intros [= <-].
Qed.

Lemma sec4_write_charged s i v s' :
  InPlaceArraySec4.write i v s = Normal tt s' ->
  charged 2 4 (inc_writes (InPlaceArraySec4.ctr s)) (InPlaceArraySec4.ctr s').
Proof.
  unfold InPlaceArraySec4.write. cbv zeta. case_match; [done|].
  destruct (InPlaceArraySec4.write_impl i v _) as [[[] s1]|] eqn:E; [|done].
  apply write_impl4_costs in E. proj4.
  destruct (InPlaceArraySec4.verifying s1).
  - destruct (VerifiableBase.shadow_on_write _ _ _); [|done]. by intros [= <-].
  - by intros [= <-].
Qed.


(** ** InPlaceArraySec4: the stash and the plain mode *)

Section Stash4.
Import InPlaceArraySec4.
Local Open Scope nat_scope.

Lemma sec4_init_spec s v :
  wf s -> 0 < N_blocks s ->
  let mb := N_blocks s - 1 in
  exists s',
    init v s = Normal tt s' /\
    b s' = 0 /\ initv s' = v /\ flag s' = false /\ N_blocks s' = N_blocks s /\
    A s' = <[first_of mb + 2 := 0%Z]> (<[first_of mb + 1 := v]> (A s)) /\
    ctr s' = inc_inits (ctr s) /\
    base s' = VerifiableBase.shadow_on_init v (base s).
Proof.
  intros Hwf Hnb mb. unfold init. cbv zeta.
  pose proof (sec4_sized s Hwf) as HA.
  change (set_flag _ (set_b 0 (set_initv v (set_ctr (inc_inits (ctr s)) s))))
    with (with_state (set_initv v s) (A s) 0 (N_blocks s =? 0) (inc_inits (ctr s))).
  rewrite sync_meta_eq by done. proj4.
  eexists. split; [done|]. proj4. split; [done|]. split; [done|].
  split; [destruct (Nat.leb_spec (N_blocks s) 0); (done || lia)|].
  split; [done|]. split; [|done].
  unfold BlockAlg.stash. destruct (Nat.ltb_spec 0 (N_blocks s)); [|lia].
  cbn [andb]. unfold BlockAlg.upd. by rewrite <-!first4_idx.
Qed.

Lemma sec4_plain_read s i :
  wf s -> flag s = true -> i < N s ->
  exists x, A s !! i = Some x /\ read i s = Normal x (set_ctr (inc_reads (ctr s)) s).
Proof.
  intros Hwf Hf Hi. destruct (lookup_lt_is_Some_2 (A s) i) as [x Hx].
  { by rewrite (wf_A s Hwf). }
  exists x. split; [done|]. unfold read. cbv zeta.
  change (N (set_ctr (inc_reads (ctr s)) s)) with (N s).
  destruct (Nat.leb_spec (N s) i); [lia|].
  unfold read_impl. proj4. by rewrite Hf, Hx.
Qed.

Lemma sec4_plain_write s i v :
  wf s -> flag s = true -> i < N s ->
  exists s',
    write i v s = Normal tt s' /\
    A s' = <[i := v]> (A s) /\ b s' = b s /\ flag s' = true /\
    initv s' = initv s /\ ctr s' = inc_writes (ctr s).
Proof.
  intros Hwf Hf Hi. unfold write. cbv zeta.
  change (N (set_ctr (inc_writes (ctr s)) s)) with (N s).
  destruct (Nat.leb_spec (N s) i); [lia|].
  unfold write_impl. rewrite M_bind_gets. proj4. rewrite Hf.
  unfold st. proj4. rewrite decide_True by (by rewrite (wf_A s Hwf)).
  unfold verifying. proj4.
  destruct (VerifiableBase.verifying (base s)) eqn:Ev.
  - destruct (shadow_on_write_ok (base s) i v) as (vb' & E1 & _);
      [apply Hwf | done |].
    rewrite E1. eexists. split; [done|]. by proj4.
  - eexists. split; [done|]. by proj4.
Qed.

End Stash4.

(** ** [extend], for both classes *)

Section Extend3.
Import InPlaceArraySec3.
Local Open Scope nat_scope.

Lemma first3_idx c t : first_of c + t = BlockAlg.idx 2 c t.
Proof. unfold first_of, BlockAlg.idx. rewrite Nat.shiftl_mul_pow2. simpl. lia. Qed.

Lemma sec3_extend_spec s :
  wf s -> b s < N_blocks s ->
  exists f s',
    extend s = Some (f, s') /\ wf s' /\ N s' = N s /\
    b s' = S (b s) /\ f <= b s /\
    chainedTo_block s' f = Some (-1)%Z /\
    (forall t, t < 2 -> A s' !! (first_of f + t) = Some (initv s)) /\
    (forall i, i < N s -> read_impl s' i = read_impl s i) /\
    charged 1 2 (ctr s) (ctr s').
Proof.
  intros Hwf Hb. pose proof (sec3_sized s Hwf) as HA. pose proof (wf_N s Hwf) as HN.
  destruct (extend_eq s (A s) (b s) (ctr s) HN HA Hb) as (c'' & E & _).
  rewrite <-sec3_self in E.
  destruct (extend_spec 2 (N_blocks s) ltac:(lia) false ltac:(done)
              (A s) (b s) (initv s) HA Hb)
    as (HA' & Hcase & Hpf & Hfill & _ & _ & Hval).
  set (f := (BlockAlg.extend 2 (N_blocks s) false (A s) (b s) (initv s)).1) in *.
  set (A1 := (BlockAlg.extend 2 (N_blocks s) false (A s) (b s) (initv s)).2) in *.
  set (s' := with_state s A1 (S (b s)) c'') in *.
  assert (Hf : f < N_blocks s) by lia.
  assert (Hwf' : wf s').
  { destruct Hwf as [W1 W2 W3 W4]. split; unfold N in *; subst s'; proj3;
      [done | by rewrite HA', W1 | lia | done]. }
  exists f, s'. split; [done|]. split; [done|]. split; [done|].
  split; [done|]. split; [lia|]. split; [|split; [|split]].
  - rewrite chainedTo_block_eq by (done || apply Hwf'). subst s'. proj3.
    by rewrite Hpf.
  - intros t Ht. rewrite first3_idx. subst s'. proj3.
    rewrite (lookup_cell 2 (N_blocks s)) by (done || lia). by rewrite Hfill.
  - intros i Hi. rewrite !sec3_read_impl_value by done. f_equal.
    unfold sec3_value. subst s'. proj3.
    destruct (sec3_block s i Hwf Hi). by apply Hval.
  - by apply extend3_costs in E.
Qed.

End Extend3.

Section Extend4.
Import InPlaceArraySec4.
Local Open Scope nat_scope.

Lemma sec4_extend_spec s :
  wf s -> b s < N_blocks s ->
  exists f s',
    extend s = Some (f, s') /\ wf s' /\ N s' = N s /\
    b s' = S (b s) /\ f <= b s /\
    chainedTo_block s' f = Some (-1)%Z /\
    (forall t, t < 4 -> A s' !! (first_of f + t) = Some (initv s)) /\
    (forall i, i < N s -> read_impl s' i = read_impl s i) /\
    charged 1 2 (ctr s) (ctr s').
Proof.
  intros Hwf Hb. pose proof (sec4_sized s Hwf) as HA. pose proof (wf_N s Hwf) as HN.
  destruct (extend4_eq s (A s) (b s) (flag s) (ctr s) HN HA Hb) as (c'' & E & _).
  rewrite <-sec4_self in E.
  destruct (extend_spec 4 (N_blocks s) ltac:(lia) true ltac:(lia)
              (A s) (b s) (initv s) HA Hb)
    as (HA' & Hcase & Hpf & Hfill & _ & _ & Hval).
  set (f := (BlockAlg.extend 4 (N_blocks s) true (A s) (b s) (initv s)).1) in *.
  set (A1 := (BlockAlg.extend 4 (N_blocks s) true (A s) (b s) (initv s)).2) in *.
  set (s' := with_state s A1 (S (b s)) (N_blocks s <=? S (b s)) c'') in *.
  assert (Hf : f < N_blocks s) by lia.
  assert (Hwf' : wf s').
  { destruct Hwf as [W1 W2 W3 W4 W5]. split; unfold N in *; subst s'; proj4;
      [done | by rewrite HA', W1 | lia | done | done]. }
  exists f, s'. split; [done|]. split; [done|]. split; [done|].
  split; [done|]. split; [lia|]. split; [|split; [|split]].
  - rewrite chainedTo_block4_eq by (done || apply Hwf'). subst s'. proj4.
    by rewrite Hpf.
  - intros t Ht. rewrite first4_idx. subst s'. proj4.
    rewrite (lookup_cell 4 (N_blocks s)) by (done || lia). by rewrite Hfill.
  - intros i Hi. rewrite !sec4_read_impl_value by done. f_equal.
    unfold sec4_value. subst s'. proj4.
    destruct (sec4_block s i Hwf Hi). by apply Hval.
  - by apply extend4_costs in E.
Qed.

End Extend4.

(** ** Runs of writes *)

Section Workload.
Local Open Scope nat_scope.






End Workload.

(** ** [extend] of InPlaceArraySec4 synchronises the stash *)

Section Sync4.
Import InPlaceArraySec4.
Local Open Scope nat_scope.

Lemma stash_lookup X b iv NB :
  BlockAlg.sized 4 NB X -> b < NB ->
  BlockAlg.stash 4 NB true X b iv !! (first_of (NB - 1) + 1) = Some iv /\
  BlockAlg.stash 4 NB true X b iv !! (first_of (NB - 1) + 2) = Some (Z.of_nat b).
Proof.
  intros HX Hb. unfold BlockAlg.stash, BlockAlg.sized in *.
  destruct (Nat.ltb_spec b NB); [|lia]. cbn [andb].
  rewrite !first4_idx. unfold BlockAlg.upd, BlockAlg.idx. split.
  - rewrite list_lookup_insert_ne by lia. apply list_lookup_insert_eq. lia.
  - apply list_lookup_insert_eq. rewrite length_insert. lia.
Qed.

Lemma extend_stash NB X b iv :
  exists Y, BlockAlg.sized 4 NB X -> b < NB ->
    (BlockAlg.extend 4 NB true X b iv).2 = BlockAlg.stash 4 NB true Y (S b) iv /\
    BlockAlg.sized 4 NB Y.
Proof.
  unfold BlockAlg.extend.
  destruct (BlockAlg.partner 4 NB X b b) as [bk|] eqn:E; eexists; intros HX Hb;
    (split; [reflexivity|]).
  - pose proof (partner_lt 4 NB ltac:(lia) _ _ _ _ Hb E).
    pose proof (partner_cross 4 NB ltac:(lia) _ _ _ _ Hb E) as Hx.
    unfold BlockAlg.crossP in Hx.
    apply breakChain_sized; [lia|]. apply fill_sized; [lia| |done].
    apply breakChain_sized; [lia|]. apply restore_sized; (done || lia).
  - apply breakChain_sized; [lia|]. apply fill_sized; (done || lia).
Qed.

Lemma sec4_extend_syncs s :
  wf s -> b s < N_blocks s ->
  exists f s', extend s = Some (f, s') /\
    N_blocks s' = N_blocks s /\ b s' = S (b s) /\ initv s' = initv s /\
    flag s' = (N_blocks s <=? S (b s)) /\ stash_ok s'.
Proof.
  intros Hwf Hb. pose proof (sec4_sized s Hwf) as HA. pose proof (wf_N s Hwf) as HN.
  destruct (extend4_eq s (A s) (b s) (flag s) (ctr s) HN HA Hb) as (c'' & E & _).
  rewrite <-sec4_self in E. do 2 eexists. split; [exact E|].
  proj4. split; [done|]. split; [done|]. split; [done|]. split; [done|].
  unfold stash_ok. proj4. intros Hf. cbv zeta.
  destruct (Nat.leb_spec (N_blocks s) (S (b s))); [done|].
  destruct (extend_stash (N_blocks s) (A s) (b s) (initv s)) as [Y HY].
  destruct (HY HA Hb) as [-> HYs]. by apply stash_lookup.
Qed.

End Sync4.

(** ** Verification is off until it is enabled *)

Section OptIn.
Local Open Scope nat_scope.

Lemma shadow_off_init v vb :
  VerifiableBase.verifying vb = false -> VerifiableBase.shadow_on_init v vb = vb.
Proof. intros H. unfold VerifiableBase.shadow_on_init. by rewrite H. Qed.

Lemma shadow_off_write i v vb :
  VerifiableBase.verifying vb = false ->
  VerifiableBase.shadow_on_write i v vb = Some vb.
Proof. intros H. unfold VerifiableBase.shadow_on_write. by rewrite H. Qed.

Lemma step_keeps_shadow o a a' :
  wf_array a -> plain o ->
  (forall vb, shadow_of a = Some vb -> VerifiableBase.verifying vb = false) ->
  step o a = Some a' -> shadow_of a' = shadow_of a.
Proof.
  intros Hwf Hp Hv. destruct o as [v|i|i v| |]; cbn [step].
  - destruct a as [s|s|s]; cbn [init shadow_of wf_array] in *.
    + by intros [= <-].
    + intros [= <-]. cbn [shadow_of]. proj3. by rewrite shadow_off_init by (by apply Hv).
    + destruct (sec4_init_ok s v Hwf) as (s' & E & _). rewrite E.
      cbn [lift_outcome state_of]. intros [= <-]. cbn [shadow_of].
      rewrite (sec4_init_base s v s' Hwf E). by rewrite shadow_off_init by (by apply Hv).
  - destruct (Nat.lt_ge_cases i (array_N a)) as [Hi|Hi].
    + rewrite read_ok by done. intros [= <-]. apply set_counters_shadow.
    + rewrite read_past_end by done. intros [= <-]. apply set_counters_shadow.
  - destruct (Nat.lt_ge_cases i (array_N a)) as [Hi|Hi].
    + destruct a as [s|s|s]; cbn [write shadow_of wf_array array_N] in *.
      * destruct (StdVectorWrapper.write i v s); cbn [lift_outcome state_of];
          intros; by simplify_eq.
      * destruct (sec3_write_ok s i v Hwf Hi) as (s' & W1 & _ & _ & _ & _ & _ & _ & W8).
        rewrite W1. cbn [lift_outcome state_of]. intros [= <-]. cbn [shadow_of].
        rewrite shadow_off_write in W8 by (by apply Hv). congruence.
      * destruct (InPlaceArraySec4.write i v s) as [[] s'| |] eqn:E.
        -- cbn [lift_outcome state_of]. intros [= <-]. cbn [shadow_of].
           pose proof (sec4_write_base s i v s' Hwf Hi E) as W8.
           rewrite shadow_off_write in W8 by (by apply Hv). congruence.
        -- destruct (sec4_write_ok s i v Hwf Hi) as (s' & W1 & _). congruence.
        -- destruct (sec4_write_ok s i v Hwf Hi) as (s' & W1 & _). congruence.
    + rewrite write_past_end by done. intros [= <-]. apply set_counters_shadow.
  - intros [= <-]. rewrite reset_counters_eq. apply set_counters_shadow.
  - by destruct Hp.
Qed.

Lemma run_keeps_shadow ops : forall a,
  wf_array a -> Forall plain ops ->
  (forall vb, shadow_of a = Some vb -> VerifiableBase.verifying vb = false) ->
  exists a', run ops a = Some a' /\ shadow_of a' = shadow_of a.
Proof.
  induction ops as [|o ops IH]; intros a Hwf Hp Hv; cbn [run]; [by exists a|].
  apply Forall_cons in Hp as [Ho Hp].
  destruct (step_total o a Hwf) as (a1 & E1 & W1 & _).
  pose proof (step_keeps_shadow o a a1 Hwf Ho Hv E1) as S1. rewrite E1.
  destruct (IH a1 W1 Hp) as (a' & E & S2); [by rewrite S1|].
  exists a'. split; [done | congruence].
Qed.

Lemma make_shadow v n a :
  make v n = inr a ->
  shadow_of a =
    match v with Vstd_vector => None | _ => Some (VerifiableBase.new n) end.
Proof.
  destruct v; cbn [make].
  - by intros [= <-].
  - unfold InPlaceArraySec3.new. repeat case_match; cbn [sum_map]; [done..|].
    by intros [= <-].
  - unfold InPlaceArraySec4.new. repeat case_match; cbn [sum_map]; [done..|].
    by intros [= <-].
Qed.

End OptIn.
Local Open Scope Z_scope.

(** * Further properties, stated *)

(** X1. In a reachable state [chainedTo_block] returns for every block
    [c < N_blocks]: either [-1], or a block [p < N_blocks] on the other side
    of the boundary [b] whose own chain leads back to [c]. *)
Theorem chain_pairs :
  (forall s c, reachable (sec3 s) -> (c < InPlaceArraySec3.N_blocks s)%nat ->
     exists k, InPlaceArraySec3.chainedTo_block s c = Some k /\
       (k = -1 \/
        exists p, k = Z.of_nat p /\ (p < InPlaceArraySec3.N_blocks s)%nat /\
          ((c < InPlaceArraySec3.b s <= p)%nat \/ (p < InPlaceArraySec3.b s <= c)%nat) /\
          InPlaceArraySec3.chainedTo_block s p = Some (Z.of_nat c))) /\
  (forall s c, reachable (sec4 s) -> (c < InPlaceArraySec4.N_blocks s)%nat ->
     exists k, InPlaceArraySec4.chainedTo_block s c = Some k /\
       (k = -1 \/
        exists p, k = Z.of_nat p /\ (p < InPlaceArraySec4.N_blocks s)%nat /\
          ((c < InPlaceArraySec4.b s <= p)%nat \/ (p < InPlaceArraySec4.b s <= c)%nat) /\
          InPlaceArraySec4.chainedTo_block s p = Some (Z.of_nat c))).
Proof.
  split; intros s c Hr Hc; apply reachable_wf in Hr; cbn [wf_array] in Hr.
  - pose proof (sec3_sized s Hr).
    rewrite chainedTo_block_eq by (done || apply Hr). eexists. split; [done|].
    destruct (sec3_chain_pair s c _ Hr Hc
                (chainedTo_block_eq s c (InPlaceArraySec3.wf_N s Hr) H Hc))
      as [E|(p & E1 & E2 & E3 & E4 & _)]; [by left|right]. by exists p.
  - pose proof (sec4_sized s Hr).
    rewrite chainedTo_block4_eq by (done || apply Hr). eexists. split; [done|].
    destruct (sec4_chain_pair s c _ Hr Hc
                (chainedTo_block4_eq s c (InPlaceArraySec4.wf_N s Hr) H Hc))
      as [E|(p & E1 & E2 & E3 & E4 & _)]; [by left|right]. by exists p.
Qed.

Lemma chain_pairs_witness :
  exists s k, demo3 = sec3 s /\ InPlaceArraySec3.chainedTo_block s 2 = Some k /\
    (k = -1 \/
     exists p, k = Z.of_nat p /\ (p < InPlaceArraySec3.N_blocks s)%nat /\
       ((2 < InPlaceArraySec3.b s <= p)%nat \/ (p < InPlaceArraySec3.b s <= 2)%nat) /\
       InPlaceArraySec3.chainedTo_block s p = Some (Z.of_nat 2)).
Proof.
  eexists.
  destruct (proj1 chain_pairs _ 2%nat demo3_reachable) as (k & E & H);
    [vm_compute; lia|].
  exists k. split; [reflexivity|]. split; [exact E | exact H].
Defined.

(** X2. In a reachable state [verify_correctness] returns, and returns what
    the comparison with the shadow returns: the test for asymmetric chains
    after it never fails.  Without verification the result is [true]. *)
Theorem verify_is_shadow_check :
  (forall s, reachable (sec3 s) ->
     exists r,
       VerifiableBase.shadow_check_against (InPlaceArraySec3.read_impl s)
         (InPlaceArraySec3.base s) = Some r /\
       InPlaceArraySec3.verify_correctness s = Some r /\
       (InPlaceArraySec3.verifying s = false -> r = true)) /\
  (forall s, reachable (sec4 s) ->
     exists r,
       VerifiableBase.shadow_check_against (InPlaceArraySec4.read_impl s)
         (InPlaceArraySec4.base s) = Some r /\
       InPlaceArraySec4.verify_correctness s = Some r /\
       (InPlaceArraySec4.verifying s = false -> r = true)).
Proof.
  split; intros s Hr; apply reachable_wf in Hr; cbn [wf_array] in Hr.
  - destruct (sec3_verify_total s Hr) as (r & E1 & E2). exists r.
    split; [done|]. split; [done|]. intros Hv.
    unfold VerifiableBase.shadow_check_against, InPlaceArraySec3.verifying in *.
    rewrite Hv in E1. cbn in E1. congruence.
  - destruct (sec4_verify_total s Hr) as (r & E1 & E2). exists r.
    split; [done|]. split; [done|]. intros Hv.
    unfold VerifiableBase.shadow_check_against, InPlaceArraySec4.verifying in *.
    rewrite Hv in E1. cbn in E1. congruence.
Qed.

Lemma verify_is_shadow_check_witness :
  exists s, demo4 = sec4 s /\ InPlaceArraySec4.verify_correctness s = Some true.
Proof.
  eexists. split; [reflexivity|].
  destruct (proj2 verify_is_shadow_check _ demo4_reachable) as (r & _ & E & H).
  rewrite E. f_equal. apply H. reflexivity.
Defined.

(** X3. When verification is enabled right after construction, every
    sequence of [init], [read], [write] and [reset_counters] calls, with
    any indices, runs without undefined behaviour, and [verify_correctness]
    then returns [true]. *)
Theorem verify_passes (v : variant) (n : nat) (a0 : array) (ops : list op) :
  make v n = inr a0 -> Forall plain ops ->
  exists a, run ops (enable_verification a0) = Some a /\
            verify_correctness a = Some true.
Proof.
  intros Hm Hops. destruct (in_step_make v n a0 Hm) as [_ Hs].
  destruct (in_step_run ops _ _ Hs Hops) as (a & m & E1 & _ & E2).
  exists a. split; [done|]. by apply (in_step_verify a m).
Qed.

Lemma verify_passes_witness :
  exists a0 a,
    make Vsec4 8 = inr a0 /\
    run [OpInit 3; OpWrite 5 9; OpRead 5; OpRead 8; OpResetCounters; OpWrite 0 1]
      (enable_verification a0) = Some a /\
    verify_correctness a = Some true.
Proof.
  eexists.
  destruct (verify_passes Vsec4 8 _
              [OpInit 3; OpWrite 5%nat 9; OpRead 5; OpRead 8; OpResetCounters;
               OpWrite 0%nat 1] eq_refl) as (a & E1 & E2).
  { repeat (constructor; [discriminate|]). constructor. }
  exists a. split; [reflexivity|]. split; [exact E1 | exact E2].
Defined.

(** X4. [enable_verification] starts the shadow from an all-zero array:
    called in a reachable state, it makes [verify_correctness] return
    [true] exactly when every cell reads [0] at that moment. *)
Theorem enable_expects_zeros :
  (forall s, reachable (sec3 s) ->
     exists r,
       InPlaceArraySec3.verify_correctness (InPlaceArraySec3.enable_verification s)
         = Some r /\
       (r = true <->
        forall i, (i < InPlaceArraySec3.N s)%nat ->
          InPlaceArraySec3.read_impl s i = Some 0)) /\
  (forall s, reachable (sec4 s) ->
     exists r,
       InPlaceArraySec4.verify_correctness (InPlaceArraySec4.enable_verification s)
         = Some r /\
       (r = true <->
        forall i, (i < InPlaceArraySec4.N s)%nat ->
          InPlaceArraySec4.read_impl s i = Some 0)).
Proof.
  split; intros s Hr; apply reachable_wf in Hr; cbn [wf_array] in Hr.
  - assert (Hwf : InPlaceArraySec3.wf (InPlaceArraySec3.enable_verification s)).
    { by apply (enable_wf (sec3 s)). }
    unfold InPlaceArraySec3.verify_correctness.
    change (InPlaceArraySec3.read_impl (InPlaceArraySec3.enable_verification s))
      with (InPlaceArraySec3.read_impl s).
    change (InPlaceArraySec3.N_blocks (InPlaceArraySec3.enable_verification s))
      with (InPlaceArraySec3.N_blocks s).
    unfold VerifiableBase.shadow_check_against.
    change (VerifiableBase.verifying _) with true. cbn [negb].
    rewrite (check_from_eq _ (fun _ => 0) _ (sec3_value s)).
    2:{ intros j Hj. split.
        - apply (expect_holds _ (fun _ => 0) j); [apply enable_holds | exact (proj2 Hj)].
        - apply sec3_read_impl_value; [done | exact (proj2 Hj)]. }
    change (VerifiableBase.N _) with (InPlaceArraySec3.N s).
    destruct (forallb _ _) eqn:E.
    + exists true. split; [apply sec3_chains; (done || lia)|]. split; [|done].
      intros _ i Hi. rewrite sec3_read_impl_value by done. f_equal.
      rewrite forallb_forall in E. symmetry. apply Z.eqb_eq, E, in_seq. lia.
    + exists false. split; [done|]. split; [done|]. intros H.
      rewrite <-E. apply forallb_seq_true. intros i Hi.
      specialize (H i Hi). rewrite sec3_read_impl_value in H by done.
      injection H as ->. done.
  - assert (Hwf : InPlaceArraySec4.wf (InPlaceArraySec4.enable_verification s)).
    { by apply (enable_wf (sec4 s)). }
    unfold InPlaceArraySec4.verify_correctness.
    change (InPlaceArraySec4.read_impl (InPlaceArraySec4.enable_verification s))
      with (InPlaceArraySec4.read_impl s).
    change (InPlaceArraySec4.N_blocks (InPlaceArraySec4.enable_verification s))
      with (InPlaceArraySec4.N_blocks s).
    unfold VerifiableBase.shadow_check_against.
    change (VerifiableBase.verifying _) with true. cbn [negb].
    rewrite (check_from_eq _ (fun _ => 0) _ (sec4_value s)).
    2:{ intros j Hj. split.
        - apply (expect_holds _ (fun _ => 0) j); [apply enable_holds | exact (proj2 Hj)].
        - apply sec4_read_impl_value; [done | exact (proj2 Hj)]. }
    change (VerifiableBase.N _) with (InPlaceArraySec4.N s).
    destruct (forallb _ _) eqn:E.
    + exists true. split; [apply sec4_chains; (done || lia)|]. split; [|done].
      intros _ i Hi. rewrite sec4_read_impl_value by done. f_equal.
      rewrite forallb_forall in E. symmetry. apply Z.eqb_eq, E, in_seq. lia.
    + exists false. split; [done|]. split; [done|]. intros H.
      rewrite <-E. apply forallb_seq_true. intros i Hi.
      specialize (H i Hi). rewrite sec4_read_impl_value in H by done.
      injection H as ->. done.
Qed.

Lemma enable_expects_zeros_witness :
  exists s, demo3 = sec3 s /\
    InPlaceArraySec3.verify_correctness (InPlaceArraySec3.enable_verification s)
      = Some false.
Proof.
  eexists. split; [reflexivity|].
  destruct (proj1 enable_expects_zeros _ demo3_reachable) as (r & E & H).
  rewrite E. f_equal. destruct r; [|reflexivity].
  pose proof (proj1 H eq_refl 5%nat ltac:(vm_compute; lia)) as H5.
  vm_compute in H5. discriminate H5.
Defined.

(** X5. The correctness checker of the benchmark driver.  For [sec3] and
    [sec4] with a size their constructor accepts, whatever the generator
    draws (indices below [N]): no call throws, no [read] differs from the
    reference vector's, [verify_correctness] succeeds, and the verdict is
    PASSED.  For another implementation name, or a size the constructor
    rejects, the checker returns before the run. *)
Theorem checker_passes (impl_name : string) (n : nat) (ds : list draw) :
  Forall (drawn_below n) ds ->
  verify_driver impl_name n ds =
    Some (match dut_of impl_name with
          | Some v =>
            if decide (n = 0 \/ n mod block_size v <> 0)%nat then NotRun else PASSED
          | None => NotRun
          end).
Proof.
  intros Hds. unfold verify_driver. cbn [make StdVectorWrapper.new sum_map].
  destruct (dut_of impl_name) as [v|] eqn:Ed; [|done].
  pose proof (make_in_place v n (dut_of_in_place _ _ Ed)) as Hm.
  destruct (decide _) as [D|D]; [by rewrite Hm|].
  destruct Hm as [d0 Hm]. rewrite Hm.
  destruct (in_step_make v n d0 Hm) as [Nd Hd].
  destruct (in_step_make Vstd_vector n _ eq_refl) as [Nr Hr].
  rewrite (operations_pass n ds _ _ _ Hr Hd); try done.
  by rewrite enable_N.
Qed.

Lemma checker_passes_witness :
  verify_driver "sec4" 8 [DrawInit 7; DrawWrite 3 1; DrawRead 3; DrawRead 0] = Some PASSED.
Proof.
  apply (checker_passes "sec4" 8 [DrawInit 7; DrawWrite 3%nat 1; DrawRead 3; DrawRead 0]).
  repeat (constructor; [cbn; lia|]). constructor.
Defined.

(** X6. An in-place array cannot be told from the plain vector: constructed
    with the same size, the two show the same to every sequence of calls
    (the values read, and the calls that throw), and no call leads to
    undefined behaviour. *)
Theorem same_as_vector (v : variant) (n : nat) (a r : array) (ops : list op) :
  make v n = inr a -> make Vstd_vector n = inr r ->
  exists t, trace ops a = Some t /\ trace ops r = Some t.
Proof.
  intros Ha Hr.
  destruct (make_fresh v n a Ha) as [Na Va].
  destruct (make_fresh Vstd_vector n r Hr) as [Nr Vr].
  apply trace_agree; [by apply (make_wf v n) | by apply (make_wf Vstd_vector n) | congruence |].
  intros i Hi. rewrite Va, Vr; (done || lia).
Qed.

Lemma same_as_vector_witness :
  exists a r t,
    make Vsec3 4 = inr a /\ make Vstd_vector 4 = inr r /\
    trace [OpWrite 2 5; OpRead 2; OpRead 3; OpRead 4; OpInit 1; OpRead 2] a = Some t /\
    trace [OpWrite 2 5; OpRead 2; OpRead 3; OpRead 4; OpInit 1; OpRead 2] r = Some t.
Proof.
  do 2 eexists.
  destruct (same_as_vector Vsec3 4 _ _
              [OpWrite 2%nat 5; OpRead 2; OpRead 3; OpRead 4; OpInit 1; OpRead 2]
              eq_refl eq_refl) as (t & E1 & E2).
  exists t. split; [reflexivity|]. split; [reflexivity|]. split; [exact E1 | exact E2].
Defined.

(** X7. A successful [read] changes nothing but the [reads] counter: in a
    reachable state, [read(i)] with [i < N] returns a value and leaves the
    object as it was, except that [reads] is one higher (modulo [2^64]);
    the other four counters are as before.  Read again, it returns the
    same value and counts once more. *)
Theorem read_only_counts (a : array) (i : nat) :
  reachable a -> (i < array_N a)%nat ->
  exists x,
    let c := get_counters a in
    let c1 := mkCounters (wrap64 (reads c + 1)) (writes c) (inits c)
                (relocations c) (conversions c) in
    let c2 := mkCounters (wrap64 (wrap64 (reads c + 1) + 1)) (writes c) (inits c)
                (relocations c) (conversions c) in
    read i a = Normal x (set_counters c1 a) /\
    read i (set_counters c1 a) = Normal x (set_counters c2 a).
Proof.
  intros Hr Hi. apply reachable_wf in Hr. exists (value a i). cbv zeta.
  split; [by apply read_ok|].
  rewrite read_ok; [|by apply set_counters_wf|by rewrite set_counters_N].
  rewrite set_counters_value. f_equal. by destruct a.
Qed.

Lemma read_only_counts_witness :
  exists x a',
    read 5 demo3 = Normal x a' /\
    reads (get_counters a') = wrap64 (reads (get_counters demo3) + 1) /\
    cells a' = cells demo3.
Proof.
  destruct (read_only_counts demo3 5 demo3_reachable) as (x & E & _);
    [vm_compute; lia|].
  exists x. eexists. split; [exact E|]. repeat split.
Defined.

(** X8. No sequence of calls on a constructed array leads to undefined
    behaviour (an access past the end of a vector), whatever the indices.
    The state reached has the size it was constructed with, as many cells,
    and for the in-place classes a boundary [b <= N_blocks]; the [flag] of
    InPlaceArraySec4 is set exactly when [b] has reached [N_blocks]. *)
Theorem runs_are_safe (v : variant) (n : nat) (a0 : array) (ops : list op) :
  make v n = inr a0 ->
  exists a, run ops a0 = Some a /\
    name a = v /\ array_N a = n /\ length (cells a) = n /\
    match a with
    | std_vector _ => True
    | sec3 s =>
      (n = 2 * InPlaceArraySec3.N_blocks s /\
       InPlaceArraySec3.b s <= InPlaceArraySec3.N_blocks s)%nat
    | sec4 s =>
      (n = 4 * InPlaceArraySec4.N_blocks s /\
       InPlaceArraySec4.b s <= InPlaceArraySec4.N_blocks s)%nat /\
      InPlaceArraySec4.flag s
        = (InPlaceArraySec4.N_blocks s <=? InPlaceArraySec4.b s)%nat
    end.
Proof.
  intros Hm.
  destruct (run_total ops a0 (make_wf v n a0 Hm)) as (a & E & Hwf & HN & Hn).
  destruct (make_fresh v n a0 Hm) as [HN0 _].
  exists a. split; [done|]. rewrite Hn, HN, HN0, (make_name v n a0 Hm).
  split; [done|]. split; [done|].
  destruct a as [s|s|s]; cbn [wf_array cells array_N] in *.
  - split; [congruence | done].
  - destruct Hwf as [W1 W2 W3 _]. unfold InPlaceArraySec3.N in *.
    split; [congruence|]. split; [lia | done].
  - destruct Hwf as [W1 W2 W3 W4 _]. unfold InPlaceArraySec4.N in *.
    split; [congruence|]. split; [lia | done].
Qed.

Lemma runs_are_safe_witness :
  exists a0 a,
    make Vsec4 8 = inr a0 /\
    run [OpWrite 9 1; OpWrite 7 2; OpEnableVerification; OpRead 12; OpInit 4] a0
      = Some a /\
    length (cells a) = 8%nat.
Proof.
  eexists.
  destruct (runs_are_safe Vsec4 8 _
              [OpWrite 9%nat 1; OpWrite 7%nat 2; OpEnableVerification; OpRead 12;
               OpInit 4] eq_refl) as (a & E & _ & _ & H & _).
  exists a. split; [reflexivity|]. split; [exact E | exact H].
Defined.

(** X9. A freshly constructed array reads [0] everywhere, also before any
    [init]. *)
Theorem fresh_reads_zero (v : variant) (n i : nat) (a : array) :
  make v n = inr a -> (i < n)%nat ->
  read i a = Normal 0 (set_counters (inc_reads (get_counters a)) a).
Proof.
  intros Hm Hi. destruct (make_fresh v n a Hm) as [HN Hv].
  rewrite read_ok; [by rewrite Hv | by apply (make_wf v n) | lia].
Qed.

Lemma fresh_reads_zero_witness :
  exists a, make Vsec3 6 = inr a /\
    read 5 a = Normal 0 (set_counters (inc_reads (get_counters a)) a).
Proof.
  eexists. split; [reflexivity|].
  apply (fresh_reads_zero Vsec3 6 5); [reflexivity | lia].
Defined.

(** X10. A [write] costs a constant amount of bookkeeping.  In a reachable
    state of an in-place array, [write(i, v)] with [i < N] returns, moves
    the boundary [b] by at most one block, counts one write, at most two
    relocations and at most four conversions, and leaves the [reads] and
    [inits] counters alone. *)
Theorem write_is_cheap :
  (forall s i v, reachable (sec3 s) -> (i < InPlaceArraySec3.N s)%nat ->
     exists s', InPlaceArraySec3.write i v s = Normal tt s' /\
       (InPlaceArraySec3.b s <= InPlaceArraySec3.b s' <= S (InPlaceArraySec3.b s))%nat /\
       charged 2 4 (inc_writes (InPlaceArraySec3.ctr s)) (InPlaceArraySec3.ctr s')) /\
  (forall s i v, reachable (sec4 s) -> (i < InPlaceArraySec4.N s)%nat ->
     exists s', InPlaceArraySec4.write i v s = Normal tt s' /\
       (InPlaceArraySec4.b s <= InPlaceArraySec4.b s' <= S (InPlaceArraySec4.b s))%nat /\
       charged 2 4 (inc_writes (InPlaceArraySec4.ctr s)) (InPlaceArraySec4.ctr s')).
Proof.
  split; intros s i v Hr Hi; apply reachable_wf in Hr; cbn [wf_array] in Hr.
  - destruct (sec3_write_ok s i v Hr Hi) as (s' & E & _ & _ & _ & _ & _ & Eb & _).
    exists s'. split; [done|]. split; [|by apply (sec3_write_charged s i v)].
    rewrite Eb.
    destruct (write_boundary 2 (InPlaceArraySec3.N_blocks s) false (InPlaceArraySec3.A s)
                (InPlaceArraySec3.b s) (InPlaceArraySec3.initv s)
                (i / 2) (i mod 2) v) as [-> | ->]; lia.
  - destruct (sec4_write_ok s i v Hr Hi) as (s' & E & _ & _ & _ & _ & _ & Eb).
    exists s'. split; [done|]. split; [|by apply (sec4_write_charged s i v)].
    rewrite Eb.
    destruct (write_boundary 4 (InPlaceArraySec4.N_blocks s) true (InPlaceArraySec4.A s)
                (InPlaceArraySec4.b s) (InPlaceArraySec4.initv s)
                (i / 4) (i mod 4) v) as [-> | ->]; lia.
Qed.

Lemma write_is_cheap_witness :
  exists s s', demo3 = sec3 s /\
    InPlaceArraySec3.write 0 7 s = Normal tt s' /\
    charged 2 4 (inc_writes (InPlaceArraySec3.ctr s)) (InPlaceArraySec3.ctr s').
Proof.
  eexists.
  destruct (proj1 write_is_cheap _ 0%nat 7 demo3_reachable) as (s' & E & _ & H);
    [vm_compute; lia|].
  exists s'. split; [reflexivity|]. split; [exact E | exact H].
Defined.

Lemma demo4_full_reachable : reachable demo4_full.
Proof. exists Vsec4, 4%nat. eexists. exists [OpInit 0; OpWrite 0%nat 1]. by split. Qed.

Lemma sec4_blocks_positive s :
  reachable (sec4 s) -> (0 < InPlaceArraySec4.N_blocks s)%nat.
Proof.
  intros Hr. destruct (reachable_positive _ Hr) as [H1 _]; [done|].
  apply reachable_wf in Hr. destruct Hr as [W1 _ _ _ _]. cbn [array_N] in H1. lia.
Qed.

(** X11. [init(v)] of InPlaceArraySec4, unlike that of InPlaceArraySec3,
    stores into the array: in a reachable state it returns, resets [b] to
    [0] and [flag] to false, counts one [init], and changes exactly the two
    stash cells of the last block, which then hold [v] and [0]; the stash
    agrees with the cached [initv] and [b]. *)
Theorem sec4_init_stashes (s : InPlaceArraySec4.t) (v : Z) :
  reachable (sec4 s) ->
  let mb := (InPlaceArraySec4.N_blocks s - 1)%nat in
  exists s',
    InPlaceArraySec4.init v s = Normal tt s' /\
    InPlaceArraySec4.b s' = 0%nat /\ InPlaceArraySec4.initv s' = v /\
    InPlaceArraySec4.flag s' = false /\
    InPlaceArraySec4.A s' =
      <[(InPlaceArraySec4.first_of mb + 2)%nat := 0]>
        (<[(InPlaceArraySec4.first_of mb + 1)%nat := v]> (InPlaceArraySec4.A s)) /\
    InPlaceArraySec4.ctr s' = inc_inits (InPlaceArraySec4.ctr s) /\
    stash_ok s'.
Proof.
  intros Hr mb. pose proof (sec4_blocks_positive s Hr) as Hnb.
  apply reachable_wf in Hr. cbn [wf_array] in Hr.
  destruct (sec4_init_spec s v Hr Hnb) as (s' & E & E1 & E2 & E3 & E4 & E5 & E6 & _).
  exists s'. repeat (split; [done|]).
  intros _. cbv zeta. rewrite E4, E5, E1, E2. fold mb.
  assert (HL : length (InPlaceArraySec4.A s) = (4 * InPlaceArraySec4.N_blocks s)%nat).
  { destruct Hr as [W1 W2 _ _ _]. unfold InPlaceArraySec4.N in *. congruence. }
  rewrite !first4_idx. unfold BlockAlg.idx. split.
  - rewrite list_lookup_insert_ne by lia. apply list_lookup_insert_eq. lia.
  - apply list_lookup_insert_eq. rewrite length_insert. lia.
Qed.

Lemma sec4_init_stashes_witness :
  exists s s', demo4 = sec4 s /\
    InPlaceArraySec4.init 9 s = Normal tt s' /\ stash_ok s'.
Proof.
  eexists.
  destruct (sec4_init_stashes _ 9 demo4_reachable) as (s' & E & _ & _ & _ & _ & _ & H).
  exists s'. split; [reflexivity|]. split; [exact E | exact H].
Defined.

(** X12. Once every block is written, InPlaceArraySec4 is a plain array.
    In a reachable state with [flag] set, [b] equals [N_blocks]; [read(i)]
    with [i < N] returns [A[i]], and [write(i, v)] stores [v] into [A[i]]
    and nothing else: no cell moves, [b], [flag] and [initv] stay, and only
    the [writes] counter advances. *)
Theorem sec4_plain_mode (s : InPlaceArraySec4.t) (i : nat) (v : Z) :
  reachable (sec4 s) -> InPlaceArraySec4.flag s = true ->
  (i < InPlaceArraySec4.N s)%nat ->
  InPlaceArraySec4.b s = InPlaceArraySec4.N_blocks s /\
  (exists x, InPlaceArraySec4.A s !! i = Some x /\
     InPlaceArraySec4.read i s =
       Normal x (InPlaceArraySec4.set_ctr (inc_reads (InPlaceArraySec4.ctr s)) s)) /\
  exists s',
    InPlaceArraySec4.write i v s = Normal tt s' /\
    InPlaceArraySec4.A s' = <[i := v]> (InPlaceArraySec4.A s) /\
    InPlaceArraySec4.b s' = InPlaceArraySec4.b s /\
    InPlaceArraySec4.flag s' = true /\
    InPlaceArraySec4.initv s' = InPlaceArraySec4.initv s /\
    InPlaceArraySec4.ctr s' = inc_writes (InPlaceArraySec4.ctr s).
Proof.
  intros Hr Hf Hi. apply reachable_wf in Hr. cbn [wf_array] in Hr.
  split; [|split].
  - destruct Hr as [_ _ W3 W4 _]. rewrite Hf in W4.
    symmetry in W4. apply Nat.leb_le in W4. lia.
  - by apply sec4_plain_read.
  - by apply sec4_plain_write.
Qed.

Lemma sec4_plain_mode_witness :
  exists s s', demo4_full = sec4 s /\
    InPlaceArraySec4.write 2 8 s = Normal tt s' /\
    InPlaceArraySec4.A s' = <[2%nat := 8]> (InPlaceArraySec4.A s).
Proof.
  eexists.
  destruct (sec4_plain_mode _ 2 8 demo4_full_reachable eq_refl ltac:(vm_compute; lia))
    as (_ & _ & s' & E & H & _).
  exists s'. split; [reflexivity|]. split; [exact E | exact H].
Defined.

(** X13. [extend] frees one block and changes no value.  In a reachable
    state with [b < N_blocks], [extend] returns a block [f <= b] and moves
    the boundary to [b + 1]; afterwards [f] is not chained, every cell of
    [f] holds [initv], every [read_impl(i)] returns what it returned before,
    and at most one relocation and two conversions have been counted. *)
Theorem extend_frees_block :
  (forall s, reachable (sec3 s) ->
     (InPlaceArraySec3.b s < InPlaceArraySec3.N_blocks s)%nat ->
     exists f s',
       InPlaceArraySec3.extend s = Some (f, s') /\
       InPlaceArraySec3.b s' = S (InPlaceArraySec3.b s) /\
       (f <= InPlaceArraySec3.b s)%nat /\
       InPlaceArraySec3.chainedTo_block s' f = Some (-1) /\
       (forall t, (t < 2)%nat ->
          InPlaceArraySec3.A s' !! (InPlaceArraySec3.first_of f + t)%nat
            = Some (InPlaceArraySec3.initv s)) /\
       (forall i, (i < InPlaceArraySec3.N s)%nat ->
          InPlaceArraySec3.read_impl s' i = InPlaceArraySec3.read_impl s i) /\
       charged 1 2 (InPlaceArraySec3.ctr s) (InPlaceArraySec3.ctr s')) /\
  (forall s, reachable (sec4 s) ->
     (InPlaceArraySec4.b s < InPlaceArraySec4.N_blocks s)%nat ->
     exists f s',
       InPlaceArraySec4.extend s = Some (f, s') /\
       InPlaceArraySec4.b s' = S (InPlaceArraySec4.b s) /\
       (f <= InPlaceArraySec4.b s)%nat /\
       InPlaceArraySec4.chainedTo_block s' f = Some (-1) /\
       (forall t, (t < 4)%nat ->
          InPlaceArraySec4.A s' !! (InPlaceArraySec4.first_of f + t)%nat
            = Some (InPlaceArraySec4.initv s)) /\
       (forall i, (i < InPlaceArraySec4.N s)%nat ->
          InPlaceArraySec4.read_impl s' i = InPlaceArraySec4.read_impl s i) /\
       charged 1 2 (InPlaceArraySec4.ctr s) (InPlaceArraySec4.ctr s')).
Proof.
  split; intros s Hr Hb; apply reachable_wf in Hr; cbn [wf_array] in Hr.
  - destruct (sec3_extend_spec s Hr Hb)
      as (f & s' & E1 & _ & _ & E2 & E3 & E4 & E5 & E6 & E7).
    by exists f, s'.
  - destruct (sec4_extend_spec s Hr Hb)
      as (f & s' & E1 & _ & _ & E2 & E3 & E4 & E5 & E6 & E7).
    by exists f, s'.
Qed.

Lemma extend_frees_block_witness :
  exists s f s', demo4 = sec4 s /\
    InPlaceArraySec4.extend s = Some (f, s') /\
    InPlaceArraySec4.chainedTo_block s' f = Some (-1).
Proof.
  eexists.
  destruct (proj2 extend_frees_block _ demo4_reachable)
    as (f & s' & E & _ & _ & H & _); [vm_compute; lia|].
  exists f, s'. split; [reflexivity|]. split; [exact E | exact H].
Defined.



Lemma demo4_wide_reachable : reachable demo4_wide.
Proof. exists Vsec4, 12%nat. eexists. exists [OpInit 0; OpWrite 5%nat 99]. by split. Qed.

(** X15. [extend] of InPlaceArraySec4 ends with the stash synchronised: in
    a reachable state with [b < N_blocks] it returns with [b] one higher,
    [initv] as before and [flag] set exactly when the new [b] has reached
    [N_blocks] ([N_blocks] itself stays); if [flag] is then false, the
    last block holds [initv] at offset 1 and the new [b] at offset 2. *)
Theorem sec4_extend_stashes (s : InPlaceArraySec4.t) :
  reachable (sec4 s) ->
  (InPlaceArraySec4.b s < InPlaceArraySec4.N_blocks s)%nat ->
  exists f s',
    InPlaceArraySec4.extend s = Some (f, s') /\
    InPlaceArraySec4.N_blocks s' = InPlaceArraySec4.N_blocks s /\
    InPlaceArraySec4.b s' = S (InPlaceArraySec4.b s) /\
    InPlaceArraySec4.initv s' = InPlaceArraySec4.initv s /\
    InPlaceArraySec4.flag s'
      = (InPlaceArraySec4.N_blocks s <=? S (InPlaceArraySec4.b s))%nat /\
    stash_ok s'.
Proof. intros Hr Hb. apply reachable_wf in Hr. by apply sec4_extend_syncs. Qed.

Lemma sec4_extend_stashes_witness :
  exists s f s', demo4_wide = sec4 s /\
    InPlaceArraySec4.extend s = Some (f, s') /\
    InPlaceArraySec4.flag s' = false /\
    InPlaceArraySec4.A s' !! 9%nat = Some 0 /\
    InPlaceArraySec4.A s' !! 10%nat = Some 2.
Proof.
  eexists.
  destruct (sec4_extend_stashes _ demo4_wide_reachable)
    as (f & s' & E & Hn & Hb & Hv & Hf & H); [vm_compute; lia|].
  exists f, s'. split; [reflexivity|]. split; [exact E|].
  split; [exact Hf|].
  destruct (H Hf) as [H1 H2]. rewrite Hn, Hv in H1. rewrite Hn, Hb in H2.
  split; [exact H1 | exact H2].
Defined.

(** X16. Verification is off until it is enabled: on a constructed array,
    no sequence of [init], [read], [write] and [reset_counters] calls
    touches the shadow state; the shadow vectors are still empty after
    it. *)
Theorem verification_is_opt_in (v : variant) (n : nat) (a0 : array) (ops : list op) :
  make v n = inr a0 -> Forall plain ops ->
  exists a, run ops a0 = Some a /\
    shadow_of a =
      match v with Vstd_vector => None | _ => Some (VerifiableBase.new n) end.
Proof.
  intros Hm Hops. pose proof (make_shadow v n a0 Hm) as Hs.
  destruct (run_keeps_shadow ops a0 (make_wf v n a0 Hm) Hops) as (a & E & S).
  - intros vb Hvb. rewrite Hs in Hvb. destruct v; by simplify_eq.
  - exists a. split; [done | congruence].
Qed.

Lemma verification_is_opt_in_witness :
  exists a0 a,
    make Vsec3 4 = inr a0 /\
    run [OpInit 2; OpWrite 3 1; OpRead 9; OpWrite 0 5] a0 = Some a /\
    shadow_of a = Some (VerifiableBase.new 4).
Proof.
  eexists.
  destruct (verification_is_opt_in Vsec3 4 _
              [OpInit 2; OpWrite 3%nat 1; OpRead 9; OpWrite 0%nat 5] eq_refl)
    as (a & E & H).
  { repeat (constructor; [discriminate|]). constructor. }
  exists a. split; [reflexivity|]. split; [exact E | exact H].
Defined.
